(** * Planetaria: the procedural scene renderer of [PlanetCanvas.tsx]

    A shallow embedding of the star field, the connection arcs, the camera
    input handlers and the planet point cloud of
    [src/components/PlanetCanvas.tsx], with the properties of the
    specification stated over it.

    Numbers.  A JavaScript [number] is modelled by an exact rational ([Q]):
    every literal of the source ([0.04], [3.8], [50000], ...) is the same
    decimal here and [+], [-], [*], [/], [<], [<=] are the exact operations,
    so rounding of binary64 is not part of the model; neither are NaN and
    the infinities ([Infinity] occurs once, as the first [bestDist], and is
    [None] there; the code divides by star depths only, which stay at or
    above 0.2).  The planet point cloud
    needs [Math.sqrt], [Math.cos], [Math.sin] and [Math.PI]; it lives in
    [Module Planet] over the real numbers.  [Math.sin], [Math.cos] and
    [Math.hypot] also occur in the camera code, where only their value is
    passed on; there they are parameters of [Section Renderer].  [Module
    Binary64] repeats the scalar updates of the life cycle, the twinkle, the
    depth of a new star and the wheel in IEEE binary64, and the sample
    computations of the properties are run there as well.

    Effects.  [Math.random], [requestAnimationFrame] and the strokes painted
    for the connections go through the monad [M], a state monad over the
    browser-side [World] with one exception, the [TypeError] JavaScript
    raises when a property of [undefined] is read.  The mutable refs of the
    component are the record [Scene], passed explicitly.  Canvas calls that
    only read simulation state (background, glow, dots of the planet, the
    stars and the cluster nodes) are left out of [animate]; what the frame
    paints for the stars and for the planet is given further down by
    functions of their own ([drawStar], [PlanetDraw.drawPoint],
    [PlanetDraw.drawGlow]), with the clean-up of the effect and the
    statistics of [HeroContent]. *)

From Stdlib Require Import QArith Qround Qminmax Qabs ZArith List Bool Lia Psatz.
From Stdlib Require Import Reals.
From Stdlib Require Floats.
Import ListNotations.

Set Warnings "-inexact-float".

Local Open Scope Q_scope.

(** ** Numbers *)

(** [a < b] on JavaScript numbers, as a boolean. *)
Definition Qltb (a b : Q) : bool := negb (Qle_bool b a).

(** ** The browser side: random numbers, animation frames, painted strokes *)

(** One connection segment handed to [ctx.stroke()]: the end points, the line
    width and the alpha of the two inner colour stops of its gradient. *)
Record Stroke := {
  x1 : Q; y1 : Q; x2 : Q; y2 : Q;
  lineWidth : Q;
  alpha : Q
}.

Record World := {
  entropy : nat -> Q;     (* what the calls of Math.random() return, in order *)
  drawn : nat;            (* how many of them have been consumed *)
  frames : list Z;        (* handles of the pending animation-frame callbacks *)
  nextHandle : Z;         (* the handle requestAnimationFrame returns next *)
  strokes : list Stroke   (* segments painted so far, oldest first *)
}.

(** [Math.random()] returns a number in [[0, 1)]. *)
Definition unit_interval (w : World) : Prop :=
  forall n, 0 <= entropy w n /\ entropy w n < 1.

Inductive JsError := TypeError.

Inductive Res (A : Type) :=
| Ok (a : A) (w : World)
| Throw (e : JsError).
Arguments Ok {A} a w.
Arguments Throw {A} e.

Definition M (A : Type) : Type := World -> Res A.

Definition ret {A} (a : A) : M A := fun w => Ok a w.

Definition bind {A B} (c : M A) (k : A -> M B) : M B :=
  fun w => match c w with
           | Ok a w' => k a w'
           | Throw e => Throw e
           end.

Definition throw {A} (e : JsError) : M A := fun _ => Throw e.

Notation "x <- c ;; k" := (bind c (fun x => k))
  (at level 61, c at next level, right associativity).
Notation "c ;;; k" := (bind c (fun _ => k))
  (at level 61, right associativity).

Definition random : M Q :=
  fun w => Ok (entropy w (drawn w))
              {| entropy := entropy w; drawn := S (drawn w);
                 frames := frames w; nextHandle := nextHandle w;
                 strokes := strokes w |}.

Definition requestAnimationFrame : M Z :=
  fun w => Ok (nextHandle w)
              {| entropy := entropy w; drawn := drawn w;
                 frames := frames w ++ [nextHandle w];
                 nextHandle := (nextHandle w + 1)%Z;
                 strokes := strokes w |}.

Definition stroke (s : Stroke) : M unit :=
  fun w => Ok tt
              {| entropy := entropy w; drawn := drawn w;
                 frames := frames w; nextHandle := nextHandle w;
                 strokes := strokes w ++ [s] |}.

(** A [for] loop that pushes the result of [n] runs of its body. *)
Fixpoint repeatM {A} (n : nat) (body : M A) : M (list A) :=
  match n with
  | O => ret []
  | S n' => a <- body ;; l <- repeatM n' body ;; ret (a :: l)
  end.

(** [array.forEach] where the callback mutates the element it is given. *)
Fixpoint forEachM {A} (f : A -> M A) (l : list A) : M (list A) :=
  match l with
  | [] => ret []
  | a :: l' => a' <- f a ;; r <- forEachM f l' ;; ret (a' :: r)
  end.

(** ** The data model (the interfaces of [PlanetCanvas.tsx]) *)

Module ClusterNode.
Record t := {
  dx : Q;
  dy : Q;
  size : Q;
  opacityOffset : Q
}.
End ClusterNode.

Module Star.
Record t := {
  x : Q;
  y : Q;
  z : Q;
  size : Q;
  baseOpacity : Q;
  opacity : Q;
  twinkleSpeed : Q;
  clusterNodes : option (list ClusterNode.t)
}.
End Star.

Inductive ConnectionState := growing | holding | fading.

Module Connection.
Record t := {
  startIdx : Z;
  endIdx : Z;
  life : Q;
  state : ConnectionState;
  maxLife : Q
}.
End Connection.

(** The [<canvas>] element: its pixel size and whether [getContext('2d')]
    yields a context. *)
Record Canvas := {
  width : Q;
  height : Q;
  context2d : bool
}.

(** The container [<div>]: [clientWidth] and [clientHeight] are integers. *)
Record Container := {
  clientWidth : Z;
  clientHeight : Z
}.

(** The refs of the component. *)
Record Scene := {
  canvasRef : option Canvas;
  containerRef : option Container;
  starsRef : list Star.t;
  connectionsRef : list Connection.t;
  requestRef : Z;
  mouseRef : Q * Q;
  lookAtRef : Q * Q;
  zoomRef : Q;
  targetZoomRef : Q;
  lastTouchDistRef : option Q;
  rotationRef : Q;
  planetNoise : list Q    (* the [noise] scalars of planetPointsRef; the
                             coordinates of the points are in [Module Planet] *)
}.

(** ** [initStars] *)

Definition clusterSpread : Q := 40.

Definition newClusterNode : M ClusterNode.t :=
  r1 <- random ;; r2 <- random ;; r3 <- random ;; r4 <- random ;;
  ret {| ClusterNode.dx := (r1 - 0.5) * clusterSpread;
         ClusterNode.dy := (r2 - 0.5) * clusterSpread;
         ClusterNode.size := r3 * 0.8 + 0.3;
         ClusterNode.opacityOffset := r4 |}.

(** The body of the loop of [initStars]: one star. *)
Definition newStar (width height : Q) : M Star.t :=
  r <- random ;;
  let z := r * 3.8 + 0.2 in
  let spreadFactor := 1.5 * z in
  rx <- random ;;
  let x := (rx - 0.5) * width * spreadFactor in
  ry <- random ;;
  let y := (ry - 0.5) * height * spreadFactor in
  rc <- random ;;
  clusterNodes <-
    (if Qltb rc 0.04 then
       rn <- random ;;
       let count := (Qfloor (rn * 3) + 3)%Z in
       nodes <- repeatM (Z.to_nat count) newClusterNode ;;
       ret (Some nodes)
     else ret None) ;;
  rsize <- random ;; rbase <- random ;; ropac <- random ;;
  rspeed <- random ;; rsign <- random ;;
  ret {| Star.x := x;
         Star.y := y;
         Star.z := z;
         Star.size := rsize * 1.5 + 0.5;
         Star.baseOpacity := rbase * 0.5 + 0.3;
         Star.opacity := ropac;
         Star.twinkleSpeed :=
           (rspeed * 0.01 + 0.002) * (if Qltb 0.5 rsign then 1 else -1);
         Star.clusterNodes := clusterNodes |}.

Definition starCount (width height : Q) : Z :=
  let area := width * height in
  Z.min 2500 (Z.max 600 (Qfloor (area / 350))).

Definition set_stars (s : Scene) (stars : list Star.t) : Scene :=
  {| canvasRef := canvasRef s; containerRef := containerRef s;
     starsRef := stars; connectionsRef := connectionsRef s;
     requestRef := requestRef s; mouseRef := mouseRef s;
     lookAtRef := lookAtRef s; zoomRef := zoomRef s;
     targetZoomRef := targetZoomRef s;
     lastTouchDistRef := lastTouchDistRef s;
     rotationRef := rotationRef s; planetNoise := planetNoise s |}.

Definition initStars (width height : Q) (s : Scene) : M Scene :=
  stars <- repeatM (Z.to_nat (starCount width height)) (newStar width height) ;;
  ret (set_stars s stars).

(** ** [initPlanet], the part that draws random numbers

    [initPlanet] calls [Math.random()] once per point, for its [noise]. *)

Definition numPoints : nat := 1400.

Definition set_planetNoise (s : Scene) (noise : list Q) : Scene :=
  {| canvasRef := canvasRef s; containerRef := containerRef s;
     starsRef := starsRef s; connectionsRef := connectionsRef s;
     requestRef := requestRef s; mouseRef := mouseRef s;
     lookAtRef := lookAtRef s; zoomRef := zoomRef s;
     targetZoomRef := targetZoomRef s;
     lastTouchDistRef := lastTouchDistRef s;
     rotationRef := rotationRef s; planetNoise := noise |}.

Definition initPlanetNoise (s : Scene) : M Scene :=
  noise <- repeatM numPoints random ;;
  ret (set_planetNoise s noise).

(** ** Reading JavaScript values that may be [undefined] *)

(** [arr[i]]: [undefined] (here [None]) outside the array. *)
Definition lookup {A} (arr : list A) (i : Z) : option A :=
  if (i <? 0)%Z then None else nth_error arr (Z.to_nat i).

(** [!!v] for a value that is an object or [undefined]. *)
Definition truthy {A} (v : option A) : bool :=
  match v with Some _ => true | None => false end.

(** [v.f]: reading a property of [undefined] throws. *)
Definition field {A B} (f : A -> B) (v : option A) : M B :=
  match v with
  | Some a => ret (f a)
  | None => throw TypeError
  end.

(** [arr.splice(i, 1)] *)
Fixpoint splice {A} (i : nat) (arr : list A) : list A :=
  match arr, i with
  | [], _ => []
  | _ :: arr', O => arr'
  | a :: arr', S i' => a :: splice i' arr'
  end.

(** [arr[i] = v] for an index inside the array (the loop over the
    connections mutates the object that [arr[i]] refers to). *)
Fixpoint store {A} (i : nat) (v : A) (arr : list A) : list A :=
  match arr, i with
  | [], _ => []
  | _ :: arr', O => v :: arr'
  | a :: arr', S i' => a :: store i' v arr'
  end.

(** ** The frame: [animate] *)

Definition driftSpeed : Q := 0.002.

(** The callback of the first [stars.forEach]: drift and recycling. *)
Definition drift (w h : Q) (star : Star.t) : M Star.t :=
  let z1 := Star.z star - driftSpeed in
  if Qle_bool z1 0.2 then
    let z2 := 4.0 in
    let spreadFactor := 1.5 * z2 in
    rx <- random ;;
    ry <- random ;;
    ret {| Star.x := (rx - 0.5) * w * spreadFactor;
           Star.y := (ry - 0.5) * h * spreadFactor;
           Star.z := z2;
           Star.size := Star.size star;
           Star.baseOpacity := Star.baseOpacity star;
           Star.opacity := 0;
           Star.twinkleSpeed := Star.twinkleSpeed star;
           Star.clusterNodes := Star.clusterNodes star |}
  else
    ret {| Star.x := Star.x star;
           Star.y := Star.y star;
           Star.z := z1;
           Star.size := Star.size star;
           Star.baseOpacity := Star.baseOpacity star;
           Star.opacity := Star.opacity star;
           Star.twinkleSpeed := Star.twinkleSpeed star;
           Star.clusterNodes := Star.clusterNodes star |}.

(** [dist < bestDist] where [bestDist] starts as [Infinity] (here [None]). *)
Definition below (dist : Q) (bestDist : option Q) : bool :=
  match bestDist with
  | None => true
  | Some b => Qltb dist b
  end.

(** [Math.floor(Math.random() * stars.length)] for a drawn number [r]. *)
Definition randomIndex (r : Q) (stars : list Star.t) : Z :=
  Qfloor (r * inject_Z (Z.of_nat (length stars))).

(** The [for (let i = 0; i < 20; i++)] loop of the spawn attempt, with [n]
    rounds left. *)
Fixpoint searchTarget (n : nat) (stars : list Star.t) (startIdx : Z)
    (startStar : option Star.t) (bestDist : option Q) (bestIdx : Z)
    : M (option Q * Z) :=
  match n with
  | O => ret (bestDist, bestIdx)
  | S n' =>
    r <- random ;;
    let checkIdx := randomIndex r stars in
    if (checkIdx =? startIdx)%Z then
      searchTarget n' stars startIdx startStar bestDist bestIdx
    else
      let s2 := lookup stars checkIdx in
      if negb (truthy s2) then
        searchTarget n' stars startIdx startStar bestDist bestIdx
      else
        ax <- field Star.x startStar ;; bx <- field Star.x s2 ;;
        let dx := ax - bx in
        ay <- field Star.y startStar ;; by_ <- field Star.y s2 ;;
        let dy := ay - by_ in
        let dist := dx * dx + dy * dy in
        az <- field Star.z startStar ;; bz <- field Star.z s2 ;;
        if Qltb dist (50000 * az) && below dist bestDist
           && Qltb (Qabs (az - bz)) 0.5
        then searchTarget n' stars startIdx startStar (Some dist) checkIdx
        else searchTarget n' stars startIdx startStar bestDist bestIdx
  end.

(** The spawn attempt at the head of "Update & Draw Connections". *)
Definition spawnConnection (stars : list Star.t)
    (connections : list Connection.t) : M (list Connection.t) :=
  if (0 <? length stars)%nat then
    r <- random ;;
    if Qltb r 0.03 then
      r' <- random ;;
      let startIdx := randomIndex r' stars in
      let startStar := lookup stars startIdx in
      if truthy startStar then
        sz <- field Star.z startStar ;;
        if Qltb sz 3.0 && Qltb 0.5 sz then
          best <- searchTarget 20 stars startIdx startStar None (-1)%Z ;;
          let bestIdx := snd best in
          if negb (bestIdx =? -1)%Z then
            r'' <- random ;;
            ret (connections ++
                 [ {| Connection.startIdx := startIdx;
                      Connection.endIdx := bestIdx;
                      Connection.life := 0;
                      Connection.state := growing;
                      Connection.maxLife := r'' * 0.4 + 0.6 |} ])
          else ret connections
        else ret connections
      else ret connections
    else ret connections
  else ret connections.

(** The life-cycle step of one connection (the [if]/[else if]/[else] at the
    head of the loop over the connections). *)
Definition stepLife (conn : Connection.t) : Connection.t :=
  match Connection.state conn with
  | growing =>
    let life := Connection.life conn + 0.04 in
    {| Connection.startIdx := Connection.startIdx conn;
       Connection.endIdx := Connection.endIdx conn;
       Connection.life := life;
       Connection.state :=
         if Qle_bool (Connection.maxLife conn) life then holding else growing;
       Connection.maxLife := Connection.maxLife conn |}
  | holding =>
    let life := Connection.life conn - 0.005 in
    {| Connection.startIdx := Connection.startIdx conn;
       Connection.endIdx := Connection.endIdx conn;
       Connection.life := life;
       Connection.state :=
         if Qltb life (Connection.maxLife conn * 0.8) then fading else holding;
       Connection.maxLife := Connection.maxLife conn |}
  | fading =>
    let life := Connection.life conn - 0.015 in
    {| Connection.startIdx := Connection.startIdx conn;
       Connection.endIdx := Connection.endIdx conn;
       Connection.life := life;
       Connection.state := fading;
       Connection.maxLife := Connection.maxLife conn |}
  end.

(** What a frame has computed from the camera before it turns to the stars. *)
Record View := {
  zoom : Q;
  cx : Q;
  cy : Q;
  offsetX : Q;
  offsetY : Q;
  canvasWidth : Q;
  canvasHeight : Q
}.

(** The loop [for (let i = connections.length - 1; i >= 0; i--)], about to
    run its body at index [n - 1]. *)
Fixpoint connectionLoop (v : View) (stars : list Star.t) (n : nat)
    (connections : list Connection.t) : M (list Connection.t) :=
  match n with
  | O => ret connections
  | S i =>
    conn <- field stepLife (nth_error connections i) ;;
    if Qle_bool (Connection.life conn) 0 then
      connectionLoop v stars i (splice i connections)
    else
      let s1 := lookup stars (Connection.startIdx conn) in
      let s2 := lookup stars (Connection.endIdx conn) in
      if negb (truthy s1) || negb (truthy s2) then
        connectionLoop v stars i (splice i connections)
      else
        z1 <- field Star.z s1 ;;
        let scale1 := zoom v / z1 in
        s1x <- field Star.x s1 ;;
        let x1 := cx v + (s1x + offsetX v) * scale1 in
        s1y <- field Star.y s1 ;;
        let y1 := cy v + (s1y + offsetY v) * scale1 in
        z2 <- field Star.z s2 ;;
        let scale2 := zoom v / z2 in
        s2x <- field Star.x s2 ;;
        let x2 := cx v + (s2x + offsetX v) * scale2 in
        s2y <- field Star.y s2 ;;
        let y2 := cy v + (s2y + offsetY v) * scale2 in
        if Qltb x1 (-50) || Qltb (canvasWidth v + 50) x1
           || Qltb y1 (-50) || Qltb (canvasHeight v + 50) y1
        then connectionLoop v stars i (store i conn connections)
        else
          let baseWidth := 0.5 + Connection.life conn * 1.5 in
          stroke {| x1 := x1; y1 := y1; x2 := x2; y2 := y2;
                    lineWidth := baseWidth * (zoom v * 0.5);
                    alpha := Connection.life conn * 0.6 |} ;;;
          connectionLoop v stars i (store i conn connections)
  end.

(** The twinkle at the head of the second [stars.forEach]. *)
Definition twinkle (star : Star.t) : Star.t :=
  let opacity := Star.opacity star + Star.twinkleSpeed star in
  {| Star.x := Star.x star;
     Star.y := Star.y star;
     Star.z := Star.z star;
     Star.size := Star.size star;
     Star.baseOpacity := Star.baseOpacity star;
     Star.opacity := opacity;
     Star.twinkleSpeed :=
       if Qltb 1 opacity || Qltb opacity 0.2
       then - Star.twinkleSpeed star
       else Star.twinkleSpeed star;
     Star.clusterNodes := Star.clusterNodes star |}.

Section Renderer.

(** [Math.sin], [Math.cos] and [Math.hypot]: their results are irrational in
    general, so the camera code takes them as given functions. *)
Variable Math_sin : Q -> Q.
Variable Math_cos : Q -> Q.
Variable Math_hypot : Q -> Q -> Q.

(** [animate]: the two guards, the camera, the stars, the connections, the
    twinkle and the request for the next frame. *)
Definition animate (time : Q) (s : Scene) : M Scene :=
  match canvasRef s with
  | None => ret s
  | Some canvas =>
    if negb (context2d canvas) then ret s
    else
      let zoom := zoomRef s + (targetZoomRef s - zoomRef s) * 0.1 in
      let rotation := rotationRef s + 0.002 in
      let cx := width canvas / 2 in
      let isPortrait := Qltb (width canvas) (height canvas) in
      let cy := height canvas / 2
                - (if isPortrait then height canvas * 0.1 else 0) in
      let targetLookX := (fst (mouseRef s) - cx) * 0.05 in
      let targetLookY := (snd (mouseRef s) - cy) * 0.05 in
      let lookX := fst (lookAtRef s) + (targetLookX - fst (lookAtRef s)) * 0.05 in
      let lookY := snd (lookAtRef s) + (targetLookY - snd (lookAtRef s)) * 0.05 in
      let bobX := Math_sin (time * 0.001) * 12 in
      let bobY := Math_cos (time * 0.0013) * 12 in
      let view := {| zoom := zoom; cx := cx; cy := cy;
                     offsetX := lookX + bobX; offsetY := lookY + bobY;
                     canvasWidth := width canvas;
                     canvasHeight := height canvas |} in
      stars <- forEachM (drift (width canvas) (height canvas)) (starsRef s) ;;
      connections <- spawnConnection stars (connectionsRef s) ;;
      connections <- connectionLoop view stars (length connections) connections ;;
      let stars := map twinkle stars in
      handle <- requestAnimationFrame ;;
      ret {| canvasRef := canvasRef s; containerRef := containerRef s;
             starsRef := stars; connectionsRef := connections;
             requestRef := handle; mouseRef := mouseRef s;
             lookAtRef := (lookX, lookY); zoomRef := zoom;
             targetZoomRef := targetZoomRef s;
             lastTouchDistRef := lastTouchDistRef s;
             rotationRef := rotation; planetNoise := planetNoise s |}
  end.

(** ** The handlers registered by the effect *)

Definition handleResize (s : Scene) : M Scene :=
  match canvasRef s, containerRef s with
  | Some canvas, Some container =>
    let clientWidth := inject_Z (clientWidth container) in
    let clientHeight := inject_Z (clientHeight container) in
    let s :=
      {| canvasRef := Some {| width := clientWidth; height := clientHeight;
                              context2d := context2d canvas |};
         containerRef := containerRef s;
         starsRef := starsRef s; connectionsRef := connectionsRef s;
         requestRef := requestRef s;
         mouseRef := (clientWidth / 2, clientHeight / 2);
         lookAtRef := lookAtRef s; zoomRef := zoomRef s;
         targetZoomRef := targetZoomRef s;
         lastTouchDistRef := lastTouchDistRef s;
         rotationRef := rotationRef s; planetNoise := planetNoise s |} in
    s <- initStars clientWidth clientHeight s ;;
    let s :=
      {| canvasRef := canvasRef s; containerRef := containerRef s;
         starsRef := starsRef s; connectionsRef := [];
         requestRef := requestRef s; mouseRef := mouseRef s;
         lookAtRef := lookAtRef s; zoomRef := zoomRef s;
         targetZoomRef := targetZoomRef s;
         lastTouchDistRef := lastTouchDistRef s;
         rotationRef := rotationRef s; planetNoise := planetNoise s |} in
    initPlanetNoise s
  | _, _ => ret s
  end.

Definition set_mouse (s : Scene) (m : Q * Q) : Scene :=
  {| canvasRef := canvasRef s; containerRef := containerRef s;
     starsRef := starsRef s; connectionsRef := connectionsRef s;
     requestRef := requestRef s; mouseRef := m;
     lookAtRef := lookAtRef s; zoomRef := zoomRef s;
     targetZoomRef := targetZoomRef s;
     lastTouchDistRef := lastTouchDistRef s;
     rotationRef := rotationRef s; planetNoise := planetNoise s |}.

Definition set_targetZoom (s : Scene) (t : Q) : Scene :=
  {| canvasRef := canvasRef s; containerRef := containerRef s;
     starsRef := starsRef s; connectionsRef := connectionsRef s;
     requestRef := requestRef s; mouseRef := mouseRef s;
     lookAtRef := lookAtRef s; zoomRef := zoomRef s;
     targetZoomRef := t;
     lastTouchDistRef := lastTouchDistRef s;
     rotationRef := rotationRef s; planetNoise := planetNoise s |}.

Definition set_lastTouchDist (s : Scene) (d : option Q) : Scene :=
  {| canvasRef := canvasRef s; containerRef := containerRef s;
     starsRef := starsRef s; connectionsRef := connectionsRef s;
     requestRef := requestRef s; mouseRef := mouseRef s;
     lookAtRef := lookAtRef s; zoomRef := zoomRef s;
     targetZoomRef := targetZoomRef s;
     lastTouchDistRef := d;
     rotationRef := rotationRef s; planetNoise := planetNoise s |}.

(** A touch point: [clientX] and [clientY]. *)
Definition Touch : Type := (Q * Q)%type.

Definition handleMouseMove (clientX clientY : Q) (s : Scene) : Scene :=
  set_mouse s (clientX, clientY).

Definition handleWheel (deltaY : Q) (s : Scene) : Scene :=
  let delta := - deltaY * 0.001 in
  set_targetZoom s (Qmax 0.5 (Qmin 5.0 (targetZoomRef s + delta))).

Definition handleTouchStart (touches : list Touch) (s : Scene) : Scene :=
  match touches with
  | [t] => set_mouse s (fst t, snd t)
  | [t1; t2] =>
    set_lastTouchDist s
      (Some (Math_hypot (fst t1 - fst t2) (snd t1 - snd t2)))
  | _ => s
  end.

Definition zoomSensitivity : Q := 0.008.

Definition handleTouchMove (touches : list Touch) (s : Scene) : Scene :=
  match touches with
  | [t] => set_mouse s (fst t, snd t)
  | [t1; t2] =>
    match lastTouchDistRef s with
    | Some lastTouchDist =>
      let dist := Math_hypot (fst t1 - fst t2) (snd t1 - snd t2) in
      let deltaDist := dist - lastTouchDist in
      let s := set_targetZoom s
                 (Qmax 0.5 (Qmin 5.0 (targetZoomRef s + deltaDist * zoomSensitivity))) in
      set_lastTouchDist s (Some dist)
    | None => s
    end
  | _ => s
  end.

Definition handleTouchEnd (s : Scene) : Scene :=
  set_lastTouchDist s None.

(** ** The component in the browser *)

(** The refs as [useRef] creates them, with the elements React attaches. *)
Definition initialScene (canvas : option Canvas) (container : option Container)
    : Scene :=
  {| canvasRef := canvas; containerRef := container;
     starsRef := []; connectionsRef := [];
     requestRef := 0%Z; mouseRef := (0, 0);
     lookAtRef := (0, 0); zoomRef := 1;
     targetZoomRef := 1;
     lastTouchDistRef := None;
     rotationRef := 0; planetNoise := [] |}.

(** The body of the effect: size the scene, then ask for the first frame
    (the listeners it registers are the constructors of [Event]). *)
Definition mount (canvas : option Canvas) (container : option Container)
    : M Scene :=
  s <- handleResize (initialScene canvas container) ;;
  handle <- requestAnimationFrame ;;
  ret {| canvasRef := canvasRef s; containerRef := containerRef s;
         starsRef := starsRef s; connectionsRef := connectionsRef s;
         requestRef := handle; mouseRef := mouseRef s;
         lookAtRef := lookAtRef s; zoomRef := zoomRef s;
         targetZoomRef := targetZoomRef s;
         lastTouchDistRef := lastTouchDistRef s;
         rotationRef := rotationRef s; planetNoise := planetNoise s |}.

Inductive Event :=
| Resize (clientWidth clientHeight : Z)  (* the size the container has then *)
| MouseMove (clientX clientY : Q)
| Wheel (deltaY : Q)
| TouchStart (touches : list Touch)
| TouchMove (touches : list Touch)
| TouchEnd
| AnimationFrame (time : Q).             (* the browser reaches the next frame *)

Definition set_container (s : Scene) (c : option Container) : Scene :=
  {| canvasRef := canvasRef s; containerRef := c;
     starsRef := starsRef s; connectionsRef := connectionsRef s;
     requestRef := requestRef s; mouseRef := mouseRef s;
     lookAtRef := lookAtRef s; zoomRef := zoomRef s;
     targetZoomRef := targetZoomRef s;
     lastTouchDistRef := lastTouchDistRef s;
     rotationRef := rotationRef s; planetNoise := planetNoise s |}.

(** The browser takes the oldest pending animation-frame callback, if any. *)
Definition takeFrame : M bool :=
  fun w => match frames w with
           | [] => Ok false w
           | _ :: rest =>
             Ok true {| entropy := entropy w; drawn := drawn w;
                        frames := rest; nextHandle := nextHandle w;
                        strokes := strokes w |}
           end.

Definition dispatch (e : Event) (s : Scene) : M Scene :=
  match e with
  | Resize cw ch =>
    handleResize
      (set_container s
         (match containerRef s with
          | Some _ => Some {| clientWidth := cw; clientHeight := ch |}
          | None => None
          end))
  | MouseMove clientX clientY => ret (handleMouseMove clientX clientY s)
  | Wheel deltaY => ret (handleWheel deltaY s)
  | TouchStart touches => ret (handleTouchStart touches s)
  | TouchMove touches => ret (handleTouchMove touches s)
  | TouchEnd => ret (handleTouchEnd s)
  | AnimationFrame time =>
    pending <- takeFrame ;;
    if pending then animate time s else ret s
  end.

Fixpoint run (events : list Event) (s : Scene) : M Scene :=
  match events with
  | [] => ret s
  | e :: rest => s' <- dispatch e s ;; run rest s'
  end.

End Renderer.

(** ** The planet point cloud, over the real numbers *)

Module Planet.
Local Open Scope R_scope.

Record PlanetPoint := {
  x : R;
  y : R;
  z : R;
  baseX : R;
  baseY : R;
  baseZ : R;
  noise : R
}.

(** The golden angle of the Fibonacci sphere. *)
Definition phi : R := PI * (3 - sqrt 5).

(** The body of the loop of [initPlanet]: the point of index [i]; [rnd] is
    what [Math.random()] returns for it. *)
Definition newPoint (radius : R) (i : nat) (rnd : R) : PlanetPoint :=
  let y := 1 - (INR i / (INR numPoints - 1)) * 2 in
  let r := sqrt (1 - y * y) in
  let theta := phi * INR i in
  let x := cos theta * r in
  let z := sin theta * r in
  {| x := x * radius;
     y := y * radius;
     z := z * radius;
     baseX := x * radius;
     baseY := y * radius;
     baseZ := z * radius;
     noise := rnd |}.

Definition initPlanet (width height : R) (rnd : nat -> R) : list PlanetPoint :=
  let minDim := Rmin width height in
  let radius := minDim * 0.30 in
  map (fun i => newPoint radius i (rnd i)) (seq 0 numPoints).

(** The rotation about the vertical axis at the head of
    [planetPointsRef.current.forEach]: [(rotX, rotY, rotZ)]. *)
Definition rotate (rotation : R) (p : PlanetPoint) : R * R * R :=
  let cosRot := cos rotation in
  let sinRot := sin rotation in
  let rotX := baseX p * cosRot - baseZ p * sinRot in
  let rotZ := baseX p * sinRot + baseZ p * cosRot in
  let rotY := baseY p in
  (rotX, rotY, rotZ).

Definition norm (v : R * R * R) : R :=
  let '(a, b, c) := v in sqrt (a * a + b * b + c * c).

Definition base (p : PlanetPoint) : R * R * R := (baseX p, baseY p, baseZ p).

(** The point of index [i] as the specification gives it: the
    Fibonacci-sphere formula scaled by the radius. *)
Definition spec_point (W H : R) (i : nat) : R * R * R :=
  let N := INR 1400 in
  let radius := 0.30 * Rmin W H in
  let y := 1 - 2 * INR i / (N - 1) in
  let r := sqrt (1 - y ^ 2) in
  let theta := INR i * (PI * (3 - sqrt 5)) in
  let x := cos theta * r in
  let z := sin theta * r in
  (x * radius, y * radius, z * radius).

End Planet.

(** ** The scalar updates in IEEE binary64

    The same statements of the source on [float], the binary64 numbers of
    JavaScript, for the sample computations. *)

Module Binary64.
Import Floats.
Local Open Scope float_scope.

Definition Math_max (a b : float) : float :=
  if (is_nan a || is_nan b)%bool then nan else if a <? b then b else a.

Definition Math_min (a b : float) : float :=
  if (is_nan a || is_nan b)%bool then nan else if b <? a then b else a.

(** [z] of a new star, for the random number [r] ([initStars]). *)
Definition newDepth (r : float) : float := r * 3.8 + 0.2.

(** [maxLife] of a new connection, for the random number [r]. *)
Definition newMaxLife (r : float) : float := r * 0.4 + 0.6.

(** The life-cycle step on [(conn.life, conn.state, conn.maxLife)]. *)
Definition stepLife (conn : float * ConnectionState * float)
    : float * ConnectionState * float :=
  let '(life, state, maxLife) := conn in
  match state with
  | growing =>
    let life := life + 0.04 in
    (life, if maxLife <=? life then holding else growing, maxLife)
  | holding =>
    let life := life - 0.005 in
    (life, if life <? maxLife * 0.8 then fading else holding, maxLife)
  | fading => (life - 0.015, fading, maxLife)
  end.

(** The twinkle on [(star.opacity, star.twinkleSpeed)]. *)
Definition twinkle (star : float * float) : float * float :=
  let '(opacity, twinkleSpeed) := star in
  let opacity := opacity + twinkleSpeed in
  (opacity,
   if ((1 <? opacity) || (opacity <? 0.2))%bool
   then - twinkleSpeed else twinkleSpeed).

(** The target zoom [handleWheel] sets. *)
Definition handleWheel (deltaY targetZoom : float) : float :=
  let delta := - deltaY * 0.001 in
  Math_max 0.5 (Math_min 5.0 (targetZoom + delta)).

End Binary64.

(** ** Specification vocabulary *)

(** Total correctness of a computation of [M]: from a world that satisfies
    [pre] it returns, without an exception, a value and a world that satisfy
    [post]. *)
Definition hoare {A} (pre : World -> Prop) (c : M A)
    (post : A -> World -> Prop) : Prop :=
  forall w, pre w -> exists a w', c w = Ok a w' /\ post a w'.

(** A computation that returns from every world. *)
Definition total {A} (c : M A) : Prop :=
  hoare (fun _ => True) c (fun _ _ => True).

(** The star count as the specification words it. *)
Definition clamp (v lo hi : Z) : Z :=
  if (v <? lo)%Z then lo else if (hi <? v)%Z then hi else v.

Definition spec_starCount (W H : Q) : Z :=
  clamp (Qfloor (W * H / 350)) 600 2500.

(** [f] applied [n] times. *)
Fixpoint iter {A} (n : nat) (f : A -> A) (a : A) : A :=
  match n with
  | O => a
  | S n' => f (iter n' f a)
  end.

(** The order of the life cycle: growing, then holding, then fading. *)
Definition rank (st : ConnectionState) : nat :=
  match st with growing => 0 | holding => 1 | fading => 2 end.

(** [stars[i]] is a star. *)
Definition star_exists (stars : list Star.t) (i : Z) : Prop :=
  (0 <= i < Z.of_nat (length stars))%Z.

(** Both ends of the connection are stars of the array. *)
Definition ends_exist (stars : list Star.t) (c : Connection.t) : Prop :=
  star_exists stars (Connection.startIdx c)
  /\ star_exists stars (Connection.endIdx c).

(** Whether the loop over the connections keeps a connection whose life
    cycle it has just stepped to [c]. *)
Definition kept (stars : list Star.t) (c : Connection.t) : bool :=
  negb (Qle_bool (Connection.life c) 0)
  && truthy (lookup stars (Connection.startIdx c))
  && truthy (lookup stars (Connection.endIdx c)).

(** The connection list a frame leaves behind. *)
Definition survivors (stars : list Star.t) (connections : list Connection.t)
    : list Connection.t :=
  filter (kept stars) (map stepLife connections).

(** A world that differs from [w] at most in the strokes painted. *)
Definition same_but_strokes (w w' : World) : Prop :=
  entropy w' = entropy w /\ drawn w' = drawn w
  /\ frames w' = frames w /\ nextHandle w' = nextHandle w.

(** The squared distance the spawn attempt compares: it is taken between
    the stored [x], [y] of two stars. *)
Definition dist2 (a b : Star.t) : Q :=
  (Star.x a - Star.x b) * (Star.x a - Star.x b)
  + (Star.y a - Star.y b) * (Star.y a - Star.y b).

(** Where a frame with the view [v] puts a star on the screen: the
    projection its loops over the connections and over the stars use
    ([scale = zoom / star.z], [x = cx + (star.x + offsetX) * scale]). *)
Definition project (v : View) (star : Star.t) : Q * Q :=
  let scale := zoom v / Star.z star in
  (cx v + (Star.x star + offsetX v) * scale,
   cy v + (Star.y star + offsetY v) * scale).

(** The squared distance of two stars on the screen. *)
Definition screen_dist2 (v : View) (a b : Star.t) : Q :=
  (fst (project v a) - fst (project v b))
  * (fst (project v a) - fst (project v b))
  + (snd (project v a) - snd (project v b))
    * (snd (project v a) - snd (project v b)).

(** The star of index [j] may be the target of a connection that starts at
    the star [start] of index [startIdx]. *)
Definition qualifies (stars : list Star.t) (startIdx : Z) (start : Star.t)
    (j : Z) : Prop :=
  j <> startIdx
  /\ exists s2, lookup stars j = Some s2
       /\ dist2 start s2 < 50000 * Star.z start
       /\ Qabs (Star.z start - Star.z s2) < 0.5.

Definition qualifiesb (stars : list Star.t) (startIdx : Z) (start : Star.t)
    (j : Z) : bool :=
  negb (j =? startIdx)%Z
  && match lookup stars j with
     | Some s2 => Qltb (dist2 start s2) (50000 * Star.z start)
                  && Qltb (Qabs (Star.z start - Star.z s2)) 0.5
     | None => false
     end.

(** The indices the next [n] calls of [Math.random()] select in [w]. *)
Definition candidates (w : World) (stars : list Star.t) (n : nat) : list Z :=
  map (fun k => randomIndex (entropy w (drawn w + k)) stars) (seq 0 n).

(** The world after [n] more calls of [Math.random()]. *)
Definition skip (n : nat) (w : World) : World :=
  {| entropy := entropy w; drawn := drawn w + n; frames := frames w;
     nextHandle := nextHandle w; strokes := strokes w |}.

(** One round of the search, on the candidate index [j]. *)
Definition searchStep (stars : list Star.t) (startIdx : Z) (start : Star.t)
    (best : option Q * Z) (j : Z) : option Q * Z :=
  match lookup stars j with
  | Some s2 =>
    if qualifiesb stars startIdx start j && below (dist2 start s2) (fst best)
    then (Some (dist2 start s2), j)
    else best
  | None => best
  end.

(** What the search holds after it has seen the candidates [seen]. *)
Inductive best_of (stars : list Star.t) (startIdx : Z) (start : Star.t)
    (seen : list Z) : option Q * Z -> Prop :=
| best_none :
    (forall j, In j seen -> qualifiesb stars startIdx start j = false) ->
    best_of stars startIdx start seen (None, (-1)%Z)
| best_some j s2 :
    In j seen ->
    qualifiesb stars startIdx start j = true ->
    lookup stars j = Some s2 ->
    (forall k sk, In k seen -> qualifiesb stars startIdx start k = true ->
       lookup stars k = Some sk -> dist2 start s2 <= dist2 start sk) ->
    best_of stars startIdx start seen (Some (dist2 start s2), j).

(** The connection [c] is one that a spawn attempt in the world [w] may have
    created: [Math.random()] decides the attempt, then the start star, then
    the twenty candidates, then maxLife. *)
Definition spawned (w : World) (stars : list Star.t) (c : Connection.t)
    : Prop :=
  entropy w (drawn w) < 0.03
  /\ Connection.startIdx c = randomIndex (entropy w (drawn w + 1)) stars
  /\ exists start,
       lookup stars (Connection.startIdx c) = Some start
       /\ 0.5 < Star.z start /\ Star.z start < 3.0
       /\ let examined := candidates (skip 2 w) stars 20 in
          length examined = 20%nat
          /\ In (Connection.endIdx c) examined
          /\ qualifies stars (Connection.startIdx c) start (Connection.endIdx c)
          /\ (forall j sj se,
                In j examined ->
                qualifies stars (Connection.startIdx c) start j ->
                lookup stars j = Some sj ->
                lookup stars (Connection.endIdx c) = Some se ->
                dist2 start se <= dist2 start sj)
          /\ Connection.life c = 0
          /\ Connection.state c = growing
          /\ Connection.maxLife c = entropy w (drawn w + 22) * 0.4 + 0.6.

(** A world that differs from [w] at most in how many random numbers have
    been drawn. *)
Definition only_drawn (w w' : World) : Prop :=
  entropy w' = entropy w /\ frames w' = frames w
  /\ nextHandle w' = nextHandle w /\ strokes w' = strokes w.

(** What [drift] makes of a star, given the random numbers [e]: a star that
    would come as near as 0.2 goes back to depth 4.0 with opacity 0 and a
    fresh position in the frustum rectangle of that depth; any other star
    only comes nearer by [driftSpeed]. *)
Definition drifted (e : nat -> Q) (w h : Q) (star star' : Star.t) : Prop :=
  if Qle_bool (Star.z star - driftSpeed) 0.2 then
    exists i j,
      star' = {| Star.x := (e i - 0.5) * w * (1.5 * 4.0);
                 Star.y := (e j - 0.5) * h * (1.5 * 4.0);
                 Star.z := 4.0;
                 Star.size := Star.size star;
                 Star.baseOpacity := Star.baseOpacity star;
                 Star.opacity := 0;
                 Star.twinkleSpeed := Star.twinkleSpeed star;
                 Star.clusterNodes := Star.clusterNodes star |}
  else
    star' = {| Star.x := Star.x star;
               Star.y := Star.y star;
               Star.z := Star.z star - driftSpeed;
               Star.size := Star.size star;
               Star.baseOpacity := Star.baseOpacity star;
               Star.opacity := Star.opacity star;
               Star.twinkleSpeed := Star.twinkleSpeed star;
               Star.clusterNodes := Star.clusterNodes star |}.

(** The frame finds its canvas and the 2D context of it. *)
Definition surface_available (s : Scene) : bool :=
  match canvasRef s with
  | Some canvas => context2d canvas
  | None => false
  end.

(** What a frame that finds its surface makes of the scene [s] in the world
    [w]: the stars drift and then twinkle, at most one connection is spawned
    and the survivors of the loop remain, the camera moves on and one more
    animation frame is requested. *)
Definition rendered (w : World) (s s' : Scene) (w' : World) : Prop :=
  exists canvas stars connections w1,
    canvasRef s = Some canvas
    /\ Forall2 (drifted (entropy w) (width canvas) (height canvas))
         (starsRef s) stars
    /\ only_drawn w w1
    /\ (connections = connectionsRef s
        \/ exists c, connections = connectionsRef s ++ [c]
                     /\ spawned w1 stars c)
    /\ starsRef s' = map twinkle stars
    /\ connectionsRef s' = survivors stars connections
    /\ canvasRef s' = canvasRef s
    /\ containerRef s' = containerRef s
    /\ mouseRef s' = mouseRef s
    /\ zoomRef s' = zoomRef s + (targetZoomRef s - zoomRef s) * 0.1
    /\ targetZoomRef s' = targetZoomRef s
    /\ lastTouchDistRef s' = lastTouchDistRef s
    /\ rotationRef s' = rotationRef s + 0.002
    /\ planetNoise s' = planetNoise s
    /\ requestRef s' = nextHandle w
    /\ entropy w' = entropy w
    /\ frames w' = frames w ++ [nextHandle w]
    /\ nextHandle w' = (nextHandle w + 1)%Z.

(** The three invariants of the scene. *)
Definition connections_ok (s : Scene) : Prop :=
  Forall (ends_exist (starsRef s)) (connectionsRef s).

Definition targetZoom_ok (s : Scene) : Prop :=
  0.5 <= targetZoomRef s /\ targetZoomRef s <= 5.0.

Definition depths_ok (s : Scene) : Prop :=
  Forall (fun st => 0.2 <= Star.z st /\ Star.z st <= 4.0) (starsRef s).

(** A scene whose canvas or container is missing has no stars and no
    connections: nothing has ever sized it. *)
Definition unmounted (s : Scene) : Prop :=
  canvasRef s = None \/ containerRef s = None.

Definition idle_ok (s : Scene) : Prop :=
  unmounted s -> starsRef s = [] /\ connectionsRef s = [].

(** One frame as one star sees it: the drift, then the twinkle. *)
Definition star_frame (e : nat -> Q) (w h : Q) (star star' : Star.t) : Prop :=
  exists star1, drifted e w h star star1 /\ star' = twinkle star1.

(** Any number of frames later. *)
Inductive later_frames (e : nat -> Q) (w h : Q) (star : Star.t)
    : Star.t -> Prop :=
| later_now : later_frames e w h star star
| later_next star' star'' :
    later_frames e w h star star' ->
    star_frame e w h star' star'' ->
    later_frames e w h star star''.

(** A star whose opacity is caught below the lower bound of the twinkle:
    it is 0, or one step [m] of the twinkle away from 0 and about to return. *)
Definition dark (m : Q) (star : Star.t) : Prop :=
  (Star.opacity star == 0
   /\ (Star.twinkleSpeed star == m \/ Star.twinkleSpeed star == - m))
  \/ (Star.opacity star == m /\ Star.twinkleSpeed star == - m)
  \/ (Star.opacity star == - m /\ Star.twinkleSpeed star == m).

(** ** Sample inputs *)

(** Rational stand-ins for [Math.sin], [Math.cos] and [Math.hypot]. *)
Definition sample_sin (t : Q) : Q := 0.
Definition sample_cos (t : Q) : Q := 1.
Definition sample_hypot (a b : Q) : Q := Qabs a + Qabs b.

(** A browser in which [Math.random()] returns 0 first and 0.5 ever after. *)
Definition zero_first_world : World :=
  {| entropy := fun n => match n with O => 0 | _ => 0.5 end;
     drawn := 0; frames := []; nextHandle := 1; strokes := [] |}.

(** A browser in which [Math.random()] returns 0.01, then 0, then 0.5 ever
    after: a spawn attempt is made, it starts at star 0 and every candidate
    is the middle star of the array. *)
Definition sample_world : World :=
  {| entropy := fun n => match n with O => 0.01 | 1%nat => 0 | _ => 0.5 end;
     drawn := 0; frames := []; nextHandle := 1; strokes := [] |}.

Definition sample_star (x y z opacity twinkleSpeed : Q) : Star.t :=
  {| Star.x := x; Star.y := y; Star.z := z;
     Star.size := 1; Star.baseOpacity := 0.5;
     Star.opacity := opacity; Star.twinkleSpeed := twinkleSpeed;
     Star.clusterNodes := None |}.

(** Two stars of the middle field, ten units apart. *)
Definition sample_stars : list Star.t :=
  [ sample_star 0 0 1 0.5 0.01; sample_star 10 0 1.2 0.6 (-0.004) ].

(** A star at the near plane, about to be recycled. *)
Definition near_star : Star.t := sample_star 30 40 0.201 0.7 0.01.

(** What the drift makes of [near_star] on a 1000 x 800 canvas when
    [Math.random()] returns 0.5 twice. *)
Definition recycled_star : Star.t :=
  sample_star ((0.5 - 0.5) * 1000 * (1.5 * 4.0))
              ((0.5 - 0.5) * 800 * (1.5 * 4.0)) 4.0 0 0.01.

(** A connection whose end star does not exist. *)
Definition stale_connection : Connection.t :=
  {| Connection.startIdx := 0; Connection.endIdx := 7;
     Connection.life := 0.5; Connection.state := holding;
     Connection.maxLife := 0.8 |}.

Definition sample_connection : Connection.t :=
  {| Connection.startIdx := 0; Connection.endIdx := 1;
     Connection.life := 0; Connection.state := growing;
     Connection.maxLife := 0.8 |}.

Definition sample_canvas : Canvas :=
  {| width := 300; height := 150; context2d := true |}.

(** A canvas for which [getContext('2d')] returns [null]. *)
Definition blind_canvas : Canvas :=
  {| width := 300; height := 150; context2d := false |}.

Definition sample_container : Container :=
  {| clientWidth := 1000; clientHeight := 800 |}.

(** The camera of a first frame, at time 0, on a 1000 x 800 canvas: zoom 1,
    the pointer at the centre, the bob [(12 sin 0, 12 cos 0)]. *)
Definition sample_view : View :=
  {| zoom := 1; cx := 500; cy := 400; offsetX := 0; offsetY := 12;
     canvasWidth := 1000; canvasHeight := 800 |}.

(** Three stars on a line: seen from the first, the second is nearer by the
    stored coordinates (100 against 110) and the third is nearer on the
    screen, being deeper. *)
Definition crossing_stars : list Star.t :=
  [ sample_star 0 0 1 0.5 0.01;
    sample_star 100 0 0.6 0.5 0.01;
    sample_star 110 0 1.4 0.5 0.01 ].

(** A browser in which [Math.random()] returns 0.01 (the attempt is made),
    0 (it starts at star 0), 0.4 (the first candidate is star 1), 0 (the
    second is the start star itself) and 0.7 ever after (the other
    candidates are star 2). *)
Definition crossing_world : World :=
  {| entropy := fun n => match n with
                         | O => 0.01 | 1%nat => 0 | 2%nat => 0.4 | 3%nat => 0
                         | _ => 0.7
                         end;
     drawn := 0; frames := []; nextHandle := 1; strokes := [] |}.

(** A scene in the middle of a pinch, the fingers 100 apart. *)
Definition pinching_scene : Scene :=
  {| canvasRef := Some sample_canvas; containerRef := Some sample_container;
     starsRef := sample_stars; connectionsRef := [];
     requestRef := 1%Z; mouseRef := (0, 0);
     lookAtRef := (0, 0); zoomRef := 1;
     targetZoomRef := 1;
     lastTouchDistRef := Some 100;
     rotationRef := 0; planetNoise := [] |}.

(** * More of the component

    The rest of [PlanetCanvas.tsx] and the statistics of [HeroContent]: what
    the frame paints for the stars and for the planet, the clean-up of the
    effect, and the vocabulary of their properties. *)

(** ** Painting the stars (the second [stars.forEach], after the twinkle) *)

Inductive Paint :=
| Rgba (r g b : Z) (a : Q)   (* fillStyle = 'rgba(r, g, b, a)' *)
| Halo (a : Q).              (* a white radial gradient, [a] at the centre,
                                0 at the rim *)

(** [ctx.arc(x, y, radius, 0, 2 PI)] filled with a paint. *)
Record Disc := {
  discX : Q;
  discY : Q;
  discRadius : Q;
  discPaint : Paint
}.

(** [depthIntensity], [nearFade] and [alpha] of the star loop. *)
Definition depthIntensity (star : Star.t) : Q :=
  Qmin 1 (1.5 / (Star.z star * Star.z star)).

Definition nearFade (star : Star.t) : Q :=
  Qmin 1 (Qmax 0 ((Star.z star - 0.2) * 5)).

Definition starAlpha (star : Star.t) : Q :=
  Qmax 0 (Qmin 1 (Star.opacity star * Star.baseOpacity star
                  * depthIntensity star * nearFade star)).

(** The callback of [star.clusterNodes.forEach]. *)
Definition drawNode (v : View) (star : Star.t) (scale : Q)
    (node : ClusterNode.t) : Disc :=
  let nx := cx v + (Star.x star + ClusterNode.dx node + offsetX v) * scale in
  let ny := cy v + (Star.y star + ClusterNode.dy node + offsetY v) * scale in
  let nSize := ClusterNode.size node * scale * 0.8 in
  let nOpacity := Star.opacity star + ClusterNode.opacityOffset node in
  let nOpacity := if Qltb 1 nOpacity then nOpacity - 1 else nOpacity in
  let nAlpha := Qmax 0 (Qmin 1 (nOpacity * Star.baseOpacity star
                                * depthIntensity star * nearFade star)) in
  {| discX := nx; discY := ny; discRadius := Qmax 0.3 nSize;
     discPaint := Rgba 255 255 255 nAlpha |}.

(** What the star loop paints for one star, after its twinkle: nothing off
    the screen; else the halo, if any, the star and its cluster nodes. *)
Definition drawStar (v : View) (star : Star.t) : list Disc :=
  let scale := zoom v / Star.z star in
  let x := cx v + (Star.x star + offsetX v) * scale in
  let y := cy v + (Star.y star + offsetY v) * scale in
  if Qltb x (-50) || Qltb (canvasWidth v + 50) x
     || Qltb y (-50) || Qltb (canvasHeight v + 50) y
  then []
  else
    let renderSize := Star.size star * scale * 0.8 in
    let renderSize := Qmax 0.5 renderSize in
    let alpha := starAlpha star in
    let colorString :=
      if Qltb 2.5 (Star.z star) then Rgba 100 130 200 (alpha * 0.6)
      else if Qltb 1.2 (Star.z star) then Rgba 180 210 255 (alpha * 0.8)
      else Rgba 255 255 255 alpha in
    (if Qltb 0.8 (depthIntensity star) && Qltb 1.0 (zoom v)
        && Qltb 0.8 (nearFade star)
     then
       let glowSize := renderSize * (4 + zoom v * 0.5) in
       [ {| discX := x; discY := y; discRadius := glowSize;
            discPaint := Halo (alpha * 0.3) |} ]
     else [])
    ++ [ {| discX := x; discY := y; discRadius := renderSize;
            discPaint := colorString |} ]
    ++ match Star.clusterNodes star with
       | Some nodes => map (drawNode v star scale) nodes
       | None => []
       end.

(** ** The clean-up of the effect *)

Fixpoint removeHandle (h : Z) (l : list Z) : list Z :=
  match l with
  | [] => []
  | h' :: l' => if (h' =? h)%Z then removeHandle h l' else h' :: removeHandle h l'
  end.

(** [cancelAnimationFrame(handle)]: the callback of that handle, if it is
    pending, will not run. *)
Definition cancelAnimationFrame (handle : Z) : M unit :=
  fun w => Ok tt
              {| entropy := entropy w; drawn := drawn w;
                 frames := removeHandle handle (frames w);
                 nextHandle := nextHandle w;
                 strokes := strokes w |}.

(** The function the effect returns: the listeners are removed (no event
    reaches the component any more) and the frame of [requestRef] is
    cancelled. *)
Definition cleanup (s : Scene) : M unit :=
  cancelAnimationFrame (requestRef s).

(** ** The statistics of [HeroContent] *)

Module HeroContent.

Record Stats := {
  lat : Q;
  lng : Q;
  nodes : Q;
  load : Q
}.

(** The state [useState] starts with. *)
Definition initialStats : Stats :=
  {| lat := 34.0522; lng := 118.2437; nodes := 8492; load := 42 |}.

(** The updater the interval passes to [setStats], once a second. *)
Definition updateStats (prev : Stats) : M Stats :=
  r1 <- random ;; r2 <- random ;; r3 <- random ;; r4 <- random ;;
  ret {| lat := lat prev + (r1 * 0.002 - 0.001);
         lng := lng prev + (r2 * 0.002 - 0.001);
         nodes := Qmax 8000
                    (Qmin 9000 (nodes prev + inject_Z (Qfloor (r3 * 20 - 10))));
         load := Qmax 30
                   (Qmin 65 (load prev + inject_Z (Qfloor (r4 * 5 - 2)))) |}.

(** [n] ticks of the interval. *)
Fixpoint ticks (n : nat) (stats : Stats) : M Stats :=
  match n with
  | O => ret stats
  | S n' => stats' <- updateStats stats ;; ticks n' stats'
  end.

End HeroContent.

(** ** Painting the planet, over the real numbers *)

Module PlanetDraw.
Import Planet.
Local Open Scope R_scope.

Definition planetZ : R := 1.6.

(** [hoverRadius], from the smaller side of the canvas. *)
Definition hoverRadius (minDim : R) : R := Rmax 100 (Rmin 250 (minDim * 0.2)).

(** The camera values the planet loop reads. *)
Record Camera := {
  zoom : R;
  cx : R;
  cy : R;
  offsetX : R;
  offsetY : R;
  mouseX : R;
  mouseY : R;
  rotation : R
}.

(** One dot of the planet: where, how large, how opaque, and whether it is
    painted in the bright colour of the hover. *)
Record Dot := {
  dotX : R;
  dotY : R;
  dotRadius : R;
  dotAlpha : R;
  dotBright : bool
}.

(** [scale] of the planet loop for a rotated depth [rotZ]. *)
Definition scaleAt (c : Camera) (rotZ : R) : R :=
  zoom c / (planetZ + rotZ * 0.001).

(** The callback of [planetPointsRef.current.forEach]. *)
Definition drawPoint (c : Camera) (hoverRadius : R) (p : PlanetPoint) : Dot :=
  let '(rotX, rotY, rotZ) := rotate (rotation c) p in
  let scale := scaleAt c rotZ in
  let x := cx c + (rotX + offsetX c) * scale in
  let y := cy c + (rotY + offsetY c) * scale in
  let isBack := if Rlt_dec 0 rotZ then true else false in
  let baseAlpha := if isBack then 0.15 else 0.85 in
  let noiseMod := 0.7 + noise p * 0.6 in
  let finalAlpha := baseAlpha * noiseMod in
  let dotSize := (if isBack then 0.9 else 1.3) * scale * 0.8 in
  let dx := x - mouseX c in
  let dy := y - mouseY c in
  let dist := sqrt (dx * dx + dy * dy) in
  if Rlt_dec dist hoverRadius then
    let intensity := (1 - dist / hoverRadius) ^ 2 in
    {| dotX := x; dotY := y;
       dotRadius := Rmax 0.5 (dotSize + intensity * 1.5);
       dotAlpha := Rmin 1 (finalAlpha + intensity * 0.6);
       dotBright := if Rlt_dec 0.5 intensity then true else false |}
  else
    {| dotX := x; dotY := y;
       dotRadius := Rmax 0.5 dotSize;
       dotAlpha := finalAlpha;
       dotBright := false |}.

(** The atmosphere glow: its centre, the radius where its gradient starts
    and its outer radius; nothing when the planet has no visible radius. *)
Definition drawGlow (c : Camera) (minDim : R) : option (R * R * R * R) :=
  let planetPhysicalRadius := minDim * 0.30 in
  let scaleAtCenter := zoom c / planetZ in
  let visualRadius := planetPhysicalRadius * scaleAtCenter in
  if Rlt_dec 0 visualRadius then
    let glowSize := visualRadius * 1.3 in
    let glowX := cx c + offsetX c * scaleAtCenter in
    let glowY := cy c + offsetY c * scaleAtCenter in
    Some (glowX, glowY, visualRadius * 0.9, glowSize)
  else None.

End PlanetDraw.

(** ** Vocabulary of the further properties *)

(** What [initStars] promises of a cluster node. *)
Definition node_generated (node : ClusterNode.t) : Prop :=
  (-20 <= ClusterNode.dx node /\ ClusterNode.dx node < 20)
  /\ (-20 <= ClusterNode.dy node /\ ClusterNode.dy node < 20)
  /\ (0.3 <= ClusterNode.size node /\ ClusterNode.size node < 1.1)
  /\ (0 <= ClusterNode.opacityOffset node /\ ClusterNode.opacityOffset node < 1).

(** What [initStars] promises of a star on a [W] x [H] surface. *)
Definition generated (W H : Q) (star : Star.t) : Prop :=
  (0.2 <= Star.z star /\ Star.z star < 4.0)
  /\ (exists rx ry,
        (0 <= rx /\ rx < 1) /\ (0 <= ry /\ ry < 1)
        /\ Star.x star = (rx - 0.5) * W * (1.5 * Star.z star)
        /\ Star.y star = (ry - 0.5) * H * (1.5 * Star.z star))
  /\ (0.5 <= Star.size star /\ Star.size star < 2.0)
  /\ (0.3 <= Star.baseOpacity star /\ Star.baseOpacity star < 0.8)
  /\ (0 <= Star.opacity star /\ Star.opacity star < 1)
  /\ (0.002 <= Qabs (Star.twinkleSpeed star)
      /\ Qabs (Star.twinkleSpeed star) < 0.012)
  /\ match Star.clusterNodes star with
     | None => True
     | Some nodes =>
       (3 <= length nodes <= 5)%nat /\ Forall node_generated nodes
     end.

(** What [handleResize] makes of a scene whose canvas and container exist:
    the canvas takes the size of the container, the pointer goes to the
    centre, the stars and the noise of the planet are new, the connections
    are gone, and the camera and the pending frame stay as they are. *)
Definition resized (s : Scene) (w : World) (s' : Scene) (w' : World) : Prop :=
  exists canvas container stars noise,
    canvasRef s = Some canvas
    /\ containerRef s = Some container
    /\ s' = {| canvasRef :=
                 Some {| width := inject_Z (clientWidth container);
                         height := inject_Z (clientHeight container);
                         context2d := context2d canvas |};
               containerRef := containerRef s;
               starsRef := stars;
               connectionsRef := [];
               requestRef := requestRef s;
               mouseRef := (inject_Z (clientWidth container) / 2,
                            inject_Z (clientHeight container) / 2);
               lookAtRef := lookAtRef s;
               zoomRef := zoomRef s;
               targetZoomRef := targetZoomRef s;
               lastTouchDistRef := lastTouchDistRef s;
               rotationRef := rotationRef s;
               planetNoise := noise |}
    /\ Z.of_nat (length stars)
       = spec_starCount (inject_Z (clientWidth container))
           (inject_Z (clientHeight container))
    /\ length noise = numPoints
    /\ (unit_interval w ->
        Forall (generated (inject_Z (clientWidth container))
                  (inject_Z (clientHeight container))) stars)
    /\ only_drawn w w'.

(** The world after the browser has taken the oldest pending frame. *)
Definition frame_taken (w : World) : World :=
  {| entropy := entropy w; drawn := drawn w; frames := tl (frames w);
     nextHandle := nextHandle w; strokes := strokes w |}.

(** The container after the browser has given it the size of a resize. *)
Definition resize_container (s : Scene) (cw ch : Z) : Scene :=
  set_container s
    (match containerRef s with
     | Some _ => Some {| clientWidth := cw; clientHeight := ch |}
     | None => None
     end).

(** The centre of the view on a canvas: the middle, moved up by a tenth of
    the height on a portrait canvas. *)
Definition viewCentre (canvas : Canvas) : Q * Q :=
  (width canvas / 2,
   height canvas / 2
   - (if Qltb (width canvas) (height canvas) then height canvas * 0.1 else 0)).

(** Where the parallax is heading: a twentieth of the offset of the pointer
    from the centre of the view. *)
Definition lookTarget (s : Scene) (canvas : Canvas) : Q * Q :=
  ((fst (mouseRef s) - fst (viewCentre canvas)) * 0.05,
   (snd (mouseRef s) - snd (viewCentre canvas)) * 0.05).

(** The look-at point after a frame that finds its surface. *)
Definition lookAt_after (s : Scene) : Q * Q :=
  match canvasRef s with
  | Some canvas =>
    (fst (lookAtRef s)
     + (fst (lookTarget s canvas) - fst (lookAtRef s)) * 0.05,
     snd (lookAtRef s)
     + (snd (lookTarget s canvas) - snd (lookAtRef s)) * 0.05)
  | None => lookAtRef s
  end.

Section Steps.

Variable Math_hypot : Q -> Q -> Q.

(** What an event makes of the scene and the browser, case by case. *)
Inductive stepped : Event -> Scene -> World -> Scene -> World -> Prop :=
| step_resize_unmounted cw ch s w :
    unmounted s ->
    stepped (Resize cw ch) s w (resize_container s cw ch) w
| step_resize cw ch s w s' w' :
    resized (resize_container s cw ch) w s' w' ->
    stepped (Resize cw ch) s w s' w'
| step_mouse x y s w :
    stepped (MouseMove x y) s w (handleMouseMove x y s) w
| step_wheel deltaY s w :
    stepped (Wheel deltaY) s w (handleWheel deltaY s) w
| step_touch_start touches s w :
    stepped (TouchStart touches) s w (handleTouchStart Math_hypot touches s) w
| step_touch_move touches s w :
    stepped (TouchMove touches) s w (handleTouchMove Math_hypot touches s) w
| step_touch_end s w :
    stepped TouchEnd s w (handleTouchEnd s) w
| step_no_frame time s w :
    frames w = [] ->
    stepped (AnimationFrame time) s w s w
| step_abort time s w :
    frames w <> [] ->
    surface_available s = false ->
    stepped (AnimationFrame time) s w s (frame_taken w)
| step_render time s w s' w' :
    frames w <> [] ->
    surface_available s = true ->
    rendered (frame_taken w) s s' w' ->
    lookAtRef s' = lookAt_after s ->
    stepped (AnimationFrame time) s w s' w'.

End Steps.

(** The scene with another handle in [requestRef]. *)
Definition set_request (s : Scene) (handle : Z) : Scene :=
  {| canvasRef := canvasRef s; containerRef := containerRef s;
     starsRef := starsRef s; connectionsRef := connectionsRef s;
     requestRef := handle; mouseRef := mouseRef s;
     lookAtRef := lookAtRef s; zoomRef := zoomRef s;
     targetZoomRef := targetZoomRef s;
     lastTouchDistRef := lastTouchDistRef s;
     rotationRef := rotationRef s; planetNoise := planetNoise s |}.

(** What the effect leaves behind: the initial scene, sized if its canvas and
    container exist, and the first animation frame requested. *)
Definition mounted (canvas : option Canvas) (container : option Container)
    (w : World) (s : Scene) (w' : World) : Prop :=
  exists s1 w1,
    ((unmounted (initialScene canvas container)
      /\ s1 = initialScene canvas container /\ w1 = w)
     \/ resized (initialScene canvas container) w s1 w1)
    /\ s = set_request s1 (nextHandle w)
    /\ entropy w' = entropy w
    /\ frames w' = frames w ++ [nextHandle w]
    /\ nextHandle w' = (nextHandle w + 1)%Z
    /\ strokes w' = strokes w.

(** The current zoom is in the range of the target zoom. *)
Definition zoom_ok (s : Scene) : Prop :=
  0.5 <= zoomRef s /\ zoomRef s <= 5.0.

(** At most the frame of [requestRef] is pending. *)
Definition frame_loop_ok (s : Scene) (w : World) : Prop :=
  frames w = [] \/ frames w = [requestRef s].

(** The frame loop is running: the surface is there and the frame of
    [requestRef], and no other, is pending. *)
Definition frame_loop_alive (s : Scene) (w : World) : Prop :=
  surface_available s = true /\ frames w = [requestRef s].

(** ** How long a connection lasts *)

(** An upper bound of the frames a holding connection has left: at most
    200 frames per unit of life above 0.8 [maxLife], then 200/3 frames per
    unit of life in the fading. *)
Definition holdingLeft (life maxLife : Q) : Q :=
  1 + Qmax (life * (200 # 3))
        ((life - maxLife * 0.8) * 200 + maxLife * 0.8 * (200 # 3)).

(** An upper bound of the frames a connection has left. *)
Definition framesLeft (c : Connection.t) : Q :=
  match Connection.state c with
  | growing =>
    Qmax 0 (Connection.maxLife c - Connection.life c) * 25 + 1
    + holdingLeft (Qmax (Connection.life c) (Connection.maxLife c) + 0.04)
        (Connection.maxLife c)
  | holding => holdingLeft (Connection.life c) (Connection.maxLife c)
  | fading => Connection.life c * (200 # 3)
  end.

(** A lower bound of the frames a connection has left. *)
Definition framesAhead (c : Connection.t) : Q :=
  match Connection.state c with
  | growing =>
    (Connection.maxLife c - Connection.life c) * 25
    + Connection.maxLife c * 0.2 * 200
    + Connection.maxLife c * 0.8 * (200 # 3)
  | holding =>
    (Connection.life c - Connection.maxLife c * 0.8) * 200
    + Connection.maxLife c * 0.8 * (200 # 3)
  | fading => Connection.life c * (200 # 3)
  end.

(** What the life cycle keeps true of a connection that a spawn attempt has
    created. *)
Definition in_cycle (c : Connection.t) : Prop :=
  (0.6 <= Connection.maxLife c /\ Connection.maxLife c <= 1)
  /\ Connection.life c < Connection.maxLife c + 0.04
  /\ match Connection.state c with
     | growing =>
       0 <= Connection.life c /\ Connection.life c < Connection.maxLife c
     | holding => Connection.maxLife c * 0.8 <= Connection.life c
     | fading => True
     end.

(** The connections of a list are the older the nearer they are to its
    head: each has at most [b] frames left, less one for every connection
    behind it. *)
Fixpoint aged (b : Q) (l : list Connection.t) : Prop :=
  match l with
  | [] => True
  | c :: rest =>
    framesLeft c <= b - inject_Z (Z.of_nat (length rest)) /\ aged b rest
  end.

(** The invariant of the connection list. *)
Definition connections_fresh (s : Scene) (w : World) : Prop :=
  unit_interval w
  /\ aged 128 (connectionsRef s)
  /\ Forall (fun c => 0 < Connection.life c /\ in_cycle c) (connectionsRef s)
  /\ Forall (fun c => Connection.endIdx c <> Connection.startIdx c)
       (connectionsRef s).

(** The events that come from the window being resized. *)
Definition is_resize (e : Event) : bool :=
  match e with
  | Resize _ _ => true
  | _ => false
  end.

(** ** Vocabulary of the star loop *)

(** The opacity a paint carries. *)
Definition paintAlpha (p : Paint) : Q :=
  match p with
  | Rgba _ _ _ a => a
  | Halo a => a
  end.

Definition is_halo (d : Disc) : bool :=
  match discPaint d with
  | Halo _ => true
  | Rgba _ _ _ _ => false
  end.

(** A screen point inside the 50 pixel margin the loops paint in. *)
Definition on_screen (v : View) (p : Q * Q) : Prop :=
  (-50 <= fst p /\ fst p <= canvasWidth v + 50)
  /\ (-50 <= snd p /\ snd p <= canvasHeight v + 50).

(** What holds of every star of the scene between two events: the ranges
    [initStars] gives it, a depth between the near plane and 4.0, and an
    opacity that the twinkle keeps within one step of [[0, 1]], heading back
    whenever it is outside. *)
Definition star_ok (star : Star.t) : Prop :=
  (0.2 <= Star.z star /\ Star.z star <= 4.0)
  /\ (0.5 <= Star.size star /\ Star.size star < 2.0)
  /\ (0.3 <= Star.baseOpacity star /\ Star.baseOpacity star < 0.8)
  /\ (0.002 <= Qabs (Star.twinkleSpeed star)
      /\ Qabs (Star.twinkleSpeed star) < 0.012)
  /\ (- Qabs (Star.twinkleSpeed star) <= Star.opacity star
      /\ Star.opacity star <= 1 + Qabs (Star.twinkleSpeed star))
  /\ (1 < Star.opacity star -> Star.twinkleSpeed star < 0)
  /\ (Star.opacity star < 0 -> 0 < Star.twinkleSpeed star)
  /\ match Star.clusterNodes star with
     | None => True
     | Some nodes =>
       (3 <= length nodes <= 5)%nat /\ Forall node_generated nodes
     end.

Definition stars_ok (s : Scene) (w : World) : Prop :=
  unit_interval w /\ Forall star_ok (starsRef s).

(** A star whose projection is within three quarters of a [W] x [H] surface,
    times the zoom, of the centre of the view. *)
Definition in_frustum (W H : Q) (v : View) (star : Star.t) : Prop :=
  (cx v - 0.75 * W * zoom v <= fst (project v star)
   /\ fst (project v star) <= cx v + 0.75 * W * zoom v)
  /\ (cy v - 0.75 * H * zoom v <= snd (project v star)
      /\ snd (project v star) <= cy v + 0.75 * H * zoom v).

(** ** Vocabulary of the pinch *)

Section Pinch.

Variable Math_hypot : Q -> Q -> Q.



End Pinch.

(** ** Vocabulary of the strokes *)

(** What the loop over the connections paints for a connection it keeps:
    nothing when the start star is outside the margin of the screen, else
    one line between the projections of the two stars. *)
Definition stroke_of (v : View) (stars : list Star.t) (c : Connection.t)
    : list Stroke :=
  match lookup stars (Connection.startIdx c),
        lookup stars (Connection.endIdx c) with
  | Some s1, Some s2 =>
    let p1 := project v s1 in
    let p2 := project v s2 in
    if Qltb (fst p1) (-50) || Qltb (canvasWidth v + 50) (fst p1)
       || Qltb (snd p1) (-50) || Qltb (canvasHeight v + 50) (snd p1)
    then []
    else [ {| x1 := fst p1; y1 := snd p1; x2 := fst p2; y2 := snd p2;
              lineWidth := (0.5 + Connection.life c * 1.5) * (zoom v * 0.5);
              alpha := Connection.life c * 0.6 |} ]
  | _, _ => []
  end.

(** ** Further sample inputs *)

(** A frame, a wheel turn, a pointer move, a pinch, a resize and a frame. *)
Definition sample_events : list Event :=
  [ AnimationFrame 16; Wheel (-100); MouseMove 10 20;
    TouchStart [(0, 0); (100, 0)]; TouchMove [(0, 0); (150, 0)]; TouchEnd;
    Resize 800 600; AnimationFrame 32 ].

(** The same without the resize. *)
Definition quiet_events : list Event :=
  [ AnimationFrame 16; Wheel (-100); MouseMove 10 20; AnimationFrame 32 ].

(** A browser with the first frame of the component pending. *)
Definition running_world : World :=
  {| entropy := fun _ => 0.5; drawn := 0; frames := [0%Z]; nextHandle := 1;
     strokes := [] |}.

(** The camera at rest on a 1000 x 800 canvas, and zoomed in twice. *)
Definition rest_view : View :=
  {| zoom := 1; cx := 500; cy := 400; offsetX := 0; offsetY := 0;
     canvasWidth := 1000; canvasHeight := 800 |}.

Definition zoomed_view : View :=
  {| zoom := 2; cx := 500; cy := 400; offsetX := 0; offsetY := 0;
     canvasWidth := 1000; canvasHeight := 800 |}.



(** The camera of the planet at rest on a 1000 x 800 canvas, the pointer at
    the centre. *)
Definition rest_camera : PlanetDraw.Camera :=
  {| PlanetDraw.zoom := 1%R; PlanetDraw.cx := 500%R; PlanetDraw.cy := 400%R;
     PlanetDraw.offsetX := 0%R; PlanetDraw.offsetY := 0%R;
     PlanetDraw.mouseX := 500%R; PlanetDraw.mouseY := 400%R;
     PlanetDraw.rotation := 1%R |}.

(** The first point of the planet of a 1000 x 800 canvas. *)
Definition first_point : Planet.PlanetPoint :=
  Planet.newPoint (Rmin 1000 800 * 0.30)%R 0 0%R.

(** * Properties *)

(** ** Comparisons *)

Lemma Qltb_lt (a b : Q) : Qltb a b = true <-> a < b.
Proof.
  unfold Qltb. rewrite negb_true_iff, <- not_true_iff_false, Qle_bool_iff.
  split; intro H; [apply Qnot_le_lt | apply Qlt_not_le]; exact H.
Qed.

Lemma Qltb_ge (a b : Q) : Qltb a b = false <-> b <= a.
Proof.
  unfold Qltb. rewrite negb_false_iff. apply Qle_bool_iff.
Qed.

Lemma Qle_bool_gt (a b : Q) : Qle_bool a b = false <-> b < a.
Proof.
  rewrite <- not_true_iff_false, Qle_bool_iff.
  split; intro H; [apply Qnot_le_lt | apply Qlt_not_le]; exact H.
Qed.

(** ** Rules for [hoare] *)

Lemma hoare_ret {A} (P : World -> Prop) (Q' : A -> World -> Prop) (a : A) :
  (forall w, P w -> Q' a w) -> hoare P (ret a) Q'.
Proof. intros H w Hw. exists a, w. split; [reflexivity | auto]. Qed.

Lemma hoare_bind {A B} (P : World -> Prop) (c : M A) (R' : A -> World -> Prop)
    (k : A -> M B) (Q' : B -> World -> Prop) :
  hoare P c R' -> (forall a, hoare (R' a) (k a) Q') -> hoare P (bind c k) Q'.
Proof.
  intros Hc Hk w Hw. destruct (Hc w Hw) as (a & w1 & E & Ha).
  destruct (Hk a w1 Ha) as (b & w2 & E2 & Hb).
  exists b, w2. unfold bind. rewrite E. auto.
Qed.

Lemma hoare_weaken {A} (P P' : World -> Prop) (c : M A)
    (Q' Q'' : A -> World -> Prop) :
  hoare P' c Q' -> (forall w, P w -> P' w) ->
  (forall a w, Q' a w -> Q'' a w) -> hoare P c Q''.
Proof.
  intros H HP HQ w Hw. destruct (H w (HP w Hw)) as (a & w' & E & Ha).
  exists a, w'. auto.
Qed.

Lemma hoare_random_any (I : World -> Prop) :
  (forall w d, I w ->
     I {| entropy := entropy w; drawn := d; frames := frames w;
          nextHandle := nextHandle w; strokes := strokes w |}) ->
  hoare I random (fun _ w => I w).
Proof.
  intros HI w Hw. eexists _, _. split; [reflexivity | apply HI, Hw].
Qed.

Lemma hoare_repeatM {A} (I : World -> Prop) (body : M A) (P : A -> Prop) n :
  hoare I body (fun a w => P a /\ I w) ->
  hoare I (repeatM n body) (fun l w => length l = n /\ Forall P l /\ I w).
Proof.
  intros Hb. induction n as [|n IH]; simpl.
  - apply hoare_ret. auto.
  - eapply hoare_bind; [exact Hb |]. intros a. simpl.
    intros w [Pa Iw]. destruct (IH w Iw) as (l & w' & E & Hl & HP & Iw').
    exists (a :: l), w'. unfold bind, ret. rewrite E. simpl. auto.
Qed.

(** ** [initStars]: the number of stars *)

Lemma total_random : total random.
Proof. apply (hoare_random_any (fun _ => True)). auto. Qed.

Lemma total_repeatM {A} (body : M A) n :
  total body ->
  hoare (fun _ => True) (repeatM n body) (fun l _ => length l = n).
Proof.
  unfold total. intros Hb.
  eapply hoare_weaken;
    [apply (hoare_repeatM (fun _ => True) body (fun _ => True) n) | auto |].
  - eapply hoare_weaken; [exact Hb | auto | auto].
  - simpl. intros a w (H & _). exact H.
Qed.

Ltac total_step :=
  unfold total;
  repeat first
    [ apply hoare_ret; solve [auto]
    | eapply hoare_bind; [apply total_random | intros ?; simpl] ].

Lemma total_newClusterNode : total newClusterNode.
Proof. unfold newClusterNode. total_step. Qed.

Lemma total_newStar (width height : Q) : total (newStar width height).
Proof.
  unfold newStar. total_step.
  eapply hoare_bind with (R' := fun _ _ => True).
  - match goal with |- context [Qltb ?a ?b] => destruct (Qltb a b) end.
    + total_step.
      eapply hoare_bind with (R' := fun _ _ => True); [| intros; total_step].
      eapply hoare_weaken;
        [apply total_repeatM, total_newClusterNode | auto | auto].
    + total_step.
  - intros nodes. simpl. total_step.
Qed.

Lemma starCount_clamp (W H : Q) : starCount W H = spec_starCount W H.
Proof.
  unfold starCount, spec_starCount, clamp.
  destruct (Z.ltb_spec (Qfloor (W * H / 350)) 600);
    [| destruct (Z.ltb_spec 2500 (Qfloor (W * H / 350)))]; lia.
Qed.

Lemma initStars_length (W H : Q) (s : Scene) (w : World) :
  exists s' w', initStars W H s w = Ok s' w'
    /\ Z.of_nat (length (starsRef s')) = spec_starCount W H.
Proof.
  unfold initStars.
  destruct (total_repeatM (newStar W H) (Z.to_nat (starCount W H))
              (total_newStar W H) w I) as (l & w' & E & Hl).
  exists (set_stars s l), w'. unfold bind, ret. rewrite E. split; [reflexivity |].
  simpl. rewrite Hl, Z2Nat.id, starCount_clamp; [reflexivity |].
  unfold starCount. lia.
Qed.

(** ** The loop over the connections *)

Lemma lookup_Some_iff {A} (arr : list A) (i : Z) :
  truthy (lookup arr i) = true <-> (0 <= i < Z.of_nat (length arr))%Z.
Proof.
  unfold lookup. destruct (Z.ltb_spec i 0) as [Hneg | Hpos]; simpl.
  - split; [discriminate | lia].
  - destruct (nth_error arr (Z.to_nat i)) eqn:E; simpl.
    + assert (Z.to_nat i < length arr)%nat
        by (apply nth_error_Some; congruence).
      split; [lia | reflexivity].
    + apply nth_error_None in E. split; [discriminate | lia].
Qed.

Lemma splice_app {A} (pre : list A) (c : A) (post : list A) :
  splice (length pre) (pre ++ c :: post) = pre ++ post.
Proof. induction pre as [|a pre IH]; simpl; [reflexivity | now rewrite IH]. Qed.

Lemma store_app {A} (pre : list A) (c c' : A) (post : list A) :
  store (length pre) c' (pre ++ c :: post) = pre ++ c' :: post.
Proof. induction pre as [|a pre IH]; simpl; [reflexivity | now rewrite IH]. Qed.

Lemma nth_error_middle {A} (pre : list A) (c : A) (post : list A) :
  nth_error (pre ++ c :: post) (length pre) = Some c.
Proof. induction pre as [|a pre IH]; simpl; [reflexivity | exact IH]. Qed.

Lemma survivors_snoc stars pre c :
  survivors stars (pre ++ [c]) =
  survivors stars pre ++ (if kept stars (stepLife c) then [stepLife c] else []).
Proof.
  unfold survivors. rewrite map_app, filter_app. reflexivity.
Qed.

Lemma same_but_strokes_refl w : same_but_strokes w w.
Proof. repeat split. Qed.

Lemma same_but_strokes_trans w1 w2 w3 :
  same_but_strokes w1 w2 -> same_but_strokes w2 w3 -> same_but_strokes w1 w3.
Proof.
  unfold same_but_strokes. intros (a & b & c & d) (a' & b' & c' & d').
  repeat split; congruence.
Qed.

(** With the first [length pre] entries still to visit, the loop leaves the
    survivors of [pre] followed by the entries already visited. *)
Lemma connectionLoop_suffix v stars pre :
  forall post w, exists w',
    connectionLoop v stars (length pre) (pre ++ post) w
      = Ok (survivors stars pre ++ post) w'
    /\ same_but_strokes w w'.
Proof.
  induction pre as [|c pre IH] using rev_ind; intros post w.
  - exists w. split; [reflexivity | apply same_but_strokes_refl].
  - rewrite length_app, Nat.add_comm. simpl length. simpl plus.
    rewrite <- app_assoc. simpl app.
    cbn [connectionLoop]. unfold bind at 1.
    rewrite nth_error_middle. cbn [field ret].
    rewrite survivors_snoc. unfold kept.
    destruct (Qle_bool (Connection.life (stepLife c)) 0) eqn:Hlife; cbn [negb andb].
    { rewrite splice_app, app_nil_r. apply IH. }
    destruct (lookup stars (Connection.startIdx (stepLife c))) as [s1|] eqn:E1;
      cbn [truthy negb orb andb].
    2:{ rewrite splice_app, app_nil_r. apply IH. }
    destruct (lookup stars (Connection.endIdx (stepLife c))) as [s2|] eqn:E2;
      cbn [truthy negb orb andb].
    2:{ rewrite splice_app, app_nil_r. apply IH. }
    unfold bind, field, ret. cbn beta iota.
    rewrite store_app, <- app_assoc. simpl app.
    match goal with |- context [if ?b then _ else _] => destruct b end.
    + apply IH.
    + unfold stroke.
      match goal with |- context [connectionLoop _ _ _ _ ?w1] =>
        destruct (IH (stepLife c :: post) w1) as (w' & E & Hs) end.
      exists w'. split; [exact E |].
      eapply same_but_strokes_trans; [| exact Hs]. repeat split.
Qed.

(** The loop never throws, whatever the indices of the connections are, and
    leaves exactly the survivors. *)
Lemma connectionLoop_survivors v stars connections w :
  exists w',
    connectionLoop v stars (length connections) connections w
      = Ok (survivors stars connections) w'
    /\ same_but_strokes w w'.
Proof.
  destruct (connectionLoop_suffix v stars connections [] w) as (w' & E & H).
  rewrite !app_nil_r in E. exists w'. auto.
Qed.

(** ** The life cycle of a connection *)

Lemma stepLife_startIdx c :
  Connection.startIdx (stepLife c) = Connection.startIdx c.
Proof. unfold stepLife. destruct (Connection.state c); reflexivity. Qed.

Lemma stepLife_endIdx c :
  Connection.endIdx (stepLife c) = Connection.endIdx c.
Proof. unfold stepLife. destruct (Connection.state c); reflexivity. Qed.

Lemma stepLife_growing c :
  Connection.state c = growing ->
  Connection.life (stepLife c) = Connection.life c + 0.04
  /\ Connection.life c < Connection.life (stepLife c)
  /\ (Connection.state (stepLife c) = holding
      <-> Connection.maxLife c <= Connection.life (stepLife c))
  /\ (Connection.state (stepLife c) = growing
      <-> Connection.life (stepLife c) < Connection.maxLife c).
Proof.
  intros Hs. unfold stepLife. rewrite Hs. cbn.
  split; [reflexivity |]. split; [lra |].
  destruct (Qle_bool (Connection.maxLife c) (Connection.life c + 0.04)) eqn:E.
  - apply Qle_bool_iff in E. repeat split; intros; try discriminate; try lra.
  - apply Qle_bool_gt in E. repeat split; intros; try discriminate; try lra.
Qed.

Lemma stepLife_holding c :
  Connection.state c = holding ->
  Connection.life (stepLife c) = Connection.life c - 0.005
  /\ Connection.life (stepLife c) <= Connection.life c
  /\ (Connection.state (stepLife c) = fading
      <-> Connection.life (stepLife c) < Connection.maxLife c * 0.8)
  /\ (Connection.state (stepLife c) = holding
      <-> Connection.maxLife c * 0.8 <= Connection.life (stepLife c)).
Proof.
  intros Hs. unfold stepLife. rewrite Hs. cbn.
  split; [reflexivity |]. split; [lra |].
  destruct (Qltb (Connection.life c - 0.005) (Connection.maxLife c * 0.8)) eqn:E.
  - apply Qltb_lt in E. repeat split; intros; try discriminate; try lra.
  - apply Qltb_ge in E. repeat split; intros; try discriminate; try lra.
Qed.

Lemma stepLife_fading c :
  Connection.state c = fading ->
  Connection.life (stepLife c) = Connection.life c - 0.015
  /\ Connection.life (stepLife c) < Connection.life c
  /\ Connection.state (stepLife c) = fading.
Proof.
  intros Hs. unfold stepLife. rewrite Hs. cbn.
  split; [reflexivity |]. split; [lra | reflexivity].
Qed.

Lemma stepLife_rank c :
  (rank (Connection.state c) <= rank (Connection.state (stepLife c))
   <= S (rank (Connection.state c)))%nat.
Proof.
  unfold stepLife. destruct (Connection.state c); cbn.
  - destruct (Qle_bool _ _); simpl; lia.
  - destruct (Qltb _ _); simpl; lia.
  - lia.
Qed.

Lemma iter_stepLife_rank c n m :
  (n <= m)%nat ->
  (rank (Connection.state (iter n stepLife c))
   <= rank (Connection.state (iter m stepLife c)))%nat.
Proof.
  induction 1 as [|m Hle IH]; [lia |].
  simpl. pose proof (stepLife_rank (iter m stepLife c)). lia.
Qed.

Lemma kept_when_ends_exist stars c :
  ends_exist stars c ->
  kept stars (stepLife c) = Qltb 0 (Connection.life (stepLife c)).
Proof.
  intros [Hs He]. unfold kept.
  rewrite stepLife_startIdx, stepLife_endIdx.
  rewrite (proj2 (lookup_Some_iff stars _) Hs).
  rewrite (proj2 (lookup_Some_iff stars _) He).
  rewrite !andb_true_r. reflexivity.
Qed.

Lemma survivors_when_ends_exist stars connections :
  Forall (ends_exist stars) connections ->
  survivors stars connections =
  filter (fun c => Qltb 0 (Connection.life c)) (map stepLife connections).
Proof.
  intros H. unfold survivors. induction H as [|c l Hc Hl IH]; [reflexivity |].
  simpl. rewrite IH, (kept_when_ends_exist stars c Hc). reflexivity.
Qed.

(** ** The spawn attempt *)

Lemma qualifiesb_iff stars startIdx start j :
  qualifiesb stars startIdx start j = true <-> qualifies stars startIdx start j.
Proof.
  unfold qualifiesb, qualifies. rewrite andb_true_iff, negb_true_iff, Z.eqb_neq.
  split.
  - intros [Hne H]. split; [exact Hne |].
    destruct (lookup stars j) as [s2|]; [| discriminate].
    apply andb_true_iff in H. destruct H as [H1 H2].
    apply Qltb_lt in H1, H2. exists s2. auto.
  - intros [Hne (s2 & E & H1 & H2)]. split; [exact Hne |].
    rewrite E. apply andb_true_iff. split; apply Qltb_lt; assumption.
Qed.

Lemma candidates_S w stars n :
  candidates w stars (S n) =
  randomIndex (entropy w (drawn w)) stars :: candidates (skip 1 w) stars n.
Proof.
  unfold candidates. cbn [seq map]. rewrite Nat.add_0_r. f_equal.
  rewrite <- seq_shift, map_map. apply map_ext. intros k. simpl.
  rewrite <- Nat.add_assoc. reflexivity.
Qed.

Lemma candidates_length w stars n : length (candidates w stars n) = n.
Proof. unfold candidates. now rewrite length_map, length_seq. Qed.

Lemma skip_skip n m w : skip n (skip m w) = skip (m + n) w.
Proof. unfold skip. simpl. now rewrite Nat.add_assoc. Qed.

Lemma random_skip w : random w = Ok (entropy w (drawn w)) (skip 1 w).
Proof. unfold random, skip. now rewrite Nat.add_1_r. Qed.

(** The search is a fold of [searchStep] over the candidates it draws. *)
Lemma searchTarget_fold stars startIdx start n :
  forall bestDist bestIdx w,
    searchTarget n stars startIdx (Some start) bestDist bestIdx w
    = Ok (fold_left (searchStep stars startIdx start) (candidates w stars n)
            (bestDist, bestIdx))
         (skip n w).
Proof.
  induction n as [|n IH]; intros bestDist bestIdx w.
  - unfold skip. rewrite Nat.add_0_r. destruct w. reflexivity.
  - rewrite candidates_S. cbn [searchTarget fold_left].
    unfold bind at 1. rewrite random_skip.
    replace (skip (S n) w) with (skip n (skip 1 w))
      by (rewrite skip_skip; reflexivity).
    set (j := randomIndex (entropy w (drawn w)) stars).
    unfold searchStep at 2. unfold qualifiesb.
    destruct (Z.eqb_spec j startIdx) as [Heq | Hne].
    + cbn [negb andb]. rewrite IH.
      destruct (lookup stars j); reflexivity.
    + destruct (lookup stars j) as [s2|] eqn:E; cbn [truthy negb andb fst].
      * unfold bind, field, ret. fold (dist2 start s2).
        rewrite <- !andb_assoc.
        rewrite (andb_comm (below _ _) (Qltb (Qabs _) _)).
        destruct (Qltb (dist2 start s2) (50000 * Star.z start)
                  && (Qltb (Qabs (Star.z start - Star.z s2)) 0.5
                      && below (dist2 start s2) bestDist)); apply IH.
      * apply IH.
Qed.

Lemma best_of_step stars startIdx start seen best j :
  best_of stars startIdx start seen best ->
  best_of stars startIdx start (seen ++ [j])
    (searchStep stars startIdx start best j).
Proof.
  intros Hb. unfold searchStep.
  destruct (lookup stars j) as [s2|] eqn:E.
  - destruct (qualifiesb stars startIdx start j) eqn:Hq; cbn [andb].
    + destruct (below (dist2 start s2) (fst best)) eqn:Hbelow.
      * (* the candidate replaces the best one *)
        apply best_some; auto.
        { apply in_or_app. right. left. reflexivity. }
        intros k sk Hk Hkq Ek. apply in_app_or in Hk.
        destruct Hk as [Hk | [<- | []]].
        -- destruct Hb as [Hnone | j0 s0 Hin0 Hq0 E0 Hmin].
           ++ rewrite (Hnone k Hk) in Hkq. discriminate.
           ++ simpl in Hbelow. apply Qltb_lt in Hbelow.
              pose proof (Hmin k sk Hk Hkq Ek). lra.
        -- rewrite E in Ek. injection Ek as <-. lra.
      * (* the best one stays *)
        destruct Hb as [Hnone | j0 s0 Hin0 Hq0 E0 Hmin];
          [simpl in Hbelow; discriminate |].
        simpl in Hbelow. apply Qltb_ge in Hbelow.
        apply best_some; auto.
        { apply in_or_app. left. exact Hin0. }
        intros k sk Hk Hkq Ek. apply in_app_or in Hk.
        destruct Hk as [Hk | [<- | []]]; [eauto |].
        rewrite E in Ek. injection Ek as <-. exact Hbelow.
    + destruct Hb as [Hnone | j0 s0 Hin0 Hq0 E0 Hmin].
      * apply best_none. intros k Hk. apply in_app_or in Hk.
        destruct Hk as [Hk | [<- | []]]; auto.
      * apply best_some; auto.
        { apply in_or_app. left. exact Hin0. }
        intros k sk Hk Hkq Ek. apply in_app_or in Hk.
        destruct Hk as [Hk | [<- | []]]; [eauto | congruence].
  - assert (Hq : qualifiesb stars startIdx start j = false)
      by (unfold qualifiesb; rewrite E; apply andb_false_r).
    destruct Hb as [Hnone | j0 s0 Hin0 Hq0 E0 Hmin].
    + apply best_none. intros k Hk. apply in_app_or in Hk.
      destruct Hk as [Hk | [<- | []]]; auto.
    + apply best_some; auto.
      { apply in_or_app. left. exact Hin0. }
      intros k sk Hk Hkq Ek. apply in_app_or in Hk.
      destruct Hk as [Hk | [<- | []]]; [eauto | congruence].
Qed.

Lemma best_of_fold stars startIdx start l :
  forall seen best,
    best_of stars startIdx start seen best ->
    best_of stars startIdx start (seen ++ l)
      (fold_left (searchStep stars startIdx start) l best).
Proof.
  induction l as [|j l IH]; intros seen best Hb; simpl.
  - rewrite app_nil_r. exact Hb.
  - replace (seen ++ j :: l) with ((seen ++ [j]) ++ l)
      by (rewrite <- app_assoc; reflexivity).
    apply IH, best_of_step, Hb.
Qed.

Lemma lookup_Some_nonneg {A} (arr : list A) (i : Z) (a : A) :
  lookup arr i = Some a -> (0 <= i < Z.of_nat (length arr))%Z.
Proof.
  intros E. apply lookup_Some_iff. rewrite E. reflexivity.
Qed.

(** What a spawn attempt does: it returns, and either leaves the list alone
    or appends one connection chosen as [spawned] says; it leaves the list
    alone when no candidate qualifies. *)
Lemma spawnConnection_spec stars connections w :
  exists connections' w',
    spawnConnection stars connections w = Ok connections' w'
    /\ (connections' = connections
        \/ exists c, connections' = connections ++ [c] /\ spawned w stars c)
    /\ (forall start,
          lookup stars (randomIndex (entropy w (drawn w + 1)) stars) = Some start ->
          (forall j, In j (candidates (skip 2 w) stars 20) ->
             ~ qualifies stars (randomIndex (entropy w (drawn w + 1)) stars) start j) ->
          connections' = connections)
    /\ entropy w' = entropy w /\ frames w' = frames w
    /\ nextHandle w' = nextHandle w /\ strokes w' = strokes w.
Proof.
  unfold spawnConnection.
  destruct (0 <? length stars)%nat;
    [| exists connections, w; unfold ret; repeat split; auto].
  unfold bind at 1. rewrite random_skip.
  destruct (Qltb (entropy w (drawn w)) 0.03) eqn:Hgate;
    [| eexists _, _; unfold ret; repeat split; auto].
  apply Qltb_lt in Hgate.
  unfold bind at 1. rewrite random_skip, skip_skip.
  replace (drawn (skip 1 w)) with (drawn w + 1)%nat by reflexivity.
  change (entropy (skip 1 w)) with (entropy w).
  set (startIdx := randomIndex (entropy w (drawn w + 1)) stars).
  destruct (lookup stars startIdx) as [start|] eqn:Estart; cbn [truthy];
    [| eexists _, _; unfold ret; split; [reflexivity |];
       split; [left; reflexivity |]; split; [discriminate | repeat split]].
  unfold bind at 1. cbn [field ret].
  destruct (Qltb (Star.z start) 3.0 && Qltb 0.5 (Star.z start)) eqn:Hdepth;
    [| eexists _, _; unfold ret; repeat split; auto].
  apply andb_true_iff in Hdepth. destruct Hdepth as [Hz3 Hz05].
  apply Qltb_lt in Hz3, Hz05.
  unfold bind at 1. rewrite searchTarget_fold, skip_skip.
  pose proof (best_of_fold stars startIdx start
                (candidates (skip (1 + 1) w) stars 20) [] (None, (-1)%Z)
                (best_none _ _ _ [] (fun j (H : In j []) => match H with end)))
    as Hbest.
  simpl app in Hbest.
  destruct Hbest as [Hnone | j s2 Hin Hq Ej Hmin]; cbn [snd].
  - (* no candidate qualified: bestIdx is still -1 *)
    cbn [Z.eqb negb]. eexists _, _. unfold ret. repeat split; auto.
  - (* the nearest qualifying candidate is j *)
    pose proof (lookup_Some_nonneg _ _ _ Ej) as Hj.
    destruct (Z.eqb_spec j (-1)) as [Hm | Hm]; [lia |]. cbn [negb].
    unfold bind at 1. rewrite random_skip. unfold ret.
    eexists _, _. split; [reflexivity |]. split; [| split].
    + right. eexists. split; [reflexivity |].
      unfold spawned. cbn [Connection.startIdx Connection.endIdx Connection.life
                           Connection.state Connection.maxLife].
      split; [exact Hgate |]. split; [reflexivity |].
      exists start. fold startIdx. split; [exact Estart |].
      split; [exact Hz05 |]. split; [exact Hz3 |].
      cbv zeta. split; [apply candidates_length |].
      split; [exact Hin |]. split; [apply qualifiesb_iff, Hq |].
      split; [| repeat split; reflexivity].
      intros k sk se Hk Hkq Ek Ee. rewrite Ej in Ee. injection Ee as <-.
      apply (Hmin k sk Hk); [apply qualifiesb_iff, Hkq | exact Ek].
    + intros start' Es' Hno. injection Es' as <-.
      exfalso. apply (Hno j Hin). apply qualifiesb_iff, Hq.
    + repeat split.
Qed.

(** ** Worlds that differ only in the random numbers drawn *)

Lemma only_drawn_refl w : only_drawn w w.
Proof. repeat split. Qed.

Lemma only_drawn_trans w1 w2 w3 :
  only_drawn w1 w2 -> only_drawn w2 w3 -> only_drawn w1 w3.
Proof.
  unfold only_drawn. intros (a & b & c & d) (a' & b' & c' & d').
  repeat split; congruence.
Qed.

Lemma unit_interval_entropy w w' :
  entropy w' = entropy w -> unit_interval w -> unit_interval w'.
Proof. unfold unit_interval. intros E H n. rewrite E. apply H. Qed.

Lemma hoare_random_drawn w0 :
  hoare (only_drawn w0) random
    (fun r w => (unit_interval w0 -> 0 <= r /\ r < 1) /\ only_drawn w0 w).
Proof.
  intros w Hw. eexists _, _. split; [reflexivity |]. split.
  - intros Hu. destruct Hw as (E & _). rewrite E. apply Hu.
  - destruct Hw as (a & b & c & d). repeat split; assumption.
Qed.

Ltac drawn_step :=
  repeat first
    [ apply hoare_ret; solve [auto]
    | match goal with
      | |- hoare (only_drawn ?w0) (bind random _) _ =>
        apply hoare_bind with (R' := fun _ => only_drawn w0);
          [ eapply hoare_weaken;
              [apply (hoare_random_drawn w0) | auto
              | intros ? ? [_ ?]; assumption]
          | intros ?; simpl ]
      end ].

Lemma newClusterNode_drawn w0 :
  hoare (only_drawn w0) newClusterNode (fun _ w => True /\ only_drawn w0 w).
Proof. unfold newClusterNode. drawn_step. Qed.

(** A random number may be used with its range where the range of the
    source, [unit_interval], holds. *)
Lemma hoare_bind_random {B} w0 (k : Q -> M B) (Q' : B -> World -> Prop) :
  (forall r, (unit_interval w0 -> 0 <= r /\ r < 1) ->
             hoare (only_drawn w0) (k r) Q') ->
  hoare (only_drawn w0) (bind random k) Q'.
Proof.
  intros Hk.
  apply hoare_bind
    with (R' := fun r w => (unit_interval w0 -> 0 <= r /\ r < 1)
                           /\ only_drawn w0 w);
    [apply hoare_random_drawn |].
  intros r w [Hr Hw]. apply (Hk r Hr w Hw).
Qed.

(** Every star [initStars] generates has its depth in [[0.2, 4.0)] and a
    twinkle speed of magnitude in [[0.002, 0.012)]. *)
Lemma newStar_ranges w0 (width height : Q) :
  hoare (only_drawn w0) (newStar width height)
    (fun st w =>
       (unit_interval w0 ->
        (0.2 <= Star.z st /\ Star.z st < 4.0)
        /\ (0.002 <= Qabs (Star.twinkleSpeed st)
            /\ Qabs (Star.twinkleSpeed st) < 0.012))
       /\ only_drawn w0 w).
Proof.
  unfold newStar.
  apply hoare_bind_random. intros r Hr. cbv zeta.
  drawn_step.
  eapply hoare_bind with (R' := fun _ => only_drawn w0).
  - match goal with |- context [Qltb ?a ?b] => destruct (Qltb a b) end.
    + drawn_step.
      eapply hoare_bind with (R' := fun _ => only_drawn w0);
        [| intros; drawn_step].
      eapply hoare_weaken;
        [apply (hoare_repeatM (only_drawn w0) newClusterNode (fun _ => True)),
               newClusterNode_drawn
        | auto | simpl; intros ? ? (_ & _ & ?); assumption].
    + drawn_step.
  - intros nodes. simpl.
    do 3 (apply hoare_bind_random; intros ? _).
    apply hoare_bind_random. intros rspeed Hs.
    apply hoare_bind_random. intros rsign _.
    apply hoare_ret. intros w Hw. split; [| exact Hw].
    intros Hu. destruct (Hr Hu), (Hs Hu).
    cbn [Star.z Star.twinkleSpeed]. split; [split; lra |].
    destruct (Qltb 0.5 rsign);
      match goal with |- context [Qabs ?t] =>
        apply (Qabs_case t); intros; split; lra end.
Qed.

Lemma initStars_ranges (W H : Q) (s : Scene) (w : World) :
  exists s' w', initStars W H s w = Ok s' w'
    /\ s' = set_stars s (starsRef s')
    /\ Z.of_nat (length (starsRef s')) = spec_starCount W H
    /\ (unit_interval w ->
        Forall (fun st => 0.2 <= Star.z st /\ Star.z st < 4.0) (starsRef s'))
    /\ (unit_interval w ->
        Forall (fun st => 0.002 <= Qabs (Star.twinkleSpeed st)
                          /\ Qabs (Star.twinkleSpeed st) < 0.012)
          (starsRef s'))
    /\ only_drawn w w'.
Proof.
  unfold initStars.
  destruct (hoare_repeatM (only_drawn w) (newStar W H)
              (fun st => unit_interval w ->
                 (0.2 <= Star.z st /\ Star.z st < 4.0)
                 /\ (0.002 <= Qabs (Star.twinkleSpeed st)
                     /\ Qabs (Star.twinkleSpeed st) < 0.012))
              (Z.to_nat (starCount W H)) (newStar_ranges w W H) w
              (only_drawn_refl w))
    as (l & w' & E & Hl & HP & Hw).
  exists (set_stars s l), w'. unfold bind, ret. rewrite E.
  split; [reflexivity |]. split; [reflexivity |]. simpl.
  split; [| split; [| split]].
  - rewrite Hl, Z2Nat.id, starCount_clamp; [reflexivity |].
    unfold starCount. lia.
  - intros Hu. eapply Forall_impl; [| exact HP]. simpl. intros st Hst.
    apply (Hst Hu).
  - intros Hu. eapply Forall_impl; [| exact HP]. simpl. intros st Hst.
    apply (Hst Hu).
  - exact Hw.
Qed.

(** ** The drift of the stars *)

Lemma drift_spec (cw ch : Q) (star : Star.t) (w : World) :
  exists star' w', drift cw ch star w = Ok star' w'
    /\ drifted (entropy w) cw ch star star'
    /\ only_drawn w w'.
Proof.
  unfold drift, drifted.
  destruct (Qle_bool (Star.z star - driftSpeed) 0.2).
  - eexists _, _. unfold bind, random, ret. cbn.
    split; [reflexivity |]. split; [| repeat split].
    exists (drawn w), (S (drawn w)). reflexivity.
  - eexists _, _. unfold ret. split; [reflexivity |].
    split; [reflexivity | apply only_drawn_refl].
Qed.

Lemma forEachM_drift (cw ch : Q) (stars : list Star.t) :
  forall w, exists stars' w',
    forEachM (drift cw ch) stars w = Ok stars' w'
    /\ Forall2 (drifted (entropy w) cw ch) stars stars'
    /\ only_drawn w w'.
Proof.
  induction stars as [|st stars IH]; intros w.
  - exists [], w. repeat split. constructor.
  - destruct (drift_spec cw ch st w) as (st' & w1 & E1 & Hd & Hw1).
    destruct (IH w1) as (stars' & w2 & E2 & Hf & Hw2).
    exists (st' :: stars'), w2. cbn [forEachM]. unfold bind, ret.
    rewrite E1, E2. split; [reflexivity |]. split.
    + constructor; [exact Hd |].
      destruct Hw1 as (Ee & _). rewrite Ee in Hf. exact Hf.
    + eapply only_drawn_trans; eassumption.
Qed.

(** After the drift every depth that was at most 4.0 lies in [(0.2, 4.0]]. *)
Lemma drifted_depth e cw ch star star' :
  drifted e cw ch star star' ->
  Star.z star <= 4.0 ->
  0.2 < Star.z star' /\ Star.z star' <= 4.0.
Proof.
  unfold drifted, driftSpeed.
  destruct (Qle_bool (Star.z star - 0.002) 0.2) eqn:E.
  - intros (i & j & ->) _. cbn. split; lra.
  - apply Qle_bool_gt in E. intros -> Hz. cbn. split; lra.
Qed.

(** ** The frame *)

Section RendererFacts.

Variable Math_sin : Q -> Q.
Variable Math_cos : Q -> Q.
Variable Math_hypot : Q -> Q -> Q.

Lemma animate_aborts (time : Q) (s : Scene) (w : World) :
  surface_available s = false ->
  animate Math_sin Math_cos time s w = Ok s w.
Proof.
  unfold surface_available, animate.
  destruct (canvasRef s) as [canvas|]; [| reflexivity].
  intros ->. reflexivity.
Qed.

Lemma animate_renders (time : Q) (s : Scene) (w : World) :
  surface_available s = true ->
  exists s' w',
    animate Math_sin Math_cos time s w = Ok s' w' /\ rendered w s s' w'.
Proof.
  unfold surface_available, animate, rendered.
  destruct (canvasRef s) as [canvas|] eqn:Ecanvas; [| discriminate].
  intros ->. cbn [negb].
  destruct (forEachM_drift (width canvas) (height canvas) (starsRef s) w)
    as (stars & w1 & E1 & Hdrift & Hw1).
  destruct (spawnConnection_spec stars (connectionsRef s) w1)
    as (conns & w2 & E2 & Hspawn & _ & He2 & Hf2 & Hn2 & Hs2).
  match goal with |- context [connectionLoop ?v _ _ _] =>
    destruct (connectionLoop_survivors v stars conns w2)
      as (w3 & E3 & He3 & Hd3 & Hf3 & Hn3) end.
  unfold bind at 1. rewrite E1.
  unfold bind at 1. rewrite E2.
  unfold bind at 1. rewrite E3.
  unfold bind, requestAnimationFrame, ret. cbn.
  destruct Hw1 as (He1 & Hf1 & Hn1 & Hs1).
  eexists _, _. split; [reflexivity |].
  exists canvas, stars, conns, w1. cbn.
  split; [reflexivity |]. split; [exact Hdrift |].
  split; [repeat split; assumption |]. split; [exact Hspawn |].
  repeat split; try reflexivity; congruence.
Qed.

Lemma initPlanetNoise_spec (s : Scene) (w : World) :
  exists noise w',
    initPlanetNoise s w = Ok (set_planetNoise s noise) w'
    /\ length noise = numPoints /\ only_drawn w w'.
Proof.
  unfold initPlanetNoise.
  destruct (hoare_repeatM (only_drawn w) random (fun _ => True) numPoints)
    with (w := w) as (l & w' & E & Hl & _ & Hw).
  - eapply hoare_weaken; [apply (hoare_random_drawn w) | auto |].
    simpl. intros a w1 [_ H]. auto.
  - apply only_drawn_refl.
  - exists l, w'. unfold bind, ret. rewrite E. auto.
Qed.

Lemma handleResize_unmounted (s : Scene) (w : World) :
  canvasRef s = None \/ containerRef s = None ->
  handleResize s w = Ok s w.
Proof.
  unfold handleResize. intros [H | H]; rewrite H;
    [| destruct (canvasRef s)]; reflexivity.
Qed.

Lemma handleResize_mounted (s : Scene) (w : World) canvas container :
  canvasRef s = Some canvas -> containerRef s = Some container ->
  exists s' w',
    handleResize s w = Ok s' w'
    /\ connectionsRef s' = []
    /\ Z.of_nat (length (starsRef s'))
       = spec_starCount (inject_Z (clientWidth container))
           (inject_Z (clientHeight container))
    /\ (unit_interval w ->
        Forall (fun st => 0.2 <= Star.z st /\ Star.z st < 4.0) (starsRef s'))
    /\ canvasRef s' = Some {| width := inject_Z (clientWidth container);
                              height := inject_Z (clientHeight container);
                              context2d := context2d canvas |}
    /\ containerRef s' = containerRef s
    /\ targetZoomRef s' = targetZoomRef s
    /\ only_drawn w w'.
Proof.
  intros Ec Ek. unfold handleResize. rewrite Ec, Ek.
  match goal with |- context [initStars ?a ?b ?s0] =>
    destruct (initStars_ranges a b s0 w)
      as (s1 & w1 & E1 & Hs1 & Hlen & Hdepth & _ & Hw1) end.
  unfold bind at 1. rewrite E1.
  match goal with |- context [initPlanetNoise ?s0] =>
    destruct (initPlanetNoise_spec s0 w1) as (noise & w2 & E2 & _ & Hw2) end.
  rewrite E2. eexists _, _. split; [reflexivity |].
  rewrite Hs1. cbn. rewrite Hs1 in Hlen. cbn in Hlen.
  repeat split; auto.
  - destruct Hw1 as (a & _), Hw2 as (a' & _). congruence.
  - destruct Hw1 as (_ & a & _), Hw2 as (_ & a' & _). congruence.
  - destruct Hw1 as (_ & _ & a & _), Hw2 as (_ & _ & a' & _). congruence.
  - destruct Hw1 as (_ & _ & _ & a), Hw2 as (_ & _ & _ & a'). congruence.
Qed.

(** ** Invariants of the scene *)

Lemma ends_exist_length stars stars' c :
  length stars' = length stars -> ends_exist stars c -> ends_exist stars' c.
Proof. unfold ends_exist, star_exists. intros ->. auto. Qed.

Lemma survivors_ends_exist stars connections :
  Forall (ends_exist stars) (survivors stars connections).
Proof.
  unfold survivors. apply Forall_forall. intros c Hc.
  apply filter_In in Hc. destruct Hc as [_ Hk]. unfold kept in Hk.
  apply andb_true_iff in Hk. destruct Hk as [Hk He].
  apply andb_true_iff in Hk. destruct Hk as [_ Hs].
  split; apply lookup_Some_iff; assumption.
Qed.

Lemma rendered_connections_ok w s s' w' :
  rendered w s s' w' -> connections_ok s'.
Proof.
  intros (canvas & stars & conns & w1 & _ & _ & _ & _ & Es & Ec & _).
  unfold connections_ok. rewrite Es, Ec.
  eapply Forall_impl; [| apply survivors_ends_exist].
  intros c. apply ends_exist_length. apply length_map.
Qed.

Lemma twinkle_z st : Star.z (twinkle st) = Star.z st.
Proof. reflexivity. Qed.

Lemma rendered_depths w s s' w' :
  rendered w s s' w' -> depths_ok s ->
  Forall (fun st => 0.2 < Star.z st /\ Star.z st <= 4.0) (starsRef s').
Proof.
  intros (canvas & stars & conns & w1 & _ & Hd & _ & _ & Es & _) Hok.
  rewrite Es. unfold depths_ok in Hok. clear Es.
  induction Hd as [|st st' l l' Hst Hl IH]; [constructor |].
  inversion Hok as [|? ? [_ Hz] Hok']; subst. simpl. constructor.
  - rewrite twinkle_z. eapply drifted_depth; eassumption.
  - apply IH, Hok'.
Qed.

Lemma rendered_star_frames w s s' w' :
  rendered w s s' w' ->
  exists canvas,
    canvasRef s = Some canvas
    /\ Forall2 (star_frame (entropy w) (width canvas) (height canvas))
         (starsRef s) (starsRef s').
Proof.
  intros (canvas & stars & conns & w1 & Ec & Hd & _ & _ & Es & _).
  exists canvas. split; [exact Ec |]. rewrite Es. clear Es.
  induction Hd as [|st st1 l l1 Hst Hl IH]; simpl; constructor; auto.
  exists st1. auto.
Qed.

Lemma depths_ok_of_strict stars :
  Forall (fun st => 0.2 < Star.z st /\ Star.z st <= 4.0) stars ->
  Forall (fun st => 0.2 <= Star.z st /\ Star.z st <= 4.0) stars.
Proof.
  apply Forall_impl. intros st [H1 H2]. split; [lra | exact H2].
Qed.

Lemma depths_ok_of_generated stars :
  Forall (fun st => 0.2 <= Star.z st /\ Star.z st < 4.0) stars ->
  Forall (fun st => 0.2 <= Star.z st /\ Star.z st <= 4.0) stars.
Proof.
  apply Forall_impl. intros st [H1 H2]. split; [exact H1 | lra].
Qed.

Lemma clamp_zoom (t : Q) : 0.5 <= Qmax 0.5 (Qmin 5.0 t) /\ Qmax 0.5 (Qmin 5.0 t) <= 5.0.
Proof.
  split.
  - apply Q.le_max_l.
  - apply Q.max_lub; [lra | apply Q.le_min_l].
Qed.

Lemma handleWheel_zoom deltaY s : targetZoom_ok (handleWheel deltaY s).
Proof. unfold targetZoom_ok, handleWheel. cbn. apply clamp_zoom. Qed.

Lemma handleTouchMove_zoom touches s :
  targetZoom_ok s -> targetZoom_ok (handleTouchMove Math_hypot touches s).
Proof.
  unfold targetZoom_ok, handleTouchMove. intros H.
  destruct touches as [|t1 [|t2 [|t3 rest]]]; cbn; auto.
  destruct (lastTouchDistRef s); cbn; auto. apply clamp_zoom.
Qed.

Lemma handleTouchStart_same touches s :
  starsRef (handleTouchStart Math_hypot touches s) = starsRef s
  /\ connectionsRef (handleTouchStart Math_hypot touches s) = connectionsRef s
  /\ targetZoomRef (handleTouchStart Math_hypot touches s) = targetZoomRef s
  /\ canvasRef (handleTouchStart Math_hypot touches s) = canvasRef s
  /\ containerRef (handleTouchStart Math_hypot touches s) = containerRef s.
Proof.
  unfold handleTouchStart.
  destruct touches as [|t1 [|t2 [|t3 rest]]]; cbn; auto.
Qed.

Lemma handleTouchMove_same touches s :
  starsRef (handleTouchMove Math_hypot touches s) = starsRef s
  /\ connectionsRef (handleTouchMove Math_hypot touches s) = connectionsRef s
  /\ canvasRef (handleTouchMove Math_hypot touches s) = canvasRef s
  /\ containerRef (handleTouchMove Math_hypot touches s) = containerRef s.
Proof.
  unfold handleTouchMove.
  destruct touches as [|t1 [|t2 [|t3 rest]]]; cbn; auto.
  destruct (lastTouchDistRef s); cbn; auto.
Qed.

Ltac same_scene :=
  unfold connections_ok, targetZoom_ok, depths_ok, idle_ok, unmounted in *;
  cbn in *; tauto.

Lemma lookup_nil {A} (i : Z) : lookup (@nil A) i = None.
Proof.
  unfold lookup. destruct (i <? 0)%Z; [reflexivity |].
  destruct (Z.to_nat i); reflexivity.
Qed.

Lemma rendered_idle_ok w s s' w' :
  rendered w s s' w' -> idle_ok s -> idle_ok s'.
Proof.
  intros (canvas & stars & conns & w1 & _ & Hd & _ & Hsp & Es & Ec & Hcv & Hct & _)
         Hok Hun.
  unfold unmounted in Hun. rewrite Hcv, Hct in Hun.
  destruct (Hok Hun) as [Hs Hc]. rewrite Hs in Hd. inversion Hd; subst.
  rewrite Es, Ec. split; [reflexivity |].
  destruct Hsp as [-> | (c & _ & _ & _ & start & Hl & _)].
  - rewrite Hc. reflexivity.
  - rewrite lookup_nil in Hl. discriminate.
Qed.

(** Every event is handled without an exception and keeps the three
    invariants (the depths need [Math.random()] to stay in [[0, 1)]). *)
Lemma dispatch_invariants (e : Event) (s : Scene) (w : World) :
  exists s' w',
    dispatch Math_sin Math_cos Math_hypot e s w = Ok s' w'
    /\ entropy w' = entropy w
    /\ (connections_ok s -> connections_ok s')
    /\ (targetZoom_ok s -> targetZoom_ok s')
    /\ (unit_interval w -> depths_ok s -> depths_ok s')
    /\ (idle_ok s -> idle_ok s').
Proof.
  destruct e as [cw ch | mx my | deltaY | touches | touches | | time];
    cbn [dispatch].
  - (* Resize *)
    destruct (canvasRef s) as [canvas|] eqn:Ec;
      [destruct (containerRef s) as [container|] eqn:Ek |].
    + edestruct (handleResize_mounted
                   (set_container s (Some {| clientWidth := cw; clientHeight := ch |}))
                   w canvas) as (s' & w' & E & Hc & _ & Hd & Hcv & Hct & Hz & Hw);
        [exact Ec | reflexivity |].
      exists s', w'. split; [exact E |]. split; [apply Hw |].
      unfold connections_ok, targetZoom_ok, depths_ok.
      rewrite Hc, Hz. cbn.
      split; [intros _; constructor |]. split; [auto |].
      split; [intros Hu _; apply depths_ok_of_generated, Hd, Hu |].
      unfold idle_ok, unmounted. rewrite Hcv, Hct. cbn.
      intros _ [H | H]; discriminate.
    + exists (set_container s None), w.
      rewrite handleResize_unmounted by (right; reflexivity).
      split; [reflexivity |]. split; [reflexivity |]. same_scene.
    + eexists _, w.
      rewrite handleResize_unmounted by (left; exact Ec).
      split; [reflexivity |]. split; [reflexivity |]. same_scene.
  - exists (handleMouseMove mx my s), w.
    split; [reflexivity |]. split; [reflexivity |]. same_scene.
  - exists (handleWheel deltaY s), w.
    split; [reflexivity |]. split; [reflexivity |].
    pose proof (handleWheel_zoom deltaY s). same_scene.
  - exists (handleTouchStart Math_hypot touches s), w.
    destruct (handleTouchStart_same touches s) as (Es & Ec & Ez & Ecv & Ect).
    unfold connections_ok, targetZoom_ok, depths_ok, idle_ok, unmounted.
    rewrite Es, Ec, Ez, Ecv, Ect.
    split; [reflexivity |]. split; [reflexivity |]. tauto.
  - exists (handleTouchMove Math_hypot touches s), w.
    destruct (handleTouchMove_same touches s) as (Es & Ec & Ecv & Ect).
    pose proof (handleTouchMove_zoom touches s).
    unfold connections_ok, depths_ok, idle_ok, unmounted.
    rewrite Es, Ec, Ecv, Ect.
    split; [reflexivity |]. split; [reflexivity |]. tauto.
  - exists (handleTouchEnd s), w.
    split; [reflexivity |]. split; [reflexivity |]. same_scene.
  - (* AnimationFrame *)
    unfold bind, takeFrame. destruct (frames w) as [|h rest] eqn:Ef.
    + exists s, w.
      split; [reflexivity |]. split; [reflexivity |]. tauto.
    + destruct (surface_available s) eqn:Ea.
      * match goal with |- context [animate _ _ _ _ ?w1] =>
          destruct (animate_renders time s w1 Ea) as (s' & w' & E & Hr) end.
        exists s', w'. split; [exact E |].
        pose proof (rendered_connections_ok _ _ _ _ Hr) as Hc.
        pose proof (rendered_depths _ _ _ _ Hr) as Hd.
        pose proof (rendered_idle_ok _ _ _ _ Hr) as Hi.
        destruct Hr as (canvas & stars & conns & w1 & _ & _ & _ & _ & _ & _
                        & _ & _ & _ & _ & Hz & _ & _ & _ & _ & He & _).
        split; [exact He |]. split; [auto |]. split; [| split].
        -- unfold targetZoom_ok. rewrite Hz. auto.
        -- intros _ Hok. apply depths_ok_of_strict, Hd, Hok.
        -- exact Hi.
      * rewrite animate_aborts by exact Ea.
        eexists _, _. split; [reflexivity |]. split; [reflexivity |]. tauto.
Qed.

Lemma run_invariants (events : list Event) :
  forall (s : Scene) (w : World),
  exists s' w',
    run Math_sin Math_cos Math_hypot events s w = Ok s' w'
    /\ entropy w' = entropy w
    /\ (connections_ok s -> connections_ok s')
    /\ (targetZoom_ok s -> targetZoom_ok s')
    /\ (unit_interval w -> depths_ok s -> depths_ok s')
    /\ (idle_ok s -> idle_ok s').
Proof.
  induction events as [|e events IH]; intros s w.
  - exists s, w. split; [reflexivity |]. split; [reflexivity |]. tauto.
  - destruct (dispatch_invariants e s w)
      as (s1 & w1 & E1 & He1 & Hc1 & Hz1 & Hd1 & Hi1).
    destruct (IH s1 w1) as (s2 & w2 & E2 & He2 & Hc2 & Hz2 & Hd2 & Hi2).
    exists s2, w2. cbn [run]. unfold bind. rewrite E1.
    split; [exact E2 |]. split; [congruence |].
    split; [auto |]. split; [auto |]. split; [| auto].
    intros Hu Hok. apply Hd2; [eapply unit_interval_entropy; eassumption | auto].
Qed.

Lemma mount_invariants canvas container (w : World) :
  exists s w',
    mount canvas container w = Ok s w'
    /\ entropy w' = entropy w
    /\ connections_ok s
    /\ targetZoom_ok s
    /\ targetZoomRef s = 1
    /\ (unit_interval w -> depths_ok s)
    /\ idle_ok s
    /\ frames w' = frames w ++ [nextHandle w]
    /\ canvasRef s
       = match canvas, container with
         | Some cv, Some ct =>
           Some {| width := inject_Z (clientWidth ct);
                   height := inject_Z (clientHeight ct);
                   context2d := context2d cv |}
         | _, _ => canvas
         end.
Proof.
  unfold mount.
  destruct canvas as [canvas|]; [destruct container as [container|] |].
  - destruct (handleResize_mounted (initialScene (Some canvas) (Some container))
                w canvas container eq_refl eq_refl)
      as (s' & w' & E & Hc & _ & Hd & Hcv & Hct & Hz & Hw).
    unfold bind. rewrite E. cbn. eexists _, _. split; [reflexivity |].
    unfold connections_ok, targetZoom_ok, depths_ok, idle_ok, unmounted. cbn.
    rewrite Hc, Hz, Hcv, Hct. cbn. destruct Hw as (He & Hf & Hn & _).
    split; [exact He |]. split; [constructor |]. split; [split; lra |].
    split; [reflexivity |].
    split; [intros Hu; apply depths_ok_of_generated, Hd, Hu |].
    split; [intros [H | H]; discriminate |].
    split; [congruence | reflexivity].
  - unfold bind.
    rewrite handleResize_unmounted by (right; reflexivity). cbn.
    eexists _, _. split; [reflexivity |].
    unfold connections_ok, targetZoom_ok, depths_ok, idle_ok. cbn.
    repeat split; auto; lra.
  - unfold bind.
    rewrite handleResize_unmounted by (left; reflexivity). cbn.
    eexists _, _. split; [reflexivity |].
    unfold connections_ok, targetZoom_ok, depths_ok, idle_ok. cbn.
    repeat split; auto; lra.
Qed.

End RendererFacts.

(** ** The twinkle *)

Lemma twinkle_dark m st :
  0 <= m -> m < 0.2 -> dark m st -> dark m (twinkle st).
Proof.
  intros Hm0 Hm. unfold dark, twinkle. cbn.
  destruct (Qltb 1 (Star.opacity st + Star.twinkleSpeed st)) eqn:E1;
  destruct (Qltb (Star.opacity st + Star.twinkleSpeed st) 0.2) eqn:E2;
  cbn [orb];
  try apply Qltb_lt in E1; try apply Qltb_ge in E1;
  try apply Qltb_lt in E2; try apply Qltb_ge in E2;
  intros [[Ho [Hs | Hs]] | [[Ho Hs] | [Ho Hs]]];
  try (exfalso; lra).
  all: try (left; split; [lra | left; lra]).
  all: try (left; split; [lra | right; lra]).
  all: try (right; left; split; lra).
  all: try (right; right; split; lra).
Qed.

Lemma drifted_dark e cw ch m st st' :
  drifted e cw ch st st' -> dark m st -> dark m st'.
Proof.
  unfold drifted, dark.
  destruct (Qle_bool (Star.z st - driftSpeed) 0.2).
  - intros (i & j & ->). cbn.
    intros [[Ho Hs] | [[Ho Hs] | [Ho Hs]]]; left; split;
      try reflexivity; auto.
  - intros ->. cbn. auto.
Qed.

Lemma later_frames_dark e cw ch m st st' :
  0 <= m -> m < 0.2 ->
  later_frames e cw ch st st' -> dark m st -> dark m st'.
Proof.
  intros Hm0 Hm H. induction H as [|st' st'' _ IH (st1 & Hd & ->)]; [auto |].
  intros Hdark. apply twinkle_dark; auto.
  eapply drifted_dark; eauto.
Qed.

Lemma dark_opacity m st :
  0 <= m -> dark m st -> - m <= Star.opacity st /\ Star.opacity st <= m.
Proof.
  intros Hm [[Ho _] | [[Ho _] | [Ho _]]]; split; lra.
Qed.

Lemma recycled_dark e cw ch st st1 :
  Star.z st - driftSpeed <= 0.2 ->
  drifted e cw ch st st1 ->
  dark (Qabs (Star.twinkleSpeed st)) st1.
Proof.
  intros Hz. unfold drifted.
  apply Qle_bool_iff in Hz. rewrite Hz. intros (i & j & ->).
  left. cbn. split; [reflexivity |].
  apply (Qabs_case (Star.twinkleSpeed st)); intros H; [left | right]; lra.
Qed.

(** * The properties of the specification *)

Section Claims.

Variable Math_sin : Q -> Q.
Variable Math_cos : Q -> Q.
Variable Math_hypot : Q -> Q -> Q.

Lemma survivors_drop_stale stars connections c :
  ~ ends_exist stars c -> ~ In (stepLife c) (survivors stars connections).
Proof.
  intros Hstale Hin. apply Hstale.
  pose proof (survivors_ends_exist stars connections) as Hall.
  rewrite Forall_forall in Hall. destruct (Hall _ Hin) as [Hs He].
  rewrite stepLife_startIdx in Hs. rewrite stepLife_endIdx in He.
  split; assumption.
Qed.

(** C1. After every resize event the connection list is empty, and from
    then on no frame reads a star that does not exist: every run of the
    component returns without a TypeError and every connection it holds
    refers to two stars of the current array.  The loop over the
    connections itself never reads a field of a missing star, whatever list
    it is given: a connection whose startIdx or endIdx is outside the star
    array is dropped, and those that stay refer to existing stars. *)
Theorem resize_clears_connections :
  (forall canvas container events clientWidth clientHeight later w,
     exists s1 w1 s2 w2 s3 w3,
       (s0 <- mount canvas container ;;
        run Math_sin Math_cos Math_hypot events s0) w = Ok s1 w1
       /\ dispatch Math_sin Math_cos Math_hypot
            (Resize clientWidth clientHeight) s1 w1 = Ok s2 w2
       /\ connectionsRef s2 = []
       /\ run Math_sin Math_cos Math_hypot later s2 w2 = Ok s3 w3
       /\ Forall (ends_exist (starsRef s3)) (connectionsRef s3))
  /\ (forall time s w,
       exists s' w',
         animate Math_sin Math_cos time s w = Ok s' w'
         /\ (surface_available s = true ->
             Forall (ends_exist (starsRef s')) (connectionsRef s')))
  /\ (forall v stars connections w,
       exists w',
         connectionLoop v stars (length connections) connections w
         = Ok (survivors stars connections) w'
         /\ Forall (ends_exist stars) (survivors stars connections)
         /\ (forall c, ~ ends_exist stars c ->
               ~ In (stepLife c) (survivors stars connections))).
Proof.
  split; [| split].
  - intros canvas container events cw ch later w.
    destruct (mount_invariants canvas container w)
      as (s0 & w0 & E0 & _ & Hc0 & _ & _ & _ & Hi0 & _).
    destruct (run_invariants Math_sin Math_cos Math_hypot events s0 w0)
      as (s1 & w1 & E1 & _ & Hc1 & _ & _ & Hi1).
    destruct (dispatch_invariants Math_sin Math_cos Math_hypot (Resize cw ch) s1 w1)
      as (s2 & w2 & E2 & _ & Hc2 & _ & _ & Hi2).
    destruct (run_invariants Math_sin Math_cos Math_hypot later s2 w2)
      as (s3 & w3 & E3 & _ & Hc3 & _ & _ & _).
    exists s1, w1, s2, w2, s3, w3.
    split; [unfold bind; rewrite E0; exact E1 |].
    split; [exact E2 |].
    split; [| split; [exact E3 | exact (Hc3 (Hc2 (Hc1 Hc0)))]].
    (* the list is empty after the resize *)
    cbn [dispatch] in E2.
    destruct (canvasRef s1) as [cv|] eqn:Ecv;
      [destruct (containerRef s1) as [ct|] eqn:Ect |].
    + edestruct (handleResize_mounted
                   (set_container s1 (Some {| clientWidth := cw; clientHeight := ch |}))
                   w1 cv) as (s' & w' & E & Hc & _); [exact Ecv | reflexivity |].
      rewrite E in E2. injection E2 as <- <-. exact Hc.
    + rewrite handleResize_unmounted in E2 by (right; reflexivity).
      injection E2 as <- <-. apply (Hi1 Hi0). right. exact Ect.
    + rewrite handleResize_unmounted in E2 by (left; exact Ecv).
      injection E2 as <- <-. apply (Hi1 Hi0). left. exact Ecv.
  - intros time s w. destruct (surface_available s) eqn:Ea.
    + destruct (animate_renders Math_sin Math_cos time s w Ea)
        as (s' & w' & E & Hr).
      exists s', w'. split; [exact E |]. intros _.
      exact (rendered_connections_ok _ _ _ _ Hr).
    + exists s, w. split; [apply animate_aborts, Ea | discriminate].
  - intros v stars connections w.
    destruct (connectionLoop_survivors v stars connections w) as (w' & E & _).
    exists w'. split; [exact E |]. split; [apply survivors_ends_exist |].
    intros c. apply survivors_drop_stale.
Qed.

(** C2. The life cycle of a connection: its life grows by 0.04 per frame
    while growing and it turns to holding exactly when the life has reached
    maxLife; holding loses 0.005 per frame and turns to fading exactly when
    the life is below 0.8 maxLife; fading loses 0.015 per frame; the state
    only ever moves forward along growing, holding, fading; a connection
    whose two stars exist is dropped by the frame exactly when its life is
    at most 0; and a connection created with maxLife 0.8 is growing for its
    first 19 frames and holding after the 20th. *)
Theorem connection_life_cycle :
  (forall c, Connection.state c = growing ->
     Connection.life (stepLife c) = Connection.life c + 0.04
     /\ Connection.life c < Connection.life (stepLife c)
     /\ (Connection.state (stepLife c) = holding
         <-> Connection.maxLife c <= Connection.life (stepLife c))
     /\ (Connection.state (stepLife c) = growing
         <-> Connection.life (stepLife c) < Connection.maxLife c))
  /\ (forall c, Connection.state c = holding ->
     Connection.life (stepLife c) = Connection.life c - 0.005
     /\ Connection.life (stepLife c) <= Connection.life c
     /\ (Connection.state (stepLife c) = fading
         <-> Connection.life (stepLife c) < Connection.maxLife c * 0.8)
     /\ (Connection.state (stepLife c) = holding
         <-> Connection.maxLife c * 0.8 <= Connection.life (stepLife c)))
  /\ (forall c, Connection.state c = fading ->
     Connection.life (stepLife c) = Connection.life c - 0.015
     /\ Connection.life (stepLife c) < Connection.life c
     /\ Connection.state (stepLife c) = fading)
  /\ (forall c,
     (rank (Connection.state c) <= rank (Connection.state (stepLife c))
      <= S (rank (Connection.state c)))%nat)
  /\ (forall c n m, (n <= m)%nat ->
     (rank (Connection.state (iter n stepLife c))
      <= rank (Connection.state (iter m stepLife c)))%nat)
  /\ (forall v stars connections w,
     Forall (ends_exist stars) connections ->
     exists w',
       connectionLoop v stars (length connections) connections w
       = Ok (filter (fun c => Qltb 0 (Connection.life c))
               (map stepLife connections)) w')
  /\ (forall startIdx endIdx,
     let c0 := {| Connection.startIdx := startIdx;
                  Connection.endIdx := endIdx;
                  Connection.life := 0;
                  Connection.state := growing;
                  Connection.maxLife := 0.8 |} in
     (forall k, (k < 20)%nat ->
        Connection.state (iter k stepLife c0) = growing)
     /\ Connection.state (iter 20 stepLife c0) = holding).
Proof.
  split; [exact stepLife_growing |].
  split; [exact stepLife_holding |].
  split; [exact stepLife_fading |].
  split; [exact stepLife_rank |].
  split; [exact iter_stepLife_rank |].
  split.
  - intros v stars connections w H.
    destruct (connectionLoop_survivors v stars connections w) as (w' & E & _).
    exists w'. rewrite E, (survivors_when_ends_exist _ _ H). reflexivity.
  - intros startIdx endIdx c0. split.
    + intros k Hk.
      do 20 (destruct k as [|k]; [vm_compute; reflexivity |]). lia.
    + vm_compute. reflexivity.
Qed.

(** C3, as the code has it.  A frame that finds no canvas, or no 2D context
    for it, returns at once: no exception, the scene and the browser state
    unchanged, and in particular no further animation frame requested, so
    the frame loop ends there and later ticks find nothing to run.  A frame
    that finds both requests exactly one further frame. *)
Theorem animate_without_surface_stops :
  (forall time s w,
     surface_available s = false ->
     animate Math_sin Math_cos time s w = Ok s w)
  /\ (forall times s w,
       surface_available s = false ->
       exists w',
         run Math_sin Math_cos Math_hypot (map AnimationFrame times) s w = Ok s w'
         /\ length (frames w') = (length (frames w) - length times)%nat
         /\ strokes w' = strokes w
         /\ nextHandle w' = nextHandle w)
  /\ (forall time s w,
       surface_available s = true ->
       exists s' w',
         animate Math_sin Math_cos time s w = Ok s' w'
         /\ frames w' = frames w ++ [requestRef s']).
Proof.
  split; [| split].
  - intros time s w. apply animate_aborts.
  - intros times s w Ha. revert w.
    induction times as [|t times IH]; intros w.
    + exists w. cbn. repeat split. lia.
    + cbn [map run dispatch]. unfold bind at 1 2, takeFrame.
      destruct (frames w) as [|h rest] eqn:Ef.
      * cbn [ret]. destruct (IH w) as (w' & E & Hl & Hs & Hn).
        exists w'. rewrite Ef in Hl. cbn in *. auto.
      * rewrite animate_aborts by exact Ha.
        match goal with |- context [run _ _ _ _ s ?w1] =>
          destruct (IH w1) as (w' & E & Hl & Hs & Hn) end.
        exists w'. cbn in *. auto.
  - intros time s w Ha.
    destruct (animate_renders Math_sin Math_cos time s w Ha)
      as (s' & w' & E & Hr).
    exists s', w'. split; [exact E |].
    destruct Hr as (canvas & stars & conns & w1 & _ & _ & _ & _ & _ & _
                    & _ & _ & _ & _ & _ & _ & _ & _ & Hreq & _ & Hf & _).
    rewrite Hf, Hreq. reflexivity.
Qed.

(** C4. For every surface width [W] and height [H], [initStars] returns
    with exactly [clamp (floor (W * H / 350)) 600 2500] stars; a 1000 x 800
    surface gives 2285 stars, a 100 x 100 surface 600 (the lower clamp) and
    a 3000 x 3000 surface 2500 (the upper clamp). *)
Theorem initStars_star_count :
  (forall (W H : Q) (s : Scene) (w : World),
     exists s' w', initStars W H s w = Ok s' w'
       /\ Z.of_nat (length (starsRef s')) = clamp (Qfloor (W * H / 350)) 600 2500)
  /\ (forall s w, exists s' w', initStars 1000 800 s w = Ok s' w'
       /\ Z.of_nat (length (starsRef s')) = 2285%Z)
  /\ (forall s w, exists s' w', initStars 100 100 s w = Ok s' w'
       /\ Z.of_nat (length (starsRef s')) = 600%Z)
  /\ (forall s w, exists s' w', initStars 3000 3000 s w = Ok s' w'
       /\ Z.of_nat (length (starsRef s')) = 2500%Z).
Proof.
  repeat split; intros; apply initStars_length.
Qed.

(** C5, as the code has it.  With [Math.random()] in [[0, 1)]: every star
    [initStars] generates has its depth in [[0.2, 4.0)], the lower end
    included; the drift of a frame takes every depth of at most 4.0 into
    [(0.2, 4.0]]; a star whose depth the drift would take to 0.2 or less is
    put at depth exactly 4.0 with opacity 0 and a fresh position in the
    frustum rectangle of that depth, any other star only loses 0.002 of
    depth; so at all times every depth lies in [[0.2, 4.0]], and in
    [(0.2, 4.0]] after a rendered frame. *)
Theorem star_depth_range (w : World) (Hw : unit_interval w) :
  (forall W H s,
     exists s' w', initStars W H s w = Ok s' w'
       /\ Forall (fun st => 0.2 <= Star.z st /\ Star.z st < 4.0) (starsRef s'))
  /\ (forall cw ch star,
       Star.z star <= 4.0 ->
       exists star' w', drift cw ch star w = Ok star' w'
         /\ 0.2 < Star.z star' /\ Star.z star' <= 4.0
         /\ (Star.z star - 0.002 <= 0.2 ->
             Star.z star' = 4.0 /\ Star.opacity star' = 0
             /\ exists rx ry,
                  0 <= rx /\ rx < 1 /\ 0 <= ry /\ ry < 1
                  /\ Star.x star' = (rx - 0.5) * cw * (1.5 * 4.0)
                  /\ Star.y star' = (ry - 0.5) * ch * (1.5 * 4.0))
         /\ (0.2 < Star.z star - 0.002 ->
             Star.z star' = Star.z star - 0.002
             /\ Star.opacity star' = Star.opacity star
             /\ Star.x star' = Star.x star /\ Star.y star' = Star.y star))
  /\ (forall canvas container events,
       exists s w',
         (s0 <- mount canvas container ;;
          run Math_sin Math_cos Math_hypot events s0) w = Ok s w'
         /\ Forall (fun st => 0.2 <= Star.z st /\ Star.z st <= 4.0) (starsRef s))
  /\ (forall time s,
       surface_available s = true ->
       Forall (fun st => 0.2 <= Star.z st /\ Star.z st <= 4.0) (starsRef s) ->
       exists s' w',
         animate Math_sin Math_cos time s w = Ok s' w'
         /\ Forall (fun st => 0.2 < Star.z st /\ Star.z st <= 4.0) (starsRef s')).
Proof.
  split; [| split; [| split]].
  - intros W H s.
    destruct (initStars_ranges W H s w) as (s' & w' & E & _ & _ & Hd & _ & _).
    exists s', w'. auto.
  - intros cw ch star Hz.
    destruct (drift_spec cw ch star w) as (star' & w' & E & Hd & _).
    exists star', w'. split; [exact E |].
    destruct (drifted_depth _ _ _ _ _ Hd Hz) as [H1 H2].
    split; [exact H1 |]. split; [exact H2 |].
    unfold drifted, driftSpeed in Hd.
    destruct (Qle_bool (Star.z star - 0.002) 0.2) eqn:Eb.
    + apply Qle_bool_iff in Eb. destruct Hd as (i & j & ->). cbn. split.
      * intros _. split; [reflexivity |]. split; [reflexivity |].
        exists (entropy w i), (entropy w j).
        destruct (Hw i), (Hw j). repeat split; auto.
      * intros Hgt. exfalso. lra.
    + apply Qle_bool_gt in Eb. subst star'. cbn. split.
      * intros Hle. exfalso. lra.
      * intros _. repeat split.
  - intros canvas container events.
    destruct (mount_invariants canvas container w)
      as (s0 & w0 & E0 & He0 & _ & _ & _ & Hd0 & _).
    destruct (run_invariants Math_sin Math_cos Math_hypot events s0 w0)
      as (s1 & w1 & E1 & _ & _ & _ & Hd1 & _).
    exists s1, w1. split; [unfold bind; rewrite E0; exact E1 |].
    apply Hd1; [eapply unit_interval_entropy; eassumption | auto].
  - intros time s Ha Hok.
    destruct (animate_renders Math_sin Math_cos time s w Ha)
      as (s' & w' & E & Hr).
    exists s', w'. split; [exact E |].
    exact (rendered_depths _ _ _ _ Hr Hok).
Qed.

(** C7. Starting from the target zoom 1, after any sequence of events the
    target zoom lies in [[0.5, 5.0]]: a wheel event adds [-deltaY * 0.001]
    and a two-finger move adds the change of the finger distance times
    0.008, each clamped to that interval; a wheel event with deltaY = -100
    at target zoom 1 gives 1.1. *)
Theorem target_zoom_clamped :
  (forall canvas container events w,
     exists s w',
       (s0 <- mount canvas container ;;
        run Math_sin Math_cos Math_hypot events s0) w = Ok s w'
       /\ 0.5 <= targetZoomRef s /\ targetZoomRef s <= 5.0)
  /\ (forall deltaY s,
       targetZoomRef (handleWheel deltaY s)
       = Qmax 0.5 (Qmin 5.0 (targetZoomRef s + - deltaY * 0.001)))
  /\ (forall t1 t2 s last,
       lastTouchDistRef s = Some last ->
       targetZoomRef (handleTouchMove Math_hypot [t1; t2] s)
       = Qmax 0.5 (Qmin 5.0
           (targetZoomRef s
            + (Math_hypot (fst t1 - fst t2) (snd t1 - snd t2) - last) * 0.008)))
  /\ (forall canvas container w,
       exists s w',
         mount canvas container w = Ok s w'
         /\ targetZoomRef s = 1
         /\ targetZoomRef (handleWheel (-100) s) == Qmin 5.0 (1 + 0.1)
         /\ targetZoomRef (handleWheel (-100) s) == 1.1).
Proof.
  split; [| split; [| split]].
  - intros canvas container events w.
    destruct (mount_invariants canvas container w)
      as (s0 & w0 & E0 & _ & _ & Hz0 & _).
    destruct (run_invariants Math_sin Math_cos Math_hypot events s0 w0)
      as (s1 & w1 & E1 & _ & _ & Hz1 & _).
    exists s1, w1. split; [unfold bind; rewrite E0; exact E1 |].
    apply Hz1, Hz0.
  - reflexivity.
  - intros t1 t2 s last E. unfold handleTouchMove. rewrite E. reflexivity.
  - intros canvas container w.
    destruct (mount_invariants canvas container w)
      as (s0 & w0 & E0 & _ & _ & _ & Hz & _).
    exists s0, w0. split; [exact E0 |]. split; [exact Hz |].
    unfold handleWheel. cbn. rewrite Hz. split; vm_compute; reflexivity.
Qed.

(** C8, what the code does instead.  A star that the drift has just
    recycled (opacity 0) never fades in: however many frames follow, its
    opacity stays within one twinkle step of 0, below the bound 0.2 the
    twinkle is meant to bounce on. *)
Theorem recycled_star_stays_dark (e : nat -> Q) (cw ch : Q)
    (star star1 star' : Star.t)
    (Hspeed : Qabs (Star.twinkleSpeed star) < 0.2)
    (Hnear : Star.z star - driftSpeed <= 0.2)
    (Hdrift : drifted e cw ch star star1)
    (Hlater : later_frames e cw ch (twinkle star1) star') :
  Star.opacity star1 = 0
  /\ Qabs (Star.opacity star') <= Qabs (Star.twinkleSpeed star)
  /\ Star.opacity star' < 0.2.
Proof.
  pose proof (Qabs_nonneg (Star.twinkleSpeed star)) as Hm0.
  pose proof (recycled_dark e cw ch star star1 Hnear Hdrift) as Hd1.
  assert (Hd : dark (Qabs (Star.twinkleSpeed star)) star')
    by (eapply later_frames_dark; eauto using twinkle_dark).
  destruct (dark_opacity _ _ Hm0 Hd) as [Hlo Hhi].
  split; [| split].
  - unfold drifted in Hdrift. apply Qle_bool_iff in Hnear.
    rewrite Hnear in Hdrift. destruct Hdrift as (i & j & ->). reflexivity.
  - apply Qabs_Qle_condition. split; assumption.
  - lra.
Qed.

(** C9, as the code has it.  A spawn attempt returns, and when it creates
    a connection ([Math.random()] in [[0, 1)]): the attempt was decided by a
    random number below 0.03, the start star is a star of depth in
    (0.5, 3.0), the end star is one of the twenty candidates drawn, it
    qualifies (another star than the start star, squared distance of the
    stored x, y below 50000 times the start depth, depth difference below
    0.5) and no qualifying candidate is nearer by that distance, and the
    connection has life 0, state growing and maxLife in [[0.6, 1.0]].  When
    no candidate qualifies, nothing is created. *)
Theorem spawn_attempt (stars : list Star.t) (connections : list Connection.t)
    (w : World) (Hw : unit_interval w) :
  exists connections' w',
    spawnConnection stars connections w = Ok connections' w'
    /\ (connections' = connections
        \/ exists c, connections' = connections ++ [c]
             /\ spawned w stars c
             /\ 0.6 <= Connection.maxLife c /\ Connection.maxLife c <= 1.0)
    /\ (forall start,
          lookup stars (randomIndex (entropy w (drawn w + 1)) stars) = Some start ->
          (forall j, In j (candidates (skip 2 w) stars 20) ->
             ~ qualifies stars (randomIndex (entropy w (drawn w + 1)) stars) start j) ->
          connections' = connections).
Proof.
  destruct (spawnConnection_spec stars connections w)
    as (conns' & w' & E & Hc & Hnone & _).
  exists conns', w'. split; [exact E |]. split; [| exact Hnone].
  destruct Hc as [-> | (c & -> & Hs)]; [left; reflexivity |].
  right. exists c. split; [reflexivity |]. split; [exact Hs |].
  destruct Hs as (_ & _ & start & _ & _ & _ & _ & _ & _ & _ & _ & _ & Hm).
  rewrite Hm. destruct (Hw (drawn w + 22)%nat). split; lra.
Qed.

End Claims.

(** ** The planet point cloud *)

Section PlanetFacts.

Import Planet.
Local Open Scope R_scope.

Lemma INR_numPoints : INR numPoints = 1400.
Proof.
  unfold numPoints. rewrite INR_IZR_INZ.
  change (Z.of_nat 1400) with 1400%Z. reflexivity.
Qed.

Lemma initPlanet_length W H rnd : length (initPlanet W H rnd) = 1400%nat.
Proof. unfold initPlanet. rewrite length_map, length_seq. reflexivity. Qed.

Lemma initPlanet_nth W H rnd i :
  (i < 1400)%nat ->
  nth_error (initPlanet W H rnd) i
  = Some (newPoint (Rmin W H * 0.30) i (rnd i)).
Proof.
  intros Hi. unfold initPlanet.
  rewrite nth_error_map, nth_error_seq.
  destruct (Nat.ltb_spec i numPoints) as [_ | Hge];
    [reflexivity | unfold numPoints in Hge; lia].
Qed.

Lemma initPlanet_In W H rnd p :
  In p (initPlanet W H rnd) ->
  exists i, (i < 1400)%nat /\ p = newPoint (Rmin W H * 0.30) i (rnd i).
Proof.
  unfold initPlanet. intros Hin. apply in_map_iff in Hin.
  destruct Hin as (i & <- & Hi). apply in_seq in Hi.
  exists i. split; [unfold numPoints in Hi; lia | reflexivity].
Qed.

(** The height of the point of index [i] on the unit sphere is in [[-1, 1]]. *)
Lemma height_bounds i :
  (i < 1400)%nat ->
  let y := 1 - (INR i / (INR numPoints - 1)) * 2 in
  0 <= 1 - y * y.
Proof.
  intros Hi y. subst y. rewrite INR_numPoints.
  assert (H0 : 0 <= INR i) by apply pos_INR.
  assert (H1 : INR i <= 1399).
  { replace 1399 with (INR 1399)
      by (rewrite INR_IZR_INZ; change (Z.of_nat 1399) with 1399%Z; reflexivity).
    apply le_INR. lia. }
  set (t := INR i / (1400 - 1)).
  assert (Ht : 0 <= t <= 1).
  { unfold t. split.
    - apply Rmult_le_pos; [exact H0 | apply Rlt_le, Rinv_0_lt_compat; lra].
    - apply Rmult_le_reg_r with (r := 1400 - 1); [lra |].
      unfold Rdiv. rewrite Rmult_assoc, Rinv_l by lra. lra. }
  nra.
Qed.

Lemma newPoint_spec W H i rnd :
  base (newPoint (Rmin W H * 0.30) i rnd) = spec_point W H i
  /\ (x (newPoint (Rmin W H * 0.30) i rnd),
      y (newPoint (Rmin W H * 0.30) i rnd),
      z (newPoint (Rmin W H * 0.30) i rnd))
     = base (newPoint (Rmin W H * 0.30) i rnd).
Proof.
  split; [| reflexivity].
  unfold base, newPoint, spec_point, phi. cbn [baseX baseY baseZ].
  rewrite INR_numPoints.
  replace (INR 1400) with 1400
    by (rewrite INR_IZR_INZ; change (Z.of_nat 1400) with 1400%Z; reflexivity).
  replace (1 - 2 * INR i / (1400 - 1)) with (1 - INR i / (1400 - 1) * 2)
    by (field; lra).
  replace ((1 - INR i / (1400 - 1) * 2) ^ 2)
    with ((1 - INR i / (1400 - 1) * 2) * (1 - INR i / (1400 - 1) * 2))
    by ring.
  replace (INR i * (PI * (3 - sqrt 5))) with (PI * (3 - sqrt 5) * INR i)
    by ring.
  replace (0.30 * Rmin W H) with (Rmin W H * 0.30) by ring.
  reflexivity.
Qed.

Lemma newPoint_norm radius i rnd :
  (i < 1400)%nat ->
  norm (base (newPoint radius i rnd)) = Rabs radius.
Proof.
  intros Hi. pose proof (height_bounds i Hi) as Hy. cbv zeta in Hy.
  unfold norm, base, newPoint. cbn [baseX baseY baseZ].
  set (yy := 1 - INR i / (INR numPoints - 1) * 2) in *.
  set (th := phi * INR i).
  pose proof (sqrt_sqrt _ Hy) as Hr.
  pose proof (sin2_cos2 th) as Hsc. unfold Rsqr in Hsc.
  set (r := sqrt (1 - yy * yy)) in *.
  replace (cos th * r * radius * (cos th * r * radius)
           + yy * radius * (yy * radius)
           + sin th * r * radius * (sin th * r * radius))
    with (Rsqr radius).
  - apply sqrt_Rsqr_abs.
  - unfold Rsqr.
    transitivity (radius * radius
                  * ((r * r) * (sin th * sin th + cos th * cos th) + yy * yy));
      [| ring].
    rewrite Hsc, Hr. ring.
Qed.

(** C6. For every surface, [initPlanet] produces exactly 1400 points; the
    base position of the point of index [i], which is also its initial
    position, is the Fibonacci-sphere formula of the specification scaled
    by the radius 0.30 min(W, H); and its Euclidean norm is that radius
    (its absolute value, should a dimension be negative). *)
Theorem initPlanet_fibonacci_sphere :
  forall (W H : R) (rnd : nat -> R),
    length (initPlanet W H rnd) = 1400%nat
    /\ (forall i, (i < 1400)%nat ->
          exists p, nth_error (initPlanet W H rnd) i = Some p
            /\ base p = spec_point W H i
            /\ (x p, y p, z p) = base p
            /\ norm (base p) = Rabs (0.30 * Rmin W H)
            /\ (0 <= W -> 0 <= H -> norm (base p) = 0.30 * Rmin W H)).
Proof.
  intros W H rnd. split; [apply initPlanet_length |].
  intros i Hi. eexists. split; [apply initPlanet_nth, Hi |].
  destruct (newPoint_spec W H i (rnd i)) as [Hb Hx].
  split; [exact Hb |]. split; [exact Hx |].
  assert (Hn : norm (base (newPoint (Rmin W H * 0.30) i (rnd i)))
               = Rabs (0.30 * Rmin W H)).
  { rewrite newPoint_norm by exact Hi. f_equal. ring. }
  split; [exact Hn |].
  intros HW HH. rewrite Hn. apply Rabs_pos_eq.
  apply Rmult_le_pos; [lra | apply Rmin_glb; assumption].
Qed.

Lemma rotate_norm rotation p : norm (rotate rotation p) = norm (base p).
Proof.
  unfold norm, rotate, base.
  pose proof (sin2_cos2 rotation) as Hsc. unfold Rsqr in Hsc.
  f_equal.
  transitivity ((baseX p * baseX p + baseZ p * baseZ p)
                * (sin rotation * sin rotation + cos rotation * cos rotation)
                + baseY p * baseY p); [ring |].
  rewrite Hsc. ring.
Qed.

(** C10. The rotation of a frame preserves the Euclidean norm of every
    planet point, for every angle; so every rotated point of the cloud that
    [initPlanet] generates lies on the sphere of radius 0.30 min(W, H). *)
Theorem rotation_is_isometry :
  (forall (rotation : R) (p : PlanetPoint),
     norm (rotate rotation p) = norm (base p))
  /\ (forall (W H : R) (rnd : nat -> R) (rotation : R) (p : PlanetPoint),
        0 <= W -> 0 <= H ->
        In p (initPlanet W H rnd) ->
        norm (rotate rotation p) = 0.30 * Rmin W H).
Proof.
  split; [exact rotate_norm |].
  intros W H rnd rotation p HW HH Hin.
  destruct (initPlanet_In W H rnd p Hin) as (i & Hi & ->).
  rewrite rotate_norm, newPoint_norm by exact Hi.
  replace (Rmin W H * 0.30) with (0.30 * Rmin W H) by ring.
  apply Rabs_pos_eq.
  apply Rmult_le_pos; [lra | apply Rmin_glb; assumption].
Qed.

End PlanetFacts.

(** * The properties at sample inputs *)

Lemma zero_first_world_unit : unit_interval zero_first_world.
Proof. intros [|n]; cbn; split; lra. Qed.

(** C2 at a sample connection: it grows by 0.04, and the frame keeps it. *)
Lemma connection_life_cycle_witness :
  (Connection.life (stepLife sample_connection)
   = Connection.life sample_connection + 0.04
   /\ Connection.life sample_connection
      < Connection.life (stepLife sample_connection))
  /\ exists w',
       connectionLoop sample_view sample_stars 1 [sample_connection] sample_world
       = Ok (filter (fun c => Qltb 0 (Connection.life c))
               (map stepLife [sample_connection])) w'.
Proof.
  destruct connection_life_cycle as (Hg & _ & _ & _ & _ & Hloop & _).
  split.
  - destruct (Hg sample_connection eq_refl) as (H1 & H2 & _). split; assumption.
  - apply (Hloop sample_view sample_stars [sample_connection] sample_world).
    constructor; [| constructor]. split; split; cbn; lia.
Defined.

(** C3 at a scene whose canvas has no 2D context: the frame changes
    nothing and requests no frame. *)
Lemma animate_without_surface_stops_witness :
  animate sample_sin sample_cos 16
    (initialScene (Some blind_canvas) (Some sample_container)) sample_world
  = Ok (initialScene (Some blind_canvas) (Some sample_container)) sample_world.
Proof.
  apply (proj1 (animate_without_surface_stops sample_sin sample_cos sample_hypot)).
  reflexivity.
Defined.

(** The claim C3 as it is stated fails: mount a canvas without a 2D context;
    the effect has requested one animation frame; when it comes, the frame
    aborts, the scene is as it was and no animation frame is pending any
    more, so nothing is retried on the next tick. *)
Lemma frame_loop_ends_without_context :
  exists s0 w0 w',
    mount (Some blind_canvas) (Some sample_container) zero_first_world
    = Ok s0 w0
    /\ surface_available s0 = false
    /\ frames w0 = [1%Z]
    /\ run sample_sin sample_cos sample_hypot
         [AnimationFrame 16; AnimationFrame 32] s0 w0 = Ok s0 w'
    /\ frames w' = [].
Proof.
  destruct (mount_invariants (Some blind_canvas) (Some sample_container)
              zero_first_world)
    as (s0 & w0 & E0 & _ & _ & _ & _ & _ & _ & Hf & Hcv).
  cbn in Hf, Hcv.
  assert (Ha : surface_available s0 = false)
    by (unfold surface_available; rewrite Hcv; reflexivity).
  exists s0, w0. eexists. split; [exact E0 |]. split; [exact Ha |].
  split; [exact Hf |].
  cbn [run dispatch]. unfold bind, takeFrame. rewrite Hf.
  rewrite animate_aborts by exact Ha. cbn.
  split; reflexivity.
Qed.

(** C5 at a sample browser. *)
Lemma star_depth_range_witness :
  unit_interval sample_world
  /\ exists s' w',
       initStars 1000 800 (initialScene None None) sample_world = Ok s' w'
       /\ Forall (fun st => 0.2 <= Star.z st /\ Star.z st < 4.0) (starsRef s').
Proof.
  assert (Hw : unit_interval sample_world)
    by (intros [|[|n]]; cbn; split; lra).
  split; [exact Hw |].
  exact (proj1 (star_depth_range sample_sin sample_cos sample_hypot
                  sample_world Hw)
           1000 800 (initialScene None None)).
Defined.

(** The claim C5 as it is stated fails right after generation: when
    [Math.random()] returns 0 for the depth of the first star, [initStars]
    gives it the depth 0.2 itself, which is not inside (0.2, 4.0]. *)
Lemma initStars_depth_at_lower_end :
  unit_interval zero_first_world
  /\ exists s' w' star,
       initStars 100 100 (initialScene None None) zero_first_world = Ok s' w'
       /\ nth_error (starsRef s') 0 = Some star
       /\ Star.z star == 0.2
       /\ ~ (0.2 < Star.z star).
Proof.
  split; [exact zero_first_world_unit |].
  unfold initStars.
  change (repeatM (Z.to_nat (starCount 100 100)) (newStar 100 100))
    with (a <- newStar 100 100 ;;
          l <- repeatM 599 (newStar 100 100) ;; ret (a :: l)).
  unfold bind at 1 2.
  destruct (newStar 100 100 zero_first_world) as [st w1 | e] eqn:E1;
    [| vm_compute in E1; discriminate].
  assert (Hz : Star.z st == 0.2).
  { vm_compute in E1. injection E1 as <- _. reflexivity. }
  destruct (total_repeatM (newStar 100 100) 599 (total_newStar 100 100) w1 I)
    as (l & w' & E & _).
  exists (set_stars (initialScene None None) (st :: l)), w', st.
  unfold bind, ret. rewrite E. split; [reflexivity |].
  split; [reflexivity |]. split; [exact Hz |].
  rewrite Hz. apply Qle_not_lt. apply Qle_refl.
Qed.

(** C1 at a sample list: a connection whose end star does not exist is
    dropped by the loop, which returns. *)
Lemma resize_clears_connections_witness :
  exists w',
    connectionLoop sample_view sample_stars 1 [stale_connection] sample_world
    = Ok (survivors sample_stars [stale_connection]) w'
    /\ survivors sample_stars [stale_connection] = [].
Proof.
  destruct (proj2 (proj2 (resize_clears_connections
                            sample_sin sample_cos sample_hypot))
              sample_view sample_stars [stale_connection] sample_world)
    as (w' & E & _).
  exists w'. split; [exact E | reflexivity].
Defined.

(** C7 at a sample pinch: the fingers move from 100 to 150 apart and the
    target zoom goes from 1 to 1.4. *)
Lemma target_zoom_clamped_witness :
  targetZoomRef (handleTouchMove sample_hypot [(0, 0); (150, 0)] pinching_scene)
  == 1.4.
Proof.
  refine (eq_ind _ (fun v => v == 1.4) _ _
            (eq_sym (proj1 (proj2 (proj2 (target_zoom_clamped
                                            sample_sin sample_cos sample_hypot)))
                       (0, 0) (150, 0) pinching_scene 100 eq_refl))).
  vm_compute. reflexivity.
Defined.

(** The twinkle at the recycled sample star: the opacity alternates between
    0.01 and 0. *)
Lemma twinkle_recycled_star (n : nat) :
  dark 0.01 (iter n twinkle recycled_star).
Proof.
  induction n as [|n IH].
  - left. cbn. split; [reflexivity | left; reflexivity].
  - cbn [iter]. apply twinkle_dark; [lra | lra | exact IH].
Qed.

(** C8 at the failing input: the star recycled from [near_star]. *)
Lemma recycled_star_stays_dark_witness :
  Star.opacity recycled_star = 0
  /\ Qabs (Star.opacity (twinkle recycled_star))
     <= Qabs (Star.twinkleSpeed near_star)
  /\ Star.opacity (twinkle recycled_star) < 0.2.
Proof.
  apply (recycled_star_stays_dark (fun _ => 0.5) 1000 800
           near_star recycled_star (twinkle recycled_star)).
  - vm_compute. reflexivity.
  - vm_compute. discriminate.
  - unfold drifted.
    replace (Qle_bool (Star.z near_star - driftSpeed) 0.2) with true
      by (vm_compute; reflexivity).
    exists 0%nat, 0%nat. reflexivity.
  - apply later_now.
Defined.

(** C9 at a sample browser: the attempt is made, it starts at star 0, the
    candidates are star 1, which qualifies, and a connection is created. *)
Lemma spawn_attempt_witness :
  unit_interval sample_world
  /\ exists connections' w',
       spawnConnection sample_stars [] sample_world = Ok connections' w'
       /\ length connections' = 1%nat
       /\ (connections' = []
           \/ exists c, connections' = [] ++ [c]
                /\ spawned sample_world sample_stars c
                /\ 0.6 <= Connection.maxLife c /\ Connection.maxLife c <= 1.0).
Proof.
  assert (Hw : unit_interval sample_world)
    by (intros [|[|n]]; cbn; split; lra).
  split; [exact Hw |].
  destruct (spawn_attempt sample_stars [] sample_world Hw)
    as (connections' & w' & E & Hc & _).
  exists connections', w'. split; [exact E |]. split; [| exact Hc].
  vm_compute in E. injection E as <- _. reflexivity.
Defined.

(** The claim C9 as it is stated fails: the distance the attempt compares
    is not the distance on the screen.  Of the candidates the attempt
    examines here, star 2 is nearer on the screen than star 1 and it passes
    both tests with the distance on the screen, yet the connection goes to
    star 1, the nearer one by the stored coordinates.  (The start star is
    drawn as a candidate too, at distance 0 from itself; the attempt skips
    it.) *)
Lemma spawn_ignores_screen_distance :
  unit_interval crossing_world
  /\ exists c w' start near far,
       spawnConnection crossing_stars [] crossing_world = Ok [c] w'
       /\ lookup crossing_stars (Connection.startIdx c) = Some start
       /\ Connection.endIdx c = 1%Z
       /\ lookup crossing_stars 1 = Some near
       /\ lookup crossing_stars 2 = Some far
       /\ In 2%Z (candidates (skip 2 crossing_world) crossing_stars 20)
       /\ screen_dist2 sample_view start far < 50000 * Star.z start
       /\ Qabs (Star.z start - Star.z far) < 0.5
       /\ screen_dist2 sample_view start far < screen_dist2 sample_view start near
       /\ dist2 start near < dist2 start far
       /\ In (Connection.startIdx c)
            (candidates (skip 2 crossing_world) crossing_stars 20).
Proof.
  split; [intros [|[|[|[|n]]]]; cbn; split; lra |].
  destruct (spawnConnection crossing_stars [] crossing_world)
    as [conns w' | e] eqn:E; [| vm_compute in E; discriminate].
  assert (Hc : exists c, conns = [c] /\ Connection.startIdx c = 0%Z
                         /\ Connection.endIdx c = 1%Z).
  { vm_compute in E. injection E as <- _. eexists. repeat split. }
  destruct Hc as (c & -> & Hs & He).
  exists c, w', (sample_star 0 0 1 0.5 0.01),
    (sample_star 100 0 0.6 0.5 0.01), (sample_star 110 0 1.4 0.5 0.01).
  rewrite Hs, He.
  split; [reflexivity |]. split; [reflexivity |]. split; [reflexivity |].
  split; [reflexivity |]. split; [reflexivity |].
  split; [right; right; left; reflexivity |].
  split; [vm_compute; reflexivity |]. split; [vm_compute; reflexivity |].
  split; [vm_compute; reflexivity |]. split; [vm_compute; reflexivity |].
  right; left; reflexivity.
Qed.

(** The stroke of a connection ends where [project] puts its two stars. *)
Lemma stroke_ends_are_projections :
  exists w',
    connectionLoop sample_view sample_stars 1 [sample_connection] sample_world
    = Ok [stepLife sample_connection] w'
    /\ map (fun s => ((x1 s, y1 s), (x2 s, y2 s))) (strokes w')
       = [ (project sample_view (sample_star 0 0 1 0.5 0.01),
            project sample_view (sample_star 10 0 1.2 0.6 (-0.004))) ].
Proof.
  eexists. split; vm_compute; reflexivity.
Qed.

Section PlanetSamples.

Import Planet.
Local Open Scope R_scope.

(** C6 on a 1000 x 800 surface: the first point lies on the sphere. *)
Lemma initPlanet_fibonacci_sphere_witness :
  exists p,
    nth_error (initPlanet 1000 800 (fun _ => 0)) 0 = Some p
    /\ norm (base p) = 0.30 * Rmin 1000 800.
Proof.
  destruct (proj2 (initPlanet_fibonacci_sphere 1000 800 (fun _ => 0))
              0%nat ltac:(lia))
    as (p & E & _ & _ & _ & Hn).
  exists p. split; [exact E | apply Hn; lra].
Defined.

(** C10 on a 1000 x 800 surface: the first point, turned by one radian. *)
Lemma rotation_is_isometry_witness :
  norm (rotate 1 (newPoint (Rmin 1000 800 * 0.30) 0 0))
  = 0.30 * Rmin 1000 800.
Proof.
  apply (proj2 rotation_is_isometry 1000 800 (fun _ => 0)); [lra | lra |].
  unfold initPlanet. apply in_map_iff. exists 0%nat.
  split; [reflexivity | apply in_seq; unfold numPoints; lia].
Defined.

End PlanetSamples.

(** * The sample computations in binary64 *)

Section Binary64Samples.

Import Floats.
Local Open Scope float_scope.

(** The scenario of C2 with the rounding of JavaScript: the sum of twenty
    times 0.04 is 0.8000000000000002, so a connection of maxLife 0.8 is
    still growing after 19 frames and holding after the 20th; and 0.8 is
    the maxLife of the random number 0.5. *)
Lemma binary64_growth_of_0_8 :
  snd (fst (iter 19 Binary64.stepLife (0, growing, 0.8))) = growing
  /\ snd (fst (iter 20 Binary64.stepLife (0, growing, 0.8))) = holding
  /\ Binary64.newMaxLife 0.5 = 0.8.
Proof. repeat split; vm_compute; reflexivity. Qed.

(** The input of the counterexample to C5: the random number 0 gives the
    depth 0.2 itself. *)
Lemma binary64_depth_of_0 :
  Binary64.newDepth 0 = 0.2 /\ (0.2 <? Binary64.newDepth 0) = false.
Proof. split; vm_compute; reflexivity. Qed.

(** The scenario of C7: 1 + 0.1 is 1.1. *)
Lemma binary64_wheel_of_minus_100 : Binary64.handleWheel (-100) 1 = 1.1.
Proof. vm_compute. reflexivity. Qed.

(** The failing input of C8: from opacity 0 with speed 0.01 the twinkle
    returns to its start after two frames, so the opacity is 0.01 or 0 for
    ever. *)
Lemma binary64_twinkle_period :
  Binary64.twinkle (0, 0.01) = (0.01, -0.01)
  /\ Binary64.twinkle (0.01, -0.01) = (0, 0.01).
Proof. split; vm_compute; reflexivity. Qed.

Lemma binary64_twinkle_dark (n : nat) :
  iter n Binary64.twinkle (0, 0.01) = (0, 0.01)
  \/ iter n Binary64.twinkle (0, 0.01) = (0.01, -0.01).
Proof.
  destruct binary64_twinkle_period as [H1 H2].
  induction n as [|n [IH | IH]]; cbn [iter].
  - left. reflexivity.
  - right. rewrite IH. exact H1.
  - left. rewrite IH. exact H2.
Qed.

End Binary64Samples.

(** * Further properties of the component *)

(** ** What [initStars] generates *)

Lemma newClusterNode_generated w0 :
  hoare (only_drawn w0) newClusterNode
    (fun node w => (unit_interval w0 -> node_generated node) /\ only_drawn w0 w).
Proof.
  unfold newClusterNode.
  apply hoare_bind_random. intros r1 H1.
  apply hoare_bind_random. intros r2 H2.
  apply hoare_bind_random. intros r3 H3.
  apply hoare_bind_random. intros r4 H4.
  apply hoare_ret. intros w Hw. split; [| exact Hw].
  intros Hu. destruct (H1 Hu), (H2 Hu), (H3 Hu), (H4 Hu).
  unfold node_generated, clusterSpread. cbn.
  repeat split; lra.
Qed.

Lemma Qfloor_range (x : Q) (n : Z) :
  0 <= x -> x < inject_Z n -> (0 <= Qfloor x < n)%Z.
Proof.
  intros H0 Hn. split.
  - change 0%Z with (Qfloor 0). apply Qfloor_resp_le, H0.
  - pose proof (Qfloor_le x) as Hf.
    assert (H : inject_Z (Qfloor x) < inject_Z n) by lra.
    unfold Qlt in H. simpl in H. lia.
Qed.

Lemma newStar_generated w0 (width height : Q) :
  hoare (only_drawn w0) (newStar width height)
    (fun st w => (unit_interval w0 -> generated width height st)
                 /\ only_drawn w0 w).
Proof.
  unfold newStar.
  apply hoare_bind_random. intros r Hr. cbv zeta.
  apply hoare_bind_random. intros rx Hrx.
  apply hoare_bind_random. intros ry Hry.
  apply hoare_bind_random. intros rc _.
  eapply hoare_bind
    with (R' := fun nodes w =>
                  (unit_interval w0 ->
                   match nodes with
                   | None => True
                   | Some l => (3 <= length l <= 5)%nat /\ Forall node_generated l
                   end) /\ only_drawn w0 w).
  - destruct (Qltb rc 0.04).
    + apply hoare_bind_random. intros rn Hrn.
      eapply hoare_bind;
        [apply (hoare_repeatM (only_drawn w0) newClusterNode
                  (fun node => unit_interval w0 -> node_generated node)),
               newClusterNode_generated |].
      intros nodes. apply hoare_ret. intros w (Hl & Hf & Hw).
      split; [| exact Hw]. intros Hu. destruct (Hrn Hu) as [Hn0 Hn1].
      assert (Hfl : (0 <= Qfloor (rn * 3) < 3)%Z)
        by (apply Qfloor_range; [lra | change (inject_Z 3) with 3; lra]).
      split; [rewrite Hl; lia |].
      eapply Forall_impl; [| exact Hf]. simpl. auto.
    + apply hoare_ret. intros w Hw. split; [auto | exact Hw].
  - intros nodes. cbv beta.
    intros w [Hnodes Hw]. revert w Hw.
    change (hoare (only_drawn w0)
      (rsize <- random ;; rbase <- random ;; ropac <- random ;;
       rspeed <- random ;; rsign <- random ;;
       ret {| Star.x := (rx - 0.5) * width * (1.5 * (r * 3.8 + 0.2));
              Star.y := (ry - 0.5) * height * (1.5 * (r * 3.8 + 0.2));
              Star.z := r * 3.8 + 0.2;
              Star.size := rsize * 1.5 + 0.5;
              Star.baseOpacity := rbase * 0.5 + 0.3;
              Star.opacity := ropac;
              Star.twinkleSpeed :=
                (rspeed * 0.01 + 0.002) * (if Qltb 0.5 rsign then 1 else -1);
              Star.clusterNodes := nodes |})
      (fun st w => (unit_interval w0 -> generated width height st)
                   /\ only_drawn w0 w)).
    apply hoare_bind_random. intros rsize Hsize.
    apply hoare_bind_random. intros rbase Hbase.
    apply hoare_bind_random. intros ropac Hopac.
    apply hoare_bind_random. intros rspeed Hs.
    apply hoare_bind_random. intros rsign _.
    apply hoare_ret. intros w Hw. split; [| exact Hw].
    intros Hu.
    destruct (Hr Hu), (Hrx Hu), (Hry Hu), (Hsize Hu), (Hbase Hu),
             (Hopac Hu), (Hs Hu).
    unfold generated.
    cbn [Star.x Star.y Star.z Star.size Star.baseOpacity Star.opacity
         Star.twinkleSpeed Star.clusterNodes].
    split; [split; lra |].
    split; [exists rx, ry; repeat split; auto |].
    split; [split; lra |]. split; [split; lra |]. split; [split; lra |].
    split; [| exact (Hnodes Hu)].
    destruct (Qltb 0.5 rsign);
      match goal with |- context [Qabs ?t] =>
        apply (Qabs_case t); intros; split; lra end.
Qed.

Lemma initStars_generated (W H : Q) (s : Scene) (w : World) :
  exists stars w',
    initStars W H s w = Ok (set_stars s stars) w'
    /\ Z.of_nat (length stars) = spec_starCount W H
    /\ (unit_interval w -> Forall (generated W H) stars)
    /\ only_drawn w w'.
Proof.
  unfold initStars.
  destruct (hoare_repeatM (only_drawn w) (newStar W H)
              (fun st => unit_interval w -> generated W H st)
              (Z.to_nat (starCount W H)) (newStar_generated w W H) w
              (only_drawn_refl w))
    as (l & w' & E & Hl & HP & Hw).
  exists l, w'. unfold bind, ret. rewrite E.
  split; [reflexivity |]. split; [| split; [| exact Hw]].
  - rewrite Hl, Z2Nat.id, starCount_clamp; [reflexivity |].
    unfold starCount. lia.
  - intros Hu. eapply Forall_impl; [| exact HP]. simpl. auto.
Qed.

(** ** Every event, case by case *)

Lemma handleResize_resized (s : Scene) (w : World) :
  ~ unmounted s ->
  exists s' w', handleResize s w = Ok s' w' /\ resized s w s' w'.
Proof.
  intros Hm. unfold handleResize, resized.
  destruct (canvasRef s) as [canvas|] eqn:Ec;
    [| exfalso; apply Hm; left; exact Ec].
  destruct (containerRef s) as [container|] eqn:Ek;
    [| exfalso; apply Hm; right; exact Ek].
  match goal with |- context [initStars ?a ?b ?s0] =>
    destruct (initStars_generated a b s0 w)
      as (stars & w1 & E1 & Hlen & Hgen & Hw1) end.
  unfold bind at 1. rewrite E1.
  match goal with |- context [initPlanetNoise ?s0] =>
    destruct (initPlanetNoise_spec s0 w1) as (noise & w2 & E2 & Hn & Hw2) end.
  rewrite E2. eexists _, _. split; [reflexivity |].
  exists canvas, container, stars, noise. cbn.
  repeat split; auto.
  - destruct Hw1 as (a & _), Hw2 as (a' & _). congruence.
  - destruct Hw1 as (_ & a & _), Hw2 as (_ & a' & _). congruence.
  - destruct Hw1 as (_ & _ & a & _), Hw2 as (_ & _ & a' & _). congruence.
  - destruct Hw1 as (_ & _ & _ & a), Hw2 as (_ & _ & _ & a'). congruence.
Qed.

Section StepFacts.

Variable Math_sin : Q -> Q.
Variable Math_cos : Q -> Q.
Variable Math_hypot : Q -> Q -> Q.

(** The frame that finds its surface, with what it makes of the look-at
    point. *)
Lemma animate_lookAt (time : Q) (s : Scene) (w : World) :
  surface_available s = true ->
  exists s' w',
    animate Math_sin Math_cos time s w = Ok s' w'
    /\ rendered w s s' w'
    /\ lookAtRef s' = lookAt_after s.
Proof.
  intros Ha.
  destruct (animate_renders Math_sin Math_cos time s w Ha)
    as (s' & w' & E & Hr).
  exists s', w'. split; [exact E |]. split; [exact Hr |].
  revert E. unfold surface_available in Ha.
  unfold animate, lookAt_after, lookTarget, viewCentre.
  destruct (canvasRef s) as [canvas|]; [| discriminate].
  rewrite Ha. cbn [negb fst snd].
  destruct (forEachM_drift (width canvas) (height canvas) (starsRef s) w)
    as (stars & w1 & E1 & _).
  destruct (spawnConnection_spec stars (connectionsRef s) w1)
    as (conns & w2 & E2 & _).
  match goal with |- context [connectionLoop ?v _ _ _] =>
    destruct (connectionLoop_survivors v stars conns w2) as (w3 & E3 & _) end.
  unfold bind at 1. rewrite E1.
  unfold bind at 1. rewrite E2.
  unfold bind at 1. rewrite E3.
  unfold bind, requestAnimationFrame, ret. cbn.
  intros E. injection E as <- _. reflexivity.
Qed.

Lemma unmounted_dec (s : Scene) : unmounted s \/ ~ unmounted s.
Proof.
  unfold unmounted.
  destruct (canvasRef s), (containerRef s); auto;
    right; intros [H | H]; discriminate.
Qed.

Lemma dispatch_stepped (e : Event) (s : Scene) (w : World) :
  exists s' w',
    dispatch Math_sin Math_cos Math_hypot e s w = Ok s' w'
    /\ stepped Math_hypot e s w s' w'.
Proof.
  destruct e as [cw ch | mx my | deltaY | touches | touches | | time];
    cbn [dispatch]; try (eexists _, _; split; [reflexivity | constructor]).
  - fold (resize_container s cw ch).
    destruct (unmounted_dec (resize_container s cw ch)) as [Hu | Hm].
    + exists (resize_container s cw ch), w.
      rewrite handleResize_unmounted by exact Hu. split; [reflexivity |].
      apply step_resize_unmounted.
      unfold unmounted, resize_container in *. cbn in Hu.
      destruct Hu as [Hu | Hu]; [left; exact Hu |].
      right. destruct (containerRef s); [discriminate | reflexivity].
    + destruct (handleResize_resized _ w Hm) as (s' & w' & E & Hr).
      exists s', w'. split; [exact E |]. apply step_resize, Hr.
  - unfold bind, takeFrame. destruct (frames w) as [|h rest] eqn:Ef.
    + exists s, w. split; [reflexivity |]. apply step_no_frame, Ef.
    + change {| entropy := entropy w; drawn := drawn w; frames := rest;
                nextHandle := nextHandle w; strokes := strokes w |}
        with {| entropy := entropy w; drawn := drawn w;
                frames := tl (h :: rest);
                nextHandle := nextHandle w; strokes := strokes w |}.
      rewrite <- Ef. fold (frame_taken w).
      destruct (surface_available s) eqn:Ea.
      * destruct (animate_lookAt time s (frame_taken w) Ea)
          as (s' & w' & E & Hr & Hl).
        exists s', w'. split; [exact E |].
        apply step_render;
          [rewrite Ef; discriminate | exact Ea | exact Hr | exact Hl].
      * exists s, (frame_taken w).
        split; [apply animate_aborts, Ea |].
        apply step_abort; [rewrite Ef; discriminate | exact Ea].
Qed.

(** A property of the scene and the browser that every step keeps holds
    after every run. *)
Lemma run_keeps (P : Scene -> World -> Prop) :
  (forall e s w s' w', P s w -> stepped Math_hypot e s w s' w' -> P s' w') ->
  forall events s w,
    P s w ->
    exists s' w',
      run Math_sin Math_cos Math_hypot events s w = Ok s' w' /\ P s' w'.
Proof.
  intros Hstep events. induction events as [|e events IH]; intros s w HP.
  - exists s, w. split; [reflexivity | exact HP].
  - destruct (dispatch_stepped e s w) as (s1 & w1 & E1 & Hs).
    destruct (IH s1 w1 (Hstep _ _ _ _ _ HP Hs)) as (s2 & w2 & E2 & HP2).
    exists s2, w2. cbn [run]. unfold bind. rewrite E1. auto.
Qed.

End StepFacts.

Lemma mount_mounted canvas container (w : World) :
  exists s w',
    mount canvas container w = Ok s w' /\ mounted canvas container w s w'.
Proof.
  unfold mount, mounted.
  destruct (unmounted_dec (initialScene canvas container)) as [Hu | Hm].
  - unfold bind. rewrite handleResize_unmounted by exact Hu.
    eexists _, _. split; [reflexivity |].
    exists (initialScene canvas container), w.
    split; [left; auto |]. repeat split.
  - destruct (handleResize_resized _ w Hm) as (s1 & w1 & E & Hr).
    unfold bind. rewrite E. eexists _, _. split; [reflexivity |].
    exists s1, w1. split; [right; exact Hr |].
    destruct Hr as (cv & ct & stars & noise & _ & _ & _ & _ & _ & _
                    & He & Hf & Hn & Hs).
    cbn. rewrite Hn. split; [reflexivity |].
    repeat split; congruence.
Qed.

Section RunFacts.

Variable Math_sin : Q -> Q.
Variable Math_cos : Q -> Q.
Variable Math_hypot : Q -> Q -> Q.

(** A property that holds once the effect has run and that every step
    keeps holds after every run of the component. *)
Lemma component_keeps (P : Scene -> World -> Prop) canvas container w :
  (forall s w', mounted canvas container w s w' -> P s w') ->
  (forall e s w s' w', P s w -> stepped Math_hypot e s w s' w' -> P s' w') ->
  forall events,
    exists s w',
      (s0 <- mount canvas container ;;
       run Math_sin Math_cos Math_hypot events s0) w = Ok s w'
      /\ P s w'.
Proof.
  intros Hmount Hstep events.
  destruct (mount_mounted canvas container w) as (s0 & w0 & E0 & Hm).
  destruct (run_keeps Math_sin Math_cos Math_hypot P Hstep events s0 w0
              (Hmount _ _ Hm)) as (s & w' & E & HP).
  exists s, w'. unfold bind. rewrite E0. auto.
Qed.

(** *** The zoom *)

Lemma stepped_zoom e s w s' w' :
  zoom_ok s /\ targetZoom_ok s ->
  stepped Math_hypot e s w s' w' ->
  zoom_ok s' /\ targetZoom_ok s'.
Proof.
  unfold zoom_ok. intros [Hz Ht] Hs. pose proof Ht as Ht'.
  unfold targetZoom_ok in Ht'.
  inversion Hs; subst; try (split; assumption).
  - match goal with H : resized _ _ _ _ |- _ =>
      destruct H as (cv & ct & stars & noise & _ & _ & -> & _) end.
    cbn. unfold targetZoom_ok. cbn. auto.
  - split; [exact Hz | apply handleWheel_zoom].
  - destruct (handleTouchStart_same Math_hypot touches s) as (_ & _ & E & _).
    unfold targetZoom_ok. rewrite E. split; [| exact Ht'].
    unfold handleTouchStart.
    destruct touches as [|t1 [|t2 [|t3 rest]]]; cbn; exact Hz.
  - split; [| apply handleTouchMove_zoom, Ht].
    unfold handleTouchMove.
    destruct touches as [|t1 [|t2 [|t3 rest]]]; cbn; try exact Hz.
    destruct (lastTouchDistRef s); cbn; exact Hz.
  - match goal with H : rendered _ _ _ _ |- _ =>
      destruct H as (cv & stars & conns & w1 & _ & _ & _ & _ & _ & _ & _ & _
                     & _ & Ez & Et & _) end.
    unfold targetZoom_ok. rewrite Ez, Et. split; [split; lra | exact Ht'].
Qed.

(** X1.  The smoothed zoom stays in the range of the target zoom: 1 at the
    start, and in [[0.5, 5.0]] after every run of the component, the frames
    taking it a tenth of the way to the target. *)
Theorem zoom_stays_in_range :
  forall canvas container events w,
    exists s w',
      (s0 <- mount canvas container ;;
       run Math_sin Math_cos Math_hypot events s0) w = Ok s w'
      /\ 0.5 <= zoomRef s /\ zoomRef s <= 5.0.
Proof.
  intros canvas container events w.
  destruct (component_keeps (fun s _ => zoom_ok s /\ targetZoom_ok s)
              canvas container w) with (events := events)
    as (s & w' & E & Hz & _).
  - intros s w' (s1 & w1 & Hcase & -> & _).
    unfold zoom_ok, targetZoom_ok.
    destruct Hcase as [(_ & -> & _) | (cv & ct & stars & noise & _ & _ & -> & _)];
      cbn; repeat split; lra.
  - intros e s0 w0 s' w'' H Hs. eapply stepped_zoom; eassumption.
  - exists s, w'. split; [exact E | exact Hz].
Qed.

(** *** The frame loop *)

Lemma removeHandle_single h : removeHandle h [h] = [].
Proof. simpl. rewrite Z.eqb_refl. reflexivity. Qed.

Lemma stepped_frame_loop e s w s' w' :
  frame_loop_ok s w -> stepped Math_hypot e s w s' w' -> frame_loop_ok s' w'.
Proof.
  unfold frame_loop_ok. intros Hl Hs.
  inversion Hs; subst; try exact Hl.
  - match goal with H : resized _ _ _ _ |- _ =>
      destruct H as (cv & ct & stars & noise & _ & _ & -> & _ & _ & _
                     & _ & Hf & _) end.
    cbn in *. rewrite Hf. exact Hl.
  - destruct touches as [|t1 [|t2 [|t3 rest]]]; cbn; exact Hl.
  - unfold handleTouchMove.
    destruct touches as [|t1 [|t2 [|t3 rest]]]; cbn; try exact Hl.
    destruct (lastTouchDistRef s); cbn; exact Hl.
  - left. cbn. destruct Hl as [Hl | Hl]; rewrite Hl; reflexivity.
  - match goal with H : rendered _ _ _ _ |- _ =>
      destruct H as (cv & stars & conns & w1 & _ & _ & _ & _ & _ & _ & _ & _
                     & _ & _ & _ & _ & _ & _ & Hr & _ & Hf & _) end.
    right. rewrite Hf, Hr. cbn.
    destruct Hl as [Hl | Hl]; rewrite Hl; reflexivity.
Qed.

(** X2.  When the browser has no animation frame pending as the component
    mounts, at most one is pending after every run, the one whose handle is
    in [requestRef]; so the clean-up of the effect, which cancels that
    handle, leaves none pending. *)
Theorem cleanup_leaves_no_frame (canvas : option Canvas)
    (container : option Container) (events : list Event) (w : World)
    (Hw : frames w = []) :
  exists s w1 w2,
    (s0 <- mount canvas container ;;
     run Math_sin Math_cos Math_hypot events s0) w = Ok s w1
    /\ (frames w1 = [] \/ frames w1 = [requestRef s])
    /\ cleanup s w1 = Ok tt w2
    /\ frames w2 = [].
Proof.
  destruct (component_keeps frame_loop_ok canvas container w)
    with (events := events) as (s & w1 & E & Hl).
  - intros s w' (s1 & w1 & _ & -> & _ & Hf & _).
    right. rewrite Hf, Hw. reflexivity.
  - apply stepped_frame_loop.
  - exists s, w1. eexists. split; [exact E |]. split; [exact Hl |].
    split; [reflexivity |]. cbn.
    destruct Hl as [-> | ->]; [reflexivity | apply removeHandle_single].
Qed.

Lemma stepped_alive e s w s' w' :
  frame_loop_alive s w -> stepped Math_hypot e s w s' w' ->
  frame_loop_alive s' w'.
Proof.
  unfold frame_loop_alive, surface_available. intros [Ha Hf] Hs.
  inversion Hs; subst; try (split; assumption).
  - match goal with H : resized _ _ _ _ |- _ =>
      destruct H as (cv & ct & stars & noise & Ec & _ & -> & _ & _ & _
                     & _ & Hf' & _) end.
    cbn in *. rewrite Ec in Ha. split; [exact Ha | rewrite Hf'; exact Hf].
  - destruct (handleTouchStart_same Math_hypot touches s) as (_ & _ & _ & E & _).
    rewrite E. split; [exact Ha |].
    destruct touches as [|t1 [|t2 [|t3 rest]]]; cbn; exact Hf.
  - destruct (handleTouchMove_same Math_hypot touches s) as (_ & _ & E & _).
    rewrite E. split; [exact Ha |].
    unfold handleTouchMove.
    destruct touches as [|t1 [|t2 [|t3 rest]]]; cbn; try exact Hf.
    destruct (lastTouchDistRef s); cbn; exact Hf.
  - unfold surface_available in *. congruence.
  - match goal with H : rendered _ _ _ _ |- _ =>
      destruct H as (cv & stars & conns & w1 & _ & _ & _ & _ & _ & _ & Ec & _
                     & _ & _ & _ & _ & _ & _ & Hr & _ & Hf' & _) end.
    rewrite Ec. split; [exact Ha |]. rewrite Hf', Hr. cbn. rewrite Hf.
    reflexivity.
Qed.

(** X3.  With a canvas that has a 2D context, and no animation frame pending
    as the component mounts, the frame loop never stalls and never piles up:
    after every run exactly one animation frame is pending, the one of
    [requestRef], and the surface is still there. *)
Theorem frame_loop_keeps_running (canvas : Canvas)
    (container : option Container) (events : list Event) (w : World)
    (Hctx : context2d canvas = true) (Hw : frames w = []) :
  exists s w',
    (s0 <- mount (Some canvas) container ;;
     run Math_sin Math_cos Math_hypot events s0) w = Ok s w'
    /\ surface_available s = true
    /\ frames w' = [requestRef s].
Proof.
  apply (component_keeps frame_loop_alive).
  - intros s w' (s1 & w1 & Hcase & -> & _ & Hf & _).
    split; [| rewrite Hf, Hw; reflexivity].
    unfold surface_available.
    destruct Hcase as [(_ & -> & _) | (cv & ct & stars & noise & Ec & _ & -> & _)];
      cbn in *; [exact Hctx |].
    injection Ec as <-. exact Hctx.
  - apply stepped_alive.
Qed.

End RunFacts.

(** ** How long a connection lasts *)

Lemma holdingLeft_mono life life' maxLife :
  life <= life' -> holdingLeft life maxLife <= holdingLeft life' maxLife.
Proof.
  intros H. unfold holdingLeft.
  assert (Qmax (life * (200 # 3))
            ((life - maxLife * 0.8) * 200 + maxLife * 0.8 * (200 # 3))
          <= Qmax (life' * (200 # 3))
               ((life' - maxLife * 0.8) * 200 + maxLife * 0.8 * (200 # 3))).
  { apply Q.max_lub.
    - eapply Qle_trans; [| apply Q.le_max_l]. lra.
    - eapply Qle_trans; [| apply Q.le_max_r]. lra. }
  lra.
Qed.

(** Every step of the life cycle takes one frame off the bound. *)
Lemma framesLeft_step c : framesLeft (stepLife c) <= framesLeft c - 1.
Proof.
  unfold framesLeft, stepLife.
  destruct (Connection.state c) eqn:Es; cbn.
  - set (life := Connection.life c). set (m := Connection.maxLife c).
    pose proof (Q.le_max_l 0 (m - life)) as H0.
    pose proof (Q.le_max_r 0 (m - life)) as H1.
    pose proof (Q.le_max_l life m) as H2.
    pose proof (Q.le_max_r life m) as H3.
    destruct (Qle_bool m (life + 0.04)) eqn:E; cbn.
    + pose proof (holdingLeft_mono (life + 0.04) (Qmax life m + 0.04) m
                    ltac:(lra)).
      lra.
    + apply Qle_bool_gt in E.
      assert (Ha : Qmax 0 (m - (life + 0.04)) <= m - life - 0.04)
        by (apply Q.max_lub; lra).
      pose proof (holdingLeft_mono (Qmax (life + 0.04) m + 0.04)
                    (Qmax life m + 0.04) m) as Hb.
      assert (Hc : Qmax (life + 0.04) m <= Qmax life m)
        by (apply Q.max_lub; lra).
      specialize (Hb ltac:(lra)). lra.
  - set (life := Connection.life c). set (m := Connection.maxLife c).
    unfold holdingLeft.
    pose proof (Q.le_max_l (life * (200 # 3))
                  ((life - m * 0.8) * 200 + m * 0.8 * (200 # 3))) as H0.
    pose proof (Q.le_max_r (life * (200 # 3))
                  ((life - m * 0.8) * 200 + m * 0.8 * (200 # 3))) as H1.
    destruct (Qltb (life - 0.005) (m * 0.8)) eqn:E; cbn.
    + lra.
    + apply Qltb_ge in E.
      assert (Qmax ((life - 0.005) * (200 # 3))
                ((life - 0.005 - m * 0.8) * 200 + m * 0.8 * (200 # 3))
              <= (life - m * 0.8) * 200 + m * 0.8 * (200 # 3) - 1)
        by (apply Q.max_lub; lra).
      lra.
  - lra.
Qed.

(** A connection that is alive has frames left. *)
Lemma framesLeft_alive c : 0 < Connection.life c -> 0 < framesLeft c.
Proof.
  intros H. unfold framesLeft.
  destruct (Connection.state c).
  - set (life := Connection.life c) in *. set (m := Connection.maxLife c).
    pose proof (Q.le_max_l 0 (m - life)).
    pose proof (Q.le_max_l life m).
    unfold holdingLeft.
    pose proof (Q.le_max_l ((Qmax life m + 0.04) * (200 # 3))
                  ((Qmax life m + 0.04 - m * 0.8) * 200
                   + m * 0.8 * (200 # 3))).
    lra.
  - unfold holdingLeft.
    pose proof (Q.le_max_l (Connection.life c * (200 # 3))
                  ((Connection.life c - Connection.maxLife c * 0.8) * 200
                   + Connection.maxLife c * 0.8 * (200 # 3))).
    lra.
  - lra.
Qed.

(** A connection as a spawn attempt creates it has at most 129 frames
    left. *)
Lemma framesLeft_new c :
  Connection.state c = growing -> Connection.life c == 0 ->
  0 <= Connection.maxLife c -> Connection.maxLife c <= 1 ->
  framesLeft c <= 129.
Proof.
  intros Es El H0 H1. unfold framesLeft. rewrite Es.
  set (life := Connection.life c) in *. set (m := Connection.maxLife c) in *.
  assert (Ha : Qmax 0 (m - life) <= m) by (apply Q.max_lub; lra).
  assert (Hb : Qmax life m <= m) by (apply Q.max_lub; lra).
  unfold holdingLeft.
  assert (Hc : Qmax ((Qmax life m + 0.04) * (200 # 3))
                 ((Qmax life m + 0.04 - m * 0.8) * 200 + m * 0.8 * (200 # 3))
               <= 102) by (apply Q.max_lub; lra).
  lra.
Qed.

Lemma stepLife_maxLife c :
  Connection.maxLife (stepLife c) = Connection.maxLife c.
Proof. unfold stepLife. destruct (Connection.state c); reflexivity. Qed.

(** The life cycle keeps [in_cycle], and it takes at most one frame off the
    lower bound. *)
Lemma stepLife_in_cycle c :
  in_cycle c ->
  in_cycle (stepLife c)
  /\ framesAhead c - 1 <= framesAhead (stepLife c)
  /\ (Connection.life (stepLife c) <= 0 -> framesAhead (stepLife c) <= 0).
Proof.
  unfold in_cycle, framesAhead, stepLife.
  intros (Hm & Hl & Hs).
  destruct (Connection.state c) eqn:Es; cbn.
  - destruct (Qle_bool (Connection.maxLife c) (Connection.life c + 0.04))
      eqn:E; cbn.
    + apply Qle_bool_iff in E. repeat split; lra.
    + apply Qle_bool_gt in E. repeat split; lra.
  - destruct (Qltb (Connection.life c - 0.005) (Connection.maxLife c * 0.8))
      eqn:E; cbn.
    + apply Qltb_lt in E. repeat split; lra.
    + apply Qltb_ge in E. repeat split; lra.
  - repeat split; lra.
Qed.

Lemma iter_in_cycle c n :
  in_cycle c ->
  in_cycle (iter n stepLife c)
  /\ framesAhead c - inject_Z (Z.of_nat n) <= framesAhead (iter n stepLife c).
Proof.
  intros Hc. induction n as [|n [IH1 IH2]].
  - cbn [iter]. split; [exact Hc |].
    change (inject_Z (Z.of_nat 0)) with 0. lra.
  - cbn [iter].
    destruct (stepLife_in_cycle _ IH1) as (H1 & H2 & _).
    split; [exact H1 |].
    rewrite Nat2Z.inj_succ, <- Z.add_1_r, inject_Z_plus.
    change (inject_Z 1) with 1. lra.
Qed.

Lemma iter_shift {A} (f : A -> A) n a : iter n f (f a) = f (iter n f a).
Proof. induction n as [|n IH]; [reflexivity |]. cbn. rewrite IH. reflexivity. Qed.

(** A connection with at most [n] frames left is dead after [n] steps at
    the latest. *)
Lemma framesLeft_expires n c :
  framesLeft c <= inject_Z (Z.of_nat n) ->
  exists k, (k <= n)%nat /\ Connection.life (iter k stepLife c) <= 0.
Proof.
  revert c. induction n as [|n IH]; intros c H.
  - exists 0%nat. split; [lia |]. cbn [iter].
    destruct (Qlt_le_dec 0 (Connection.life c)) as [Hp | Hp]; [| exact Hp].
    apply framesLeft_alive in Hp. change (inject_Z (Z.of_nat 0)) with 0 in H.
    lra.
  - destruct (IH (stepLife c)) as (k & Hk & Hd).
    + pose proof (framesLeft_step c).
      rewrite Nat2Z.inj_succ, <- Z.add_1_r, inject_Z_plus in H.
      change (inject_Z 1) with 1 in H. lra.
    + exists (S k). split; [lia |]. cbn [iter]. rewrite <- iter_shift.
      exact Hd.
Qed.

(** X4.  A connection lasts between 70 and 128 frames: created by a spawn
    attempt (growing, life 0, maxLife between 0.6 and 1), it is alive after
    each of the first 70 steps of its life cycle, and some step between the
    71st and the 129th takes its life to 0 or below, where the loop over the
    connections removes it. *)
Theorem connection_duration (c : Connection.t)
    (Hs : Connection.state c = growing) (Hl : Connection.life c == 0)
    (Hlo : 0.6 <= Connection.maxLife c) (Hhi : Connection.maxLife c <= 1) :
  (forall k, (1 <= k <= 70)%nat -> 0 < Connection.life (iter k stepLife c))
  /\ exists n, (71 <= n <= 129)%nat
       /\ Connection.life (iter n stepLife c) <= 0.
Proof.
  assert (Hc : in_cycle c).
  { unfold in_cycle. rewrite Hs. repeat split; lra. }
  assert (Hahead : 71 <= framesAhead c).
  { unfold framesAhead. rewrite Hs. lra. }
  assert (Hdead : forall k, (1 <= k)%nat ->
            Connection.life (iter k stepLife c) <= 0 -> (71 <= k)%nat).
  { intros [|k] Hk Hd; [lia |]. cbn [iter] in Hd.
    destruct (iter_in_cycle c k Hc) as (H1 & H2).
    destruct (stepLife_in_cycle _ H1) as (_ & H3 & H4).
    specialize (H4 Hd).
    assert (Hq : 71 <= inject_Z (Z.of_nat (S k))).
    { rewrite Nat2Z.inj_succ, <- Z.add_1_r, inject_Z_plus.
      change (inject_Z 1) with 1. lra. }
    change 71 with (inject_Z 71) in Hq. rewrite <- Zle_Qle in Hq. lia. }
  split.
  - intros k Hk.
    destruct (Qlt_le_dec 0 (Connection.life (iter k stepLife c)))
      as [Hp | Hp]; [exact Hp |].
    apply Hdead in Hp; lia.
  - destruct (framesLeft_expires 128 (stepLife c)) as (k & Hk & Hd).
    + pose proof (framesLeft_step c).
      pose proof (framesLeft_new c Hs Hl ltac:(lra) Hhi).
      change (inject_Z (Z.of_nat 128)) with 128. lra.
    + exists (S k). cbn [iter]. rewrite <- iter_shift.
      split; [| exact Hd].
      split; [| lia]. apply Hdead; [lia |].
      cbn [iter]. rewrite <- iter_shift. exact Hd.
Qed.

(** ** The connection list over a run *)

Lemma aged_weaken b b' l : b <= b' -> aged b l -> aged b' l.
Proof.
  intros Hb. induction l as [|c l IH]; [auto |].
  cbn [aged]. intros [H1 H2]. split; [lra | auto].
Qed.

Lemma aged_snoc b l c :
  aged b l -> framesLeft c <= b + 1 -> aged (b + 1) (l ++ [c]).
Proof.
  intros Hl Hc. induction l as [|a l IH].
  - cbn [app aged length]. change (inject_Z (Z.of_nat 0)) with 0.
    split; [lra | exact I].
  - destruct Hl as [H1 H2]. cbn [app aged]. split; [| auto].
    rewrite length_app, Nat.add_comm. cbn [length plus].
    rewrite Nat2Z.inj_succ, <- Z.add_1_r, inject_Z_plus.
    change (inject_Z 1) with 1. lra.
Qed.

Lemma survivors_length stars l :
  (length (survivors stars l) <= length l)%nat.
Proof.
  unfold survivors.
  eapply Nat.le_trans; [apply filter_length_le |].
  rewrite length_map. apply Nat.le_refl.
Qed.

Lemma aged_survivors stars b l :
  aged b l -> aged (b - 1) (survivors stars l).
Proof.
  induction l as [|c l IH]; [auto |].
  intros [H1 H2]. specialize (IH H2).
  change (survivors stars (c :: l))
    with (if kept stars (stepLife c)
          then stepLife c :: survivors stars l else survivors stars l).
  destruct (kept stars (stepLife c)); [| exact IH].
  cbn [aged]. split; [| exact IH].
  pose proof (framesLeft_step c).
  pose proof (survivors_length stars l) as Hlen.
  apply Nat2Z.inj_le in Hlen. rewrite Zle_Qle in Hlen. lra.
Qed.

Lemma survivors_in_cycle stars l :
  Forall in_cycle l ->
  Forall (fun c => 0 < Connection.life c /\ in_cycle c) (survivors stars l).
Proof.
  intros H. unfold survivors. apply Forall_forall. intros c Hc.
  apply filter_In in Hc. destruct Hc as [Hin Hk].
  apply in_map_iff in Hin. destruct Hin as (c0 & <- & Hin0).
  rewrite Forall_forall in H. split.
  - unfold kept in Hk.
    destruct (Qle_bool (Connection.life (stepLife c0)) 0) eqn:E;
      [discriminate |].
    apply Qle_bool_gt in E. exact E.
  - apply stepLife_in_cycle, H, Hin0.
Qed.

Lemma aged_length b l :
  0 <= b -> aged b l -> Forall (fun c => 0 < Connection.life c) l ->
  inject_Z (Z.of_nat (length l)) < b + 1.
Proof.
  destruct l as [|c l]; intros Hb Ha Hl.
  - change (inject_Z (Z.of_nat (length (@nil Connection.t)))) with 0. lra.
  - destruct Ha as [H1 _]. inversion Hl as [|? ? Hp _]; subst.
    apply framesLeft_alive in Hp.
    cbn [length]. rewrite Nat2Z.inj_succ, <- Z.add_1_r, inject_Z_plus.
    change (inject_Z 1) with 1. lra.
Qed.

Lemma spawned_in_cycle w stars c :
  unit_interval w -> spawned w stars c ->
  in_cycle c /\ framesLeft c <= 129
  /\ Connection.endIdx c <> Connection.startIdx c.
Proof.
  intros Hw (_ & _ & start & _ & _ & _ & _ & _ & Hq & _ & El & Es & Em).
  destruct (Hw (drawn w + 22)%nat) as [H0 H1].
  split; [| split].
  - unfold in_cycle. rewrite Es, El, Em. repeat split; lra.
  - apply framesLeft_new; [exact Es | rewrite El; reflexivity | |];
      rewrite Em; lra.
  - apply Hq.
Qed.

Lemma survivors_distinct stars l :
  Forall (fun c => Connection.endIdx c <> Connection.startIdx c) l ->
  Forall (fun c => Connection.endIdx c <> Connection.startIdx c)
    (survivors stars l).
Proof.
  intros H. unfold survivors. apply Forall_forall. intros c Hc.
  apply filter_In in Hc. destruct Hc as [Hin _].
  apply in_map_iff in Hin. destruct Hin as (c0 & <- & Hin0).
  rewrite Forall_forall in H.
  rewrite stepLife_startIdx, stepLife_endIdx. apply H, Hin0.
Qed.

Section ConnectionFacts.

Variable Math_sin : Q -> Q.
Variable Math_cos : Q -> Q.
Variable Math_hypot : Q -> Q -> Q.

Lemma stepped_connections e s w s' w' :
  connections_fresh s w -> stepped Math_hypot e s w s' w' ->
  connections_fresh s' w'.
Proof.
  unfold connections_fresh. intros (Hw & Ha & Hc & Hne) Hs.
  inversion Hs; subst;
    try (split; [assumption | split; [assumption | split; assumption]]).
  - match goal with H : resized _ _ _ _ |- _ =>
      destruct H as (cv & ct & stars & noise & _ & _ & -> & _ & _ & _
                     & He & _) end.
    cbn. split; [eapply unit_interval_entropy; eassumption |].
    split; [exact I | split; constructor].
  - destruct (handleTouchStart_same Math_hypot touches s) as (_ & E & _).
    rewrite E. auto.
  - destruct (handleTouchMove_same Math_hypot touches s) as (_ & E & _).
    rewrite E. auto.
  - match goal with H : rendered _ _ _ _ |- _ =>
      destruct H as (cv & stars & conns & w1 & _ & _ & Hd & Hsp & _ & Ec & _
                     & _ & _ & _ & _ & _ & _ & _ & _ & He & _) end.
    split; [eapply unit_interval_entropy; [exact He | exact Hw] |].
    rewrite Ec.
    assert (Hpre : aged 129 conns /\ Forall in_cycle conns
                   /\ Forall (fun c => Connection.endIdx c
                                       <> Connection.startIdx c) conns).
    { destruct Hsp as [-> | (c & -> & Hc0)].
      - split; [apply (aged_weaken 128); [lra | exact Ha] |].
        split; [| exact Hne].
        eapply Forall_impl; [| exact Hc]. cbn. tauto.
      - destruct (spawned_in_cycle w1 stars c) as (Hin & Hleft & Hdist);
          [| exact Hc0 |].
        { eapply unit_interval_entropy; [apply Hd | exact Hw]. }
        split; [| split].
        + apply (aged_snoc 128); [exact Ha | lra].
        + apply Forall_app. split; [| constructor; [exact Hin | constructor]].
          eapply Forall_impl; [| exact Hc]. cbn. tauto.
        + apply Forall_app. split; [exact Hne |].
          constructor; [exact Hdist | constructor]. }
    destruct Hpre as (Hold & Hcyc & Hdis). split; [| split].
    + apply (aged_weaken (129 - 1)); [lra |]. apply aged_survivors, Hold.
    + apply survivors_in_cycle, Hcyc.
    + apply survivors_distinct, Hdis.
Qed.

Lemma component_connections canvas container events w :
  unit_interval w ->
  exists s w',
    (s0 <- mount canvas container ;;
     run Math_sin Math_cos Math_hypot events s0) w = Ok s w'
    /\ connections_fresh s w'.
Proof.
  intros Hw.
  apply (component_keeps Math_sin Math_cos Math_hypot connections_fresh).
  - intros s w' (s1 & w1 & Hcase & -> & He & _).
    split; [eapply unit_interval_entropy; eassumption |].
    destruct Hcase as [(_ & -> & _) | (cv & ct & stars & noise & _ & _ & -> & _)];
      cbn; (split; [exact I | split; constructor]).
  - apply stepped_connections.
Qed.

(** X5.  The connection list stays short: whatever the events and the size of
    the surface, after every run of the component at most 128 connections
    are held (a frame adds at most one, and none lasts 129 frames). *)
Theorem connections_bounded (canvas : option Canvas)
    (container : option Container) (events : list Event) (w : World)
    (Hw : unit_interval w) :
  exists s w',
    (s0 <- mount canvas container ;;
     run Math_sin Math_cos Math_hypot events s0) w = Ok s w'
    /\ (length (connectionsRef s) <= 128)%nat.
Proof.
  destruct (component_connections canvas container events w Hw)
    as (s & w' & E & _ & Ha & Hc & _).
  exists s, w'. split; [exact E |].
  assert (Hl : inject_Z (Z.of_nat (length (connectionsRef s))) < 128 + 1).
  { apply aged_length; [lra | exact Ha |].
    eapply Forall_impl; [| exact Hc]. cbn. tauto. }
  assert (Hz : (Z.of_nat (length (connectionsRef s)) < 129)%Z).
  { rewrite Zlt_Qlt. change (inject_Z 129) with 129. lra. }
  lia.
Qed.

(** X6.  Every connection the scene holds between two events joins two different
    stars and is alive and inside its life cycle: its maxLife is between 0.6
    and 1 and its life, the one its last stroke was painted with, is above 0
    and below maxLife + 0.04; so the opacity of that stroke (life * 0.6) was
    below 0.624 and its width below 2.06 times zoom * 0.5. *)
Theorem held_connections_alive (canvas : option Canvas)
    (container : option Container) (events : list Event) (w : World)
    (Hw : unit_interval w) :
  exists s w',
    (s0 <- mount canvas container ;;
     run Math_sin Math_cos Math_hypot events s0) w = Ok s w'
    /\ Forall (fun c =>
                 Connection.endIdx c <> Connection.startIdx c
                 /\ 0 < Connection.life c
                 /\ Connection.life c < Connection.maxLife c + 0.04
                 /\ 0.6 <= Connection.maxLife c
                 /\ Connection.maxLife c <= 1
                 /\ Connection.life c * 0.6 < 0.624
                 /\ 0.5 + Connection.life c * 1.5 < 2.06)
         (connectionsRef s).
Proof.
  destruct (component_connections canvas container events w Hw)
    as (s & w' & E & _ & _ & Hc & Hne).
  exists s, w'. split; [exact E |].
  rewrite Forall_forall in *. intros c Hin.
  destruct (Hc c Hin) as (Hp & (Hm & Hm') & Hl & _).
  split; [exact (Hne c Hin) |]. repeat split; lra.
Qed.

End ConnectionFacts.

(** ** Frames and the scene *)

Section FrameFacts.

Variable Math_sin : Q -> Q.
Variable Math_cos : Q -> Q.
Variable Math_hypot : Q -> Q -> Q.

Lemma rendered_star_count w s s' w' :
  rendered w s s' w' -> length (starsRef s') = length (starsRef s).
Proof.
  intros (cv & stars & conns & w1 & _ & Hd & _ & _ & Es & _).
  rewrite Es, length_map. symmetry. eapply Forall2_length, Hd.
Qed.

Lemma stepped_star_count e s w s' w' :
  is_resize e = false -> stepped Math_hypot e s w s' w' ->
  length (starsRef s') = length (starsRef s)
  /\ canvasRef s' = canvasRef s.
Proof.
  intros He Hs. inversion Hs; subst; try discriminate; try (split; reflexivity).
  - destruct (handleTouchStart_same Math_hypot touches s) as (E & _ & _ & Ec & _).
    rewrite E, Ec. auto.
  - destruct (handleTouchMove_same Math_hypot touches s) as (E & _ & Ec & _).
    rewrite E, Ec. auto.
  - split; [eapply rendered_star_count; eassumption |].
    match goal with H : rendered _ _ _ _ |- _ =>
      destruct H as (cv & stars & conns & w1 & _ & _ & _ & _ & _ & _ & Ec & _)
    end.
    exact Ec.
Qed.

(** X7.  Stars are recycled, never added or removed: frames, pointer moves,
    wheel turns and touches leave the number of stars and the canvas as they
    are, whatever the random numbers; only a resize changes them.  So the
    indices that connections store keep their meaning between resizes. *)
Theorem star_count_changes_only_on_resize (events : list Event)
    (Hev : Forall (fun e => is_resize e = false) events) :
  forall s w,
    exists s' w',
      run Math_sin Math_cos Math_hypot events s w = Ok s' w'
      /\ length (starsRef s') = length (starsRef s)
      /\ canvasRef s' = canvasRef s.
Proof.
  induction Hev as [|e events He Hev IH]; intros s w.
  - exists s, w. repeat split.
  - destruct (dispatch_stepped Math_sin Math_cos Math_hypot e s w)
      as (s1 & w1 & E1 & Hs).
    destruct (stepped_star_count _ _ _ _ _ He Hs) as [H1 H2].
    destruct (IH s1 w1) as (s2 & w2 & E2 & H3 & H4).
    exists s2, w2. cbn [run]. unfold bind. rewrite E1.
    split; [exact E2 |]. split; congruence.
Qed.



End FrameFacts.

(** ** The stars over a run *)

Lemma generated_star_ok W H star : generated W H star -> star_ok star.
Proof.
  unfold generated, star_ok.
  intros (Hz & _ & Hs & Hb & Ho & Hv & Hn).
  pose proof (Qabs_nonneg (Star.twinkleSpeed star)).
  repeat split; try tauto; try lra.
Qed.

Lemma drifted_star_ok e cw ch star star' :
  drifted e cw ch star star' -> star_ok star -> star_ok star'.
Proof.
  unfold drifted, driftSpeed, star_ok.
  destruct (Qle_bool (Star.z star - 0.002) 0.2) eqn:E.
  - intros (i & j & ->) (Hz & Hs & Hb & Hv & Ho & H1 & H2 & Hn). cbn.
    pose proof (Qabs_nonneg (Star.twinkleSpeed star)).
    repeat split; try tauto; try lra.
  - apply Qle_bool_gt in E.
    intros -> (Hz & Hs & Hb & Hv & Ho & H1 & H2 & Hn). cbn.
    repeat split; try tauto; try lra.
Qed.

Lemma twinkle_star_ok star : star_ok star -> star_ok (twinkle star).
Proof.
  unfold star_ok, twinkle.
  intros (Hz & Hs & Hb & Hv & Ho & H1 & H2 & Hn).
  cbn [Star.x Star.y Star.z Star.size Star.baseOpacity Star.opacity
       Star.twinkleSpeed Star.clusterNodes].
  set (o := Star.opacity star) in *. set (t := Star.twinkleSpeed star) in *.
  split; [exact Hz |]. split; [exact Hs |]. split; [exact Hb |].
  assert (Ht : (0 <= t /\ Qabs t == t) \/ (t < 0 /\ Qabs t == - t)).
  { destruct (Qlt_le_dec t 0) as [Hneg | Hpos].
    - right. split; [exact Hneg |]. apply Qabs_neg. lra.
    - left. split; [exact Hpos |]. apply Qabs_pos, Hpos. }
  assert (Hopp : Qabs (- t) == Qabs t) by apply Qabs_opp.
  destruct (Qltb 1 (o + t)) eqn:E1; cbn [orb].
  - apply Qltb_lt in E1. rewrite Hopp.
    destruct Ht as [[Ht Ea] | [Ht Ea]]; rewrite Ea in *;
      repeat split; try tauto; try lra.
  - apply Qltb_ge in E1.
    destruct (Qltb (o + t) 0.2) eqn:E2.
    + apply Qltb_lt in E2. rewrite Hopp.
      destruct Ht as [[Ht Ea] | [Ht Ea]]; rewrite Ea in *;
        repeat split; try tauto; try lra.
    + apply Qltb_ge in E2.
      destruct Ht as [[Ht Ea] | [Ht Ea]]; rewrite Ea in *;
        repeat split; try tauto; try lra.
Qed.

Lemma Forall2_drifted_star_ok e cw ch stars stars' :
  Forall2 (drifted e cw ch) stars stars' ->
  Forall star_ok stars -> Forall star_ok stars'.
Proof.
  induction 1 as [|a b l l' Hd _ IH]; intros Hf; [constructor |].
  inversion Hf; subst. constructor; [| auto].
  eapply drifted_star_ok; eassumption.
Qed.

Section StarFacts.

Variable Math_sin : Q -> Q.
Variable Math_cos : Q -> Q.
Variable Math_hypot : Q -> Q -> Q.

Lemma stepped_stars_ok e s w s' w' :
  stars_ok s w -> stepped Math_hypot e s w s' w' -> stars_ok s' w'.
Proof.
  unfold stars_ok. intros (Hw & Hs) Hst.
  inversion Hst; subst; try (split; assumption).
  - match goal with H : resized _ _ _ _ |- _ =>
      destruct H as (cv & ct & stars & noise & _ & _ & -> & _ & _ & Hg
                     & He & _) end.
    cbn. split; [eapply unit_interval_entropy; eassumption |].
    eapply Forall_impl; [| exact (Hg Hw)].
    intros a. apply generated_star_ok.
  - destruct (handleTouchStart_same Math_hypot touches s) as (E & _).
    rewrite E. auto.
  - destruct (handleTouchMove_same Math_hypot touches s) as (E & _).
    rewrite E. auto.
  - match goal with H : rendered _ _ _ _ |- _ =>
      destruct H as (cv & stars & conns & w1 & _ & Hd & _ & _ & Es & _
                     & _ & _ & _ & _ & _ & _ & _ & _ & _ & He & _) end.
    split; [eapply unit_interval_entropy; [exact He | exact Hw] |].
    rewrite Es. apply Forall_map.
    eapply Forall_impl; [intros a; apply twinkle_star_ok |].
    eapply Forall2_drifted_star_ok; eassumption.
Qed.

(** X9.  Every star of the scene stays well formed, whatever the events: after
    every run of the component its depth is in [[0.2, 4.0]], its size, base
    opacity and twinkle speed are in the ranges [initStars] draws them from,
    and the twinkle has kept its opacity within one step of [[0, 1]] (so
    within [[-0.012, 1.012]]), heading back whenever it is outside. *)
Theorem stars_stay_well_formed (canvas : option Canvas)
    (container : option Container) (events : list Event) (w : World)
    (Hw : unit_interval w) :
  exists s w',
    (s0 <- mount canvas container ;;
     run Math_sin Math_cos Math_hypot events s0) w = Ok s w'
    /\ Forall star_ok (starsRef s)
    /\ Forall (fun star => -0.012 <= Star.opacity star
                           /\ Star.opacity star <= 1.012) (starsRef s).
Proof.
  destruct (component_keeps Math_sin Math_cos Math_hypot stars_ok
              canvas container w) with (events := events)
    as (s & w' & E & _ & Hs).
  - intros s w' (s1 & w1 & Hcase & -> & He & _).
    split; [eapply unit_interval_entropy; eassumption |].
    destruct Hcase as [(_ & -> & _)
                      | (cv & ct & stars & noise & _ & _ & -> & _ & _ & Hg & _)];
      cbn; [constructor |].
    eapply Forall_impl; [| exact (Hg Hw)].
    intros a. apply generated_star_ok.
  - apply stepped_stars_ok.
  - exists s, w'. split; [exact E |]. split; [exact Hs |].
    eapply Forall_impl; [| exact Hs].
    intros star (_ & _ & _ & Hv & Ho & _). lra.
Qed.

End StarFacts.

(** ** What the star loop paints *)

Lemma clamp01 (t : Q) : 0 <= Qmax 0 (Qmin 1 t) /\ Qmax 0 (Qmin 1 t) <= 1.
Proof.
  split; [apply Q.le_max_l |].
  apply Q.max_lub; [lra | apply Q.le_min_l].
Qed.

Lemma depthIntensity_range star :
  0 <= depthIntensity star /\ depthIntensity star <= 1.
Proof.
  unfold depthIntensity. split; [| apply Q.le_min_l].
  apply Q.min_glb; [lra |].
  unfold Qdiv. apply Qmult_le_0_compat; [lra |].
  apply Qinv_le_0_compat.
  destruct (Qlt_le_dec (Star.z star) 0); nra.
Qed.

Lemma nearFade_range star :
  0 <= nearFade star /\ nearFade star <= 1
  /\ (0.2 <= Star.z star -> nearFade star <= (Star.z star - 0.2) * 5).
Proof.
  unfold nearFade. split; [| split].
  - apply Q.min_glb; [lra | apply Q.le_max_l].
  - apply Q.le_min_l.
  - intros Hz. eapply Qle_trans; [apply Q.le_min_r |].
    apply Q.max_lub; lra.
Qed.

Lemma scaled_alpha (a k : Q) :
  0 <= a -> a <= 1 -> 0 <= k -> k <= 1 -> 0 <= a * k /\ a * k <= 1.
Proof. intros. split; nra. Qed.

Lemma existsb_halo_nodes v star scale nodes :
  existsb is_halo (map (drawNode v star scale) nodes) = false.
Proof. induction nodes as [|n nodes IH]; [reflexivity | exact IH]. Qed.

(** X10.  Whatever the camera and the star (of positive depth), the star loop
    paints discs the canvas accepts: every radius is at least 0.3 (0.5 for
    the star itself, above 2.25 for its halo), so [ctx.arc] and
    [createRadialGradient] are never given a negative radius, every opacity
    is between 0 and 1, and a star gives at most its halo, itself and its
    cluster nodes. *)
Theorem star_discs_well_formed (v : View) (star : Star.t)
    (Hz : 0 < Star.z star) :
  Forall (fun d => 0.3 <= discRadius d
                   /\ 0 <= paintAlpha (discPaint d)
                   /\ paintAlpha (discPaint d) <= 1
                   /\ (is_halo d = true -> 2.25 < discRadius d))
    (drawStar v star)
  /\ (length (drawStar v star)
      <= 2 + match Star.clusterNodes star with
             | Some nodes => length nodes
             | None => 0
             end)%nat.
Proof.
  unfold drawStar.
  match goal with |- context [if ?b then [] else _] => destruct b end.
  { split; [constructor | cbn; lia]. }
  cbv zeta.
  destruct (clamp01 (Star.opacity star * Star.baseOpacity star
                     * depthIntensity star * nearFade star)) as [Ha0 Ha1].
  fold (starAlpha star) in Ha0, Ha1.
  set (scale := zoom v / Star.z star).
  pose proof (Q.le_max_l 0.5 (Star.size star * scale * 0.8)) as Hr.
  split.
  - apply Forall_app. split; [| apply Forall_app; split].
    + destruct (Qltb 0.8 (depthIntensity star)); cbn [andb]; [| constructor].
      destruct (Qltb 1.0 (zoom v)) eqn:Ezoom; cbn [andb]; [| constructor].
      destruct (Qltb 0.8 (nearFade star)); [| constructor].
      apply Qltb_lt in Ezoom.
      constructor; [| constructor]. cbn.
      assert (2.25 < Qmax 0.5 (Star.size star * scale * 0.8)
                     * (4 + zoom v * 0.5)) by nra.
      destruct (scaled_alpha (starAlpha star) 0.3); lra.
    + constructor; [| constructor]. cbn.
      split; [lra |].
      destruct (Qltb 2.5 (Star.z star)); [| destruct (Qltb 1.2 (Star.z star))];
        cbn; repeat split; try lra; discriminate.
    + destruct (Star.clusterNodes star) as [nodes|]; [| constructor].
      apply Forall_map, Forall_forall. intros node _. cbn.
      split; [apply Q.le_max_l |].
      match goal with |- context [Qmax 0 (Qmin 1 ?t)] =>
        destruct (clamp01 t) end.
      repeat split; try assumption. discriminate.
  - rewrite !length_app.
    assert (Hh : forall (b : bool) (d : Disc),
              (length (if b then [d] else []) <= 1)%nat)
      by (intros [|] d; cbn; lia).
    match goal with |- context [length (if ?b then [?d] else [])] =>
      pose proof (Hh b d) end.
    destruct (Star.clusterNodes star); cbn [length];
      rewrite ?length_map; lia.
Qed.

(** X11.  Only near stars glow: a star (of positive depth) is painted with a
    halo exactly when it is on the screen, the zoom is above 1, and its depth is
    above 0.36 with a square below 1.875 (so below about 1.37). *)
Theorem halo_depth_band (v : View) (star : Star.t) (Hz : 0 < Star.z star) :
  existsb is_halo (drawStar v star) = true
  <-> (on_screen v (project v star)
       /\ 1 < zoom v
       /\ 0.36 < Star.z star
       /\ Star.z star * Star.z star < 1.875).
Proof.
  assert (Hzz : 0 < Star.z star * Star.z star) by nra.
  assert (Hd : Qltb 0.8 (depthIntensity star) = true
               <-> Star.z star * Star.z star < 1.875).
  { rewrite Qltb_lt. unfold depthIntensity. rewrite Q.min_glb_lt_iff.
    split.
    - intros [_ H].
      apply (Qmult_lt_compat_r _ _ (Star.z star * Star.z star)) in H;
        [| exact Hzz].
      assert (E : 1.5 / (Star.z star * Star.z star)
                  * (Star.z star * Star.z star) == 1.5)
        by (field; lra).
      rewrite E in H. lra.
    - intros H. split; [lra |].
      apply Qlt_shift_div_l; [exact Hzz | lra]. }
  assert (Hn : Qltb 0.8 (nearFade star) = true <-> 0.36 < Star.z star).
  { rewrite Qltb_lt. unfold nearFade.
    rewrite Q.min_glb_lt_iff, Q.max_lt_iff.
    split; [intros [_ [H | H]]; lra | intros H; split; [lra | right; lra]]. }
  unfold drawStar, on_screen, project. cbv zeta. cbn [fst snd].
  set (x := cx v + (Star.x star + offsetX v) * (zoom v / Star.z star)).
  set (y := cy v + (Star.y star + offsetY v) * (zoom v / Star.z star)).
  destruct (Qltb x (-50)) eqn:E1; cbn [orb].
  { apply Qltb_lt in E1. split; [discriminate | intros (((? & ?) & _) & _); lra]. }
  destruct (Qltb (canvasWidth v + 50) x) eqn:E2; cbn [orb].
  { apply Qltb_lt in E2. split; [discriminate | intros (((? & ?) & _) & _); lra]. }
  destruct (Qltb y (-50)) eqn:E3; cbn [orb].
  { apply Qltb_lt in E3. split; [discriminate | intros ((_ & (? & ?)) & _); lra]. }
  destruct (Qltb (canvasHeight v + 50) y) eqn:E4; cbn [orb].
  { apply Qltb_lt in E4. split; [discriminate | intros ((_ & (? & ?)) & _); lra]. }
  apply Qltb_ge in E1, E2, E3, E4.
  rewrite !existsb_app.
  assert (Hnodes : existsb is_halo
            match Star.clusterNodes star with
            | Some nodes => map (drawNode v star (zoom v / Star.z star)) nodes
            | None => []
            end = false).
  { destruct (Star.clusterNodes star); [apply existsb_halo_nodes | reflexivity]. }
  rewrite Hnodes.
  assert (Hmain : forall d, is_halo d = false -> existsb is_halo [d] = false)
    by (intros d Hd0; cbn; rewrite Hd0; reflexivity).
  rewrite Hmain, !orb_false_r.
  2:{ unfold is_halo. cbn.
      destruct (Qltb 2.5 (Star.z star)); [| destruct (Qltb 1.2 (Star.z star))];
        reflexivity. }
  destruct (Qltb 0.8 (depthIntensity star)) eqn:Ed; cbn [andb].
  2:{ split; [discriminate |]. intros (_ & _ & _ & H).
      apply Hd in H. discriminate. }
  destruct (Qltb 1.0 (zoom v)) eqn:Ezoom; cbn [andb].
  2:{ apply Qltb_ge in Ezoom. split; [discriminate |].
      intros (_ & H & _). lra. }
  destruct (Qltb 0.8 (nearFade star)) eqn:En.
  2:{ split; [discriminate |]. intros (_ & _ & H & _).
      apply Hn in H. discriminate. }
  apply Qltb_lt in Ezoom.
  split; [intros _ | reflexivity].
  split; [repeat split; lra |]. split; [lra |].
  split; [apply Hn | apply Hd]; reflexivity.
Qed.

Lemma bounded_alpha (X b dI nF : Q) :
  X <= 1.012 -> 0 <= b -> b <= 0.8 -> 0 <= dI -> dI <= 1 ->
  0 <= nF -> nF <= 1 ->
  Qmax 0 (Qmin 1 (X * b * dI * nF)) <= 0.81 * nF.
Proof.
  intros HX Hb0 Hb1 Hd0 Hd1 Hn0 Hn1.
  assert (H1 : X * b <= 0.81)
    by (destruct (Qlt_le_dec X 0); nra).
  assert (H2 : X * b * dI <= 0.81)
    by (destruct (Qlt_le_dec (X * b) 0); nra).
  apply Q.max_lub; [nra |].
  eapply Qle_trans; [apply Q.le_min_r |]. nra.
Qed.

(** X12.  Stars fade out before they are recycled: a well-formed star is never
    painted with an opacity above 0.81, and no disc of it (halo, star or
    cluster node) has an opacity above 4.05 times its distance to the near
    plane 0.2; a star that the next frame will recycle (depth at most 0.202)
    is painted with an opacity of at most 0.0081. *)
Theorem near_plane_fade (v : View) (star : Star.t) (Hok : star_ok star) :
  Forall (fun d => paintAlpha (discPaint d) <= 0.81
                   /\ paintAlpha (discPaint d) <= 4.05 * (Star.z star - 0.2))
    (drawStar v star)
  /\ (Star.z star <= 0.202 ->
      Forall (fun d => paintAlpha (discPaint d) <= 0.0081) (drawStar v star)).
Proof.
  assert (Hall : Forall (fun d => 0 <= paintAlpha (discPaint d)
                                  /\ paintAlpha (discPaint d)
                                     <= 0.81 * nearFade star)
                   (drawStar v star)).
  { destruct Hok as ((Hz0 & Hz1) & _ & (Hb0 & Hb1) & (Hv0 & Hv1) & (Ho0 & Ho1)
                     & _ & _ & Hn).
    destruct (depthIntensity_range star) as [Hd0 Hd1].
    destruct (nearFade_range star) as (Hn0 & Hn1 & _).
    assert (Ha : starAlpha star <= 0.81 * nearFade star)
      by (apply bounded_alpha; lra).
    assert (Ha0 : 0 <= starAlpha star) by apply clamp01.
    unfold drawStar.
    match goal with |- context [if ?b then [] else _] => destruct b end;
      [constructor |].
    cbv zeta.
    apply Forall_app. split; [| apply Forall_app; split].
    - match goal with |- context [if ?b then _ else _] => destruct b end;
        [| constructor].
      constructor; [| constructor]. cbn. split; lra.
    - constructor; [| constructor]. cbn.
      destruct (Qltb 2.5 (Star.z star)); [| destruct (Qltb 1.2 (Star.z star))];
        cbn; split; lra.
    - destruct (Star.clusterNodes star) as [nodes|]; [| constructor].
      destruct Hn as [_ Hnodes].
      apply Forall_map. eapply Forall_impl; [| exact Hnodes].
      intros node (_ & _ & _ & Hoff0 & Hoff1). cbn.
      split; [apply Q.le_max_l |].
      apply bounded_alpha; try lra.
      destruct (Qltb 1 (Star.opacity star + ClusterNode.opacityOffset node))
        eqn:E; [lra |].
      apply Qltb_ge in E. lra. }
  destruct (nearFade_range star) as (Hn0 & Hn1 & Hn2).
  destruct Hok as ((Hz0 & Hz1) & _).
  specialize (Hn2 Hz0).
  split.
  - eapply Forall_impl; [| exact Hall]. cbn. intros d [H0 H1]. split; lra.
  - intros Hnear. eapply Forall_impl; [| exact Hall]. cbn.
    intros d [H0 H1]. lra.
Qed.

(** ** Where the stars are put *)

(** X13.  [initStars] returns, whatever the size and the random numbers, and
    every star it makes is well formed: depth in [[0.2, 4.0)], position
    drawn from the rectangle that the frustum cuts out at that depth
    (1.5 times the surface, times the depth), size in [[0.5, 2)], base
    opacity in [[0.3, 0.8)], opacity in [[0, 1)], twinkle speed of magnitude
    in [[0.002, 0.012)], and, when it is a cluster, 3 to 5 nodes within 20
    units of it; nothing else of the scene changes. *)
Theorem initStars_contract (W H : Q) (s : Scene) (w : World)
    (Hw : unit_interval w) :
  exists s' w',
    initStars W H s w = Ok s' w'
    /\ s' = set_stars s (starsRef s')
    /\ only_drawn w w'
    /\ Z.of_nat (length (starsRef s')) = spec_starCount W H
    /\ Forall (generated W H) (starsRef s').
Proof.
  destruct (initStars_generated W H s w) as (stars & w' & E & Hl & Hg & Hd).
  exists (set_stars s stars), w'. cbn.
  split; [exact E |]. split; [reflexivity |]. split; [exact Hd |].
  split; [exact Hl | exact (Hg Hw)].
Qed.

Lemma frustum_bound (c W r x z o zm : Q) :
  0 <= r -> r < 1 -> 0 <= W -> 0 <= zm -> 0 < z ->
  x == (r - 0.5) * W * (1.5 * z) -> o == 0 ->
  c - 0.75 * W * zm <= c + (x + o) * (zm / z)
  /\ c + (x + o) * (zm / z) <= c + 0.75 * W * zm.
Proof.
  intros Hr0 Hr1 HW Hzm Hz Ex Eo.
  assert (E : (x + o) * (zm / z) == (r - 0.5) * (W * zm) * 1.5).
  { rewrite Ex, Eo. field. lra. }
  rewrite E.
  assert (0 <= W * zm) by nra.
  split; nra.
Qed.

Lemma generated_in_frustum W H v star :
  0 <= W -> 0 <= H -> 0 <= zoom v -> offsetX v == 0 -> offsetY v == 0 ->
  generated W H star -> in_frustum W H v star.
Proof.
  intros HW HH Hzm Hox Hoy ((Hz0 & _) & (rx & ry & Hrx & Hry & Ex & Ey) & _).
  unfold in_frustum, project. cbn [fst snd].
  split.
  - apply (frustum_bound (cx v) W rx); try tauto; try lra.
    rewrite Ex. reflexivity.
  - apply (frustum_bound (cy v) H ry); try tauto; try lra.
    rewrite Ey. reflexivity.
Qed.

(** X14.  The star field is laid out for the perspective: with the camera at
    rest (no parallax, no bobbing), every star that [initStars] makes, at
    whatever depth, is projected within three quarters of the surface times
    the zoom of the centre, and so is every star that the drift recycles,
    which comes back at depth 4.0 with opacity 0. *)
Theorem stars_fill_the_frustum (W H : Q) (v : View) (w : World)
    (Hw : unit_interval w) (HW : 0 <= W) (HH : 0 <= H)
    (Hzoom : 0 <= zoom v)
    (Hox : offsetX v == 0) (Hoy : offsetY v == 0) :
  (forall s, exists s' w',
     initStars W H s w = Ok s' w'
     /\ Forall (in_frustum W H v) (starsRef s'))
  /\ (forall star,
        Qle_bool (Star.z star - driftSpeed) 0.2 = true ->
        exists star' w',
          drift W H star w = Ok star' w'
          /\ in_frustum W H v star'
          /\ Star.z star' = 4.0
          /\ Star.opacity star' = 0).
Proof.
  split.
  - intros s.
    destruct (initStars_generated W H s w) as (stars & w' & E & _ & Hg & _).
    exists (set_stars s stars), w'. split; [exact E |]. cbn.
    eapply Forall_impl; [| exact (Hg Hw)].
    intros star. apply generated_in_frustum; assumption.
  - intros star Hnear.
    destruct (drift_spec W H star w) as (star' & w' & E & Hd & _).
    exists star', w'. split; [exact E |].
    unfold drifted in Hd. rewrite Hnear in Hd.
    destruct Hd as (i & j & ->). cbn.
    split; [| split; reflexivity].
    destruct (Hw i), (Hw j).
    unfold in_frustum, project. cbn [fst snd Star.x Star.y Star.z].
    split.
    + apply (frustum_bound (cx v) W (entropy w i)); lra.
    + apply (frustum_bound (cy v) H (entropy w j)); lra.
Qed.

(** ** The pinch *)

Section PinchFacts.

Variable Math_hypot : Q -> Q -> Q.






End PinchFacts.

(** ** The statistics of [HeroContent] *)

Lemma Qfloor_between (x : Q) (a b : Z) :
  inject_Z a <= x -> x < inject_Z b -> (a <= Qfloor x < b)%Z.
Proof.
  intros Ha Hb. split.
  - rewrite <- (Qfloor_Z a). apply Qfloor_resp_le, Ha.
  - pose proof (Qfloor_le x) as Hf.
    assert (H : inject_Z (Qfloor x) < inject_Z b) by lra.
    rewrite <- Zlt_Qlt in H. exact H.
Qed.

Lemma clamp_integer (lo hi : Z) (k : Z) :
  exists k', Qmax (inject_Z lo) (Qmin (inject_Z hi) (inject_Z k))
             == inject_Z k'.
Proof.
  destruct (Q.max_spec (inject_Z lo) (Qmin (inject_Z hi) (inject_Z k)))
    as [[_ E'] | [_ E']].
  - destruct (Q.min_spec (inject_Z hi) (inject_Z k)) as [[_ E] | [_ E]].
    + exists hi. rewrite E', E. reflexivity.
    + exists k. rewrite E', E. reflexivity.
  - exists lo. exact E'.
Qed.

Lemma clamp_near (lo hi x y : Q) :
  lo <= hi -> lo <= x -> x <= hi ->
  Qmin x y <= Qmax lo (Qmin hi y) /\ Qmax lo (Qmin hi y) <= Qmax x y.
Proof.
  intros Hlh Hx0 Hx1.
  destruct (Q.min_spec hi y) as [[H1 E] | [H1 E]];
    destruct (Q.max_spec lo (Qmin hi y)) as [[H2 E'] | [H2 E']];
    destruct (Q.min_spec x y) as [[H3 E3] | [H3 E3]];
    destruct (Q.max_spec x y) as [[H4 E4] | [H4 E4]];
    rewrite E', E3, E4; rewrite ?E in *; split; lra.
Qed.

Lemma updateStats_spec w0 (prev : HeroContent.Stats) :
  hoare (only_drawn w0) (HeroContent.updateStats prev)
    (fun stats w =>
       (unit_interval w0 ->
        (HeroContent.lat prev - 0.001 <= HeroContent.lat stats
         /\ HeroContent.lat stats < HeroContent.lat prev + 0.001)
        /\ (HeroContent.lng prev - 0.001 <= HeroContent.lng stats
            /\ HeroContent.lng stats < HeroContent.lng prev + 0.001)
        /\ (8000 <= HeroContent.nodes stats
            /\ HeroContent.nodes stats <= 9000)
        /\ (30 <= HeroContent.load stats /\ HeroContent.load stats <= 65)
        /\ (forall k, HeroContent.nodes prev == inject_Z k ->
            exists k', HeroContent.nodes stats == inject_Z k')
        /\ (forall k, HeroContent.load prev == inject_Z k ->
            exists k', HeroContent.load stats == inject_Z k')
        /\ (8000 <= HeroContent.nodes prev ->
            HeroContent.nodes prev <= 9000 ->
            HeroContent.nodes prev - 10 <= HeroContent.nodes stats
            /\ HeroContent.nodes stats <= HeroContent.nodes prev + 9)
        /\ (30 <= HeroContent.load prev ->
            HeroContent.load prev <= 65 ->
            HeroContent.load prev - 2 <= HeroContent.load stats
            /\ HeroContent.load stats <= HeroContent.load prev + 2))
       /\ only_drawn w0 w).
Proof.
  unfold HeroContent.updateStats.
  apply hoare_bind_random. intros r1 H1.
  apply hoare_bind_random. intros r2 H2.
  apply hoare_bind_random. intros r3 H3.
  apply hoare_bind_random. intros r4 H4.
  apply hoare_ret. intros w Hw. split; [| exact Hw].
  intros Hu. destruct (H1 Hu), (H2 Hu), (H3 Hu), (H4 Hu).
  cbn [HeroContent.lat HeroContent.lng HeroContent.nodes HeroContent.load].
  assert (Hf3 : (-10 <= Qfloor (r3 * 20 - 10) < 10)%Z)
    by (apply Qfloor_between;
        [change (inject_Z (-10)) with (-10)
        | change (inject_Z 10) with 10]; lra).
  assert (Hf4 : (-2 <= Qfloor (r4 * 5 - 2) < 3)%Z)
    by (apply Qfloor_between;
        [change (inject_Z (-2)) with (-2)
        | change (inject_Z 3) with 3]; lra).
  set (f3 := Qfloor (r3 * 20 - 10)) in *.
  set (f4 := Qfloor (r4 * 5 - 2)) in *.
  assert (Hq3 : -10 <= inject_Z f3 /\ inject_Z f3 <= 9).
  { change (-10) with (inject_Z (-10)). change 9 with (inject_Z 9).
    rewrite <- !Zle_Qle. lia. }
  assert (Hq4 : -2 <= inject_Z f4 /\ inject_Z f4 <= 2).
  { change (-2) with (inject_Z (-2)). change 2 with (inject_Z 2).
    rewrite <- !Zle_Qle. lia. }
  split; [split; lra |]. split; [split; lra |].
  split; [split; [apply Q.le_max_l | apply Q.max_lub; [lra | apply Q.le_min_l]] |].
  split; [split; [apply Q.le_max_l | apply Q.max_lub; [lra | apply Q.le_min_l]] |].
  split; [| split; [| split]].
  - intros k Ek.
    destruct (clamp_integer 8000 9000 (k + f3)) as (k' & E').
    exists k'. rewrite <- E', inject_Z_plus, Ek. reflexivity.
  - intros k Ek.
    destruct (clamp_integer 30 65 (k + f4)) as (k' & E').
    exists k'. rewrite <- E', inject_Z_plus, Ek. reflexivity.
  - intros Hlo Hhi.
    destruct (clamp_near 8000 9000 (HeroContent.nodes prev)
                (HeroContent.nodes prev + inject_Z f3)) as [Ha Hb];
      try lra.
    assert (HeroContent.nodes prev - 10
            <= Qmin (HeroContent.nodes prev)
                 (HeroContent.nodes prev + inject_Z f3))
      by (apply Q.min_glb; lra).
    assert (Qmax (HeroContent.nodes prev)
              (HeroContent.nodes prev + inject_Z f3)
            <= HeroContent.nodes prev + 9)
      by (apply Q.max_lub; lra).
    split; lra.
  - intros Hlo Hhi.
    destruct (clamp_near 30 65 (HeroContent.load prev)
                (HeroContent.load prev + inject_Z f4)) as [Ha Hb];
      try lra.
    assert (HeroContent.load prev - 2
            <= Qmin (HeroContent.load prev)
                 (HeroContent.load prev + inject_Z f4))
      by (apply Q.min_glb; lra).
    assert (Qmax (HeroContent.load prev)
              (HeroContent.load prev + inject_Z f4)
            <= HeroContent.load prev + 2)
      by (apply Q.max_lub; lra).
    split; lra.
Qed.

Lemma ticks_spec (n : nat) :
  forall (stats : HeroContent.Stats) (w : World),
    unit_interval w ->
    exists stats' w',
      HeroContent.ticks n stats w = Ok stats' w'
      /\ only_drawn w w'
      /\ (HeroContent.lat stats - 0.001 * inject_Z (Z.of_nat n)
          <= HeroContent.lat stats'
          /\ HeroContent.lat stats'
             <= HeroContent.lat stats + 0.001 * inject_Z (Z.of_nat n))
      /\ (HeroContent.lng stats - 0.001 * inject_Z (Z.of_nat n)
          <= HeroContent.lng stats'
          /\ HeroContent.lng stats'
             <= HeroContent.lng stats + 0.001 * inject_Z (Z.of_nat n))
      /\ ((8000 <= HeroContent.nodes stats /\ HeroContent.nodes stats <= 9000)
          \/ (1 <= n)%nat ->
          8000 <= HeroContent.nodes stats' /\ HeroContent.nodes stats' <= 9000)
      /\ ((30 <= HeroContent.load stats /\ HeroContent.load stats <= 65)
          \/ (1 <= n)%nat ->
          30 <= HeroContent.load stats' /\ HeroContent.load stats' <= 65)
      /\ ((exists k, HeroContent.nodes stats == inject_Z k) ->
          exists k', HeroContent.nodes stats' == inject_Z k')
      /\ ((exists k, HeroContent.load stats == inject_Z k) ->
          exists k', HeroContent.load stats' == inject_Z k').
Proof.
  induction n as [|n IH]; intros stats w Hw.
  - exists stats, w. split; [reflexivity |]. split; [apply only_drawn_refl |].
    change (inject_Z (Z.of_nat 0)) with 0.
    split; [split; lra |]. split; [split; lra |].
    split; [intros [H | H]; [exact H | lia] |].
    split; [intros [H | H]; [exact H | lia] |].
    split; auto.
  - destruct (updateStats_spec w stats w (only_drawn_refl w))
      as (s1 & w1 & E1 & H1 & Hw1).
    destruct (H1 Hw) as (Hlat & Hlng & Hnodes & Hload & Hin & Hil & _).
    assert (Hu1 : unit_interval w1)
      by (eapply unit_interval_entropy; [apply Hw1 | exact Hw]).
    destruct (IH s1 w1 Hu1)
      as (s2 & w2 & E2 & Hw2 & Hlat2 & Hlng2 & Hn2 & Hl2 & Hin2 & Hil2).
    exists s2, w2. cbn [HeroContent.ticks]. unfold bind. rewrite E1.
    split; [exact E2 |].
    split; [eapply only_drawn_trans; eassumption |].
    rewrite Nat2Z.inj_succ, <- Z.add_1_r, inject_Z_plus.
    change (inject_Z 1) with 1.
    split; [split; lra |]. split; [split; lra |].
    split; [intros _; apply Hn2; left; exact Hnodes |].
    split; [intros _; apply Hl2; left; exact Hload |].
    split.
    + intros (k & Ek). apply Hin2, (Hin k Ek).
    + intros (k & Ek). apply Hil2, (Hil k Ek).
Qed.

(** X16.  The statistics of [HeroContent] stay plausible: after any number of
    ticks of its interval, from the state it starts with, the node count is
    a whole number between 8000 and 9000, the load a whole number between 30
    and 65, and the coordinates have moved by at most 0.001 per tick. *)
Theorem stats_stay_in_range (n : nat) (w : World) (Hw : unit_interval w) :
  exists stats w',
    HeroContent.ticks n HeroContent.initialStats w = Ok stats w'
    /\ (8000 <= HeroContent.nodes stats /\ HeroContent.nodes stats <= 9000)
    /\ (30 <= HeroContent.load stats /\ HeroContent.load stats <= 65)
    /\ (exists k, HeroContent.nodes stats == inject_Z k)
    /\ (exists k, HeroContent.load stats == inject_Z k)
    /\ Qabs (HeroContent.lat stats - 34.0522)
       <= 0.001 * inject_Z (Z.of_nat n)
    /\ Qabs (HeroContent.lng stats - 118.2437)
       <= 0.001 * inject_Z (Z.of_nat n).
Proof.
  destruct (ticks_spec n HeroContent.initialStats w Hw)
    as (stats & w' & E & _ & Hlat & Hlng & Hn & Hl & Hin & Hil).
  exists stats, w'. split; [exact E |].
  cbn [HeroContent.initialStats HeroContent.lat HeroContent.lng
       HeroContent.nodes HeroContent.load] in *.
  split; [apply Hn; left; split; lra |].
  split; [apply Hl; left; split; lra |].
  split; [apply Hin; exists 8492%Z; reflexivity |].
  split; [apply Hil; exists 42%Z; reflexivity |].
  split; apply Qabs_Qle_condition; split; lra.
Qed.

(** X17.  The statistics change slowly: one tick of the interval, from
    values in range, moves the node count by at most 10, the load by at most
    2 and each coordinate by at most 0.001, whatever the random numbers. *)
Theorem stats_change_slowly (prev : HeroContent.Stats) (w : World)
    (Hw : unit_interval w)
    (Hn0 : 8000 <= HeroContent.nodes prev)
    (Hn1 : HeroContent.nodes prev <= 9000)
    (Hl0 : 30 <= HeroContent.load prev)
    (Hl1 : HeroContent.load prev <= 65) :
  exists stats w',
    HeroContent.updateStats prev w = Ok stats w'
    /\ Qabs (HeroContent.nodes stats - HeroContent.nodes prev) <= 10
    /\ Qabs (HeroContent.load stats - HeroContent.load prev) <= 2
    /\ Qabs (HeroContent.lat stats - HeroContent.lat prev) <= 0.001
    /\ Qabs (HeroContent.lng stats - HeroContent.lng prev) <= 0.001.
Proof.
  destruct (updateStats_spec w prev w (only_drawn_refl w))
    as (stats & w' & E & H & _).
  destruct (H Hw) as (Hlat & Hlng & _ & _ & _ & _ & Hsn & Hsl).
  exists stats, w'. split; [exact E |].
  specialize (Hsn Hn0 Hn1). specialize (Hsl Hl0 Hl1).
  repeat split; apply Qabs_Qle_condition; split; lra.
Qed.

(** ** The strokes of a frame *)

Lemma connectionLoop_strokes v stars pre :
  forall post w, exists w',
    connectionLoop v stars (length pre) (pre ++ post) w
      = Ok (survivors stars pre ++ post) w'
    /\ same_but_strokes w w'
    /\ strokes w'
       = strokes w ++ flat_map (stroke_of v stars) (rev (survivors stars pre)).
Proof.
  induction pre as [|c pre IH] using rev_ind; intros post w.
  - exists w. split; [reflexivity |].
    split; [apply same_but_strokes_refl |]. cbn. rewrite app_nil_r.
    reflexivity.
  - rewrite length_app, Nat.add_comm. simpl length. simpl plus.
    rewrite <- app_assoc. simpl app.
    cbn [connectionLoop]. unfold bind at 1.
    rewrite nth_error_middle. cbn [field ret].
    rewrite survivors_snoc. unfold kept.
    destruct (Qle_bool (Connection.life (stepLife c)) 0) eqn:Hlife;
      cbn [negb andb].
    { rewrite splice_app, !app_nil_r. apply IH. }
    destruct (lookup stars (Connection.startIdx (stepLife c))) as [s1|] eqn:E1;
      cbn [truthy negb orb andb].
    2:{ rewrite splice_app, !app_nil_r. apply IH. }
    destruct (lookup stars (Connection.endIdx (stepLife c))) as [s2|] eqn:E2;
      cbn [truthy negb orb andb].
    2:{ rewrite splice_app, !app_nil_r. apply IH. }
    unfold bind, field, ret. cbn beta iota.
    rewrite store_app, <- app_assoc. simpl app.
    rewrite rev_app_distr. cbn [rev app flat_map].
    unfold stroke_of at 1. rewrite E1, E2. unfold project. cbn [fst snd].
    match goal with |- context [if ?b then _ else _] => destruct b end.
    + cbn [app]. apply IH.
    + unfold stroke.
      match goal with |- context [connectionLoop _ _ _ _ ?w1] =>
        destruct (IH (stepLife c :: post) w1) as (w' & E & Hs & Hst) end.
      exists w'. split; [exact E |].
      split; [eapply same_but_strokes_trans; [| exact Hs]; repeat split |].
      rewrite Hst. cbn [strokes]. rewrite <- app_assoc. reflexivity.
Qed.

Lemma stroke_of_on_screen v stars c :
  Forall (fun st => on_screen v (x1 st, y1 st)
                    /\ alpha st = Connection.life c * 0.6)
    (stroke_of v stars c).
Proof.
  unfold stroke_of.
  destruct (lookup stars (Connection.startIdx c)) as [s1|]; [| constructor].
  destruct (lookup stars (Connection.endIdx c)) as [s2|]; [| constructor].
  cbv zeta.
  destruct (Qltb (fst (project v s1)) (-50)) eqn:E1; [constructor |].
  destruct (Qltb (canvasWidth v + 50) (fst (project v s1))) eqn:E2;
    [constructor |].
  destruct (Qltb (snd (project v s1)) (-50)) eqn:E3; [constructor |].
  destruct (Qltb (canvasHeight v + 50) (snd (project v s1))) eqn:E4;
    [constructor |].
  apply Qltb_ge in E1, E2, E3, E4.
  cbn [orb]. constructor; [| constructor].
  unfold on_screen. cbn. repeat split; assumption.
Qed.

(** X18.  What a frame paints for the connections: the loop over the connections
    never throws, and it paints exactly one line for every connection it
    keeps whose start star is within the 50 pixel margin of the screen, the
    newest connection first, from the projection of the start star to that
    of the end star, with opacity life * 0.6; connections it drops, and
    those that start off the screen (wherever they end), get no line. *)
Theorem frame_strokes (v : View) (stars : list Star.t)
    (connections : list Connection.t) (w : World) :
  exists w',
    connectionLoop v stars (length connections) connections w
    = Ok (survivors stars connections) w'
    /\ strokes w'
       = strokes w
         ++ flat_map (stroke_of v stars) (rev (survivors stars connections))
    /\ Forall (fun st => on_screen v (x1 st, y1 st))
         (flat_map (stroke_of v stars) (rev (survivors stars connections)))
    /\ (length (strokes w')
        <= length (strokes w) + length (survivors stars connections))%nat.
Proof.
  destruct (connectionLoop_strokes v stars connections [] w)
    as (w' & E & _ & Hst).
  rewrite !app_nil_r in E. exists w'. split; [exact E |].
  split; [exact Hst |].
  assert (Hall : forall l,
            Forall (fun st => on_screen v (x1 st, y1 st))
              (flat_map (stroke_of v stars) l)
            /\ (length (flat_map (stroke_of v stars) l) <= length l)%nat).
  { induction l as [|c l [IH1 IH2]]; [split; [constructor | cbn; lia] |].
    cbn [flat_map]. split.
    - apply Forall_app. split; [| exact IH1].
      eapply Forall_impl; [| apply stroke_of_on_screen]. cbn. tauto.
    - rewrite length_app. cbn [length].
      assert (length (stroke_of v stars c) <= 1)%nat; [| lia].
      unfold stroke_of.
      destruct (lookup stars (Connection.startIdx c)); [| cbn; lia].
      destruct (lookup stars (Connection.endIdx c)); [| cbn; lia].
      cbv zeta. match goal with |- context [if ?b then _ else _] =>
        destruct b end; cbn; lia. }
  destruct (Hall (rev (survivors stars connections))) as [H1 H2].
  split; [exact H1 |].
  rewrite Hst, length_app. rewrite length_rev in H2. lia.
Qed.

(** ** What the planet loop paints *)

Section PlanetDrawFacts.

Import Planet PlanetDraw.
Local Open Scope R_scope.

Lemma norm_squared (v : R * R * R) :
  fst (fst v) * fst (fst v) + snd (fst v) * snd (fst v) + snd v * snd v
  = norm v * norm v.
Proof.
  destruct v as [[a b] c]. unfold norm. cbn [fst snd].
  rewrite sqrt_sqrt; [reflexivity |]. nra.
Qed.

(** A planet point, rotated, is no further from the axis of the view than
    the radius of the planet. *)
Lemma rotated_depth W H rnd rotation p :
  0 <= W -> 0 <= H -> In p (initPlanet W H rnd) ->
  let r := Rmin W H * 0.30 in
  fst (fst (rotate rotation p)) * fst (fst (rotate rotation p))
  + snd (fst (rotate rotation p)) * snd (fst (rotate rotation p))
  + snd (rotate rotation p) * snd (rotate rotation p) = r * r
  /\ 0 <= r
  /\ - r <= snd (rotate rotation p) <= r
  /\ exists i, noise p = rnd i.
Proof.
  intros HW HH Hin r.
  destruct (initPlanet_In W H rnd p Hin) as (i & Hi & ->).
  assert (Hr : 0 <= r)
    by (apply Rmult_le_pos; [apply Rmin_glb; assumption | lra]).
  assert (Hn : norm (rotate rotation (newPoint r i (rnd i))) = r).
  { rewrite rotate_norm, newPoint_norm by exact Hi. apply Rabs_pos_eq, Hr. }
  pose proof (norm_squared (rotate rotation (newPoint r i (rnd i)))) as Hs.
  rewrite Hn in Hs.
  split; [exact Hs |]. split; [exact Hr |]. split; [| exists i; reflexivity].
  set (a := fst (fst (rotate rotation (newPoint r i (rnd i))))) in *.
  set (b := snd (fst (rotate rotation (newPoint r i (rnd i))))) in *.
  set (t := snd (rotate rotation (newPoint r i (rnd i)))) in *.
  assert (Htt : t * t <= r * r) by nra.
  split.
  - destruct (Rle_lt_dec (- r) t) as [Hle | Hlt]; [exact Hle | exfalso; nra].
  - destruct (Rle_lt_dec t r) as [Hle | Hlt]; [exact Hle | exfalso; nra].
Qed.

Lemma drawPoint_position c hr p :
  dotX (drawPoint c hr p)
  = cx c + (fst (fst (rotate (rotation c) p)) + offsetX c)
           * scaleAt c (snd (rotate (rotation c) p))
  /\ dotY (drawPoint c hr p)
     = cy c + (snd (fst (rotate (rotation c) p)) + offsetY c)
              * scaleAt c (snd (rotate (rotation c) p)).
Proof.
  unfold drawPoint, rotate. cbn [fst snd].
  match goal with |- context [Rlt_dec (sqrt ?d) hr] =>
    destruct (Rlt_dec (sqrt d) hr) end; split; reflexivity.
Qed.

(** X19.  The planet is drawn from outside and with discs the canvas accepts: on
    a surface whose smaller side is below 5333 pixels (radius below 1600),
    with a positive zoom, the perspective divisor of every point of the
    sphere is positive, so no point is divided by zero or mirrored; every
    dot has a radius of at least 0.5 and an opacity above 0 and below 1.105;
    the hover radius is between 100 and 250; and the hover never shrinks
    a dot nor dims it. *)
Theorem planet_dots_well_formed (W H : R) (rnd : nat -> R) (c : Camera)
    (p : PlanetPoint)
    (HW : 0 < W) (HH : 0 < H) (Hsize : Rmin W H * 0.30 < 1600)
    (Hzoom : 0 < zoom c) (Hrnd : forall i, 0 <= rnd i < 1)
    (Hin : In p (initPlanet W H rnd)) :
  100 <= hoverRadius (Rmin W H) <= 250
  /\ 0 < planetZ + snd (rotate (rotation c) p) * 0.001
  /\ 0 < scaleAt c (snd (rotate (rotation c) p))
  /\ 0.5 <= dotRadius (drawPoint c (hoverRadius (Rmin W H)) p)
  /\ 0 < dotAlpha (drawPoint c (hoverRadius (Rmin W H)) p) < 1.105
  /\ dotRadius (drawPoint c 0 p)
     <= dotRadius (drawPoint c (hoverRadius (Rmin W H)) p)
  /\ Rmin 1 (dotAlpha (drawPoint c 0 p))
     <= dotAlpha (drawPoint c (hoverRadius (Rmin W H)) p).
Proof.
  destruct (rotated_depth W H rnd (rotation c) p) as (_ & Hr & Ht & i & En);
    [lra | lra | exact Hin |].
  cbv zeta in *.
  assert (Hhr : 100 <= hoverRadius (Rmin W H) <= 250).
  { unfold hoverRadius. split; [apply Rmax_l |].
    apply Rmax_lub; [lra | apply Rmin_l]. }
  assert (Hdiv : 0 < planetZ + snd (rotate (rotation c) p) * 0.001)
    by (unfold planetZ; lra).
  assert (Hscale : 0 < scaleAt c (snd (rotate (rotation c) p)))
    by (unfold scaleAt; apply Rdiv_lt_0_compat; assumption).
  split; [exact Hhr |]. split; [exact Hdiv |]. split; [exact Hscale |].
  specialize (Hrnd i). rewrite <- En in Hrnd.
  revert Hscale. unfold drawPoint, rotate. cbn [fst snd].
  set (rz := baseX p * sin (rotation c) + baseZ p * cos (rotation c)).
  set (sc := scaleAt c rz).
  intros Hscale.
  match goal with |- context [Rlt_dec (sqrt ?d) 0] =>
    set (dist := sqrt d);
    assert (Hdist : 0 <= dist) by apply sqrt_pos end.
  destruct (Rlt_dec dist 0) as [Hneg | _]; [lra |].
  set (fa := (if if Rlt_dec 0 rz then true else false then 0.15 else 0.85)
             * (0.7 + noise p * 0.6)).
  assert (Hfa : 0.105 <= fa < 1.105).
  { unfold fa. destruct (Rlt_dec 0 rz); split; nra. }
  destruct (Rlt_dec dist (hoverRadius (Rmin W H))) as [Hin' | Hout];
    cbn [dotRadius dotAlpha].
  - set (I := (1 - dist / hoverRadius (Rmin W H)) ^ 2).
    assert (HI : 0 <= I) by (unfold I; apply pow2_ge_0).
    set (ds := (if if Rlt_dec 0 rz then true else false then 0.9 else 1.3)
               * sc * 0.8).
    split; [apply Rmax_l |].
    split; [split |].
    + apply Rmin_glb_lt; lra.
    + eapply Rle_lt_trans; [apply Rmin_l | lra].
    + split.
      * apply Rmax_lub; [apply Rmax_l |].
        eapply Rle_trans; [| apply Rmax_r]. lra.
      * apply Rmin_glb; [apply Rmin_l |].
        eapply Rle_trans; [apply Rmin_r | lra].
  - split; [apply Rmax_l |].
    split; [lra |].
    split; [apply Rle_refl | apply Rmin_r].
Qed.

Lemma limb_inequality (r t : R) :
  0 <= r -> r <= 1000 -> - r <= t <= r ->
  2.56 * (r * r - t * t)
  <= 1.69 * (r * r) * ((1.6 + t * 0.001) * (1.6 + t * 0.001)).
Proof.
  intros Hr0 Hr1 Ht.
  set (u := t * 0.001).
  assert (Hq : 0 <= 4.25 * (u * u) + 5.408 * u + 1.7664).
  { pose proof (Rle_0_sqr (u + 0.636)) as Hsq. unfold Rsqr in Hsq. nra. }
  assert (Hrr : 0 <= r * r) by nra.
  assert (Htt : r * r * (u * u) <= t * t).
  { set (k := r * 0.001).
    assert (Hk : 0 <= k <= 1) by (unfold k; lra).
    assert (E : r * r * (u * u) = k * k * (t * t)) by (unfold u, k; nra).
    assert (0 <= t * t) by nra.
    assert (k * k <= 1) by nra.
    rewrite E. nra. }
  assert (Hprod : 0 <= r * r * (4.25 * (u * u) + 5.408 * u + 1.7664))
    by (apply Rmult_le_pos; assumption).
  fold u. nra.
Qed.

(** X20.  The globe lies inside its atmosphere glow: with the camera at rest (no
    parallax, no bobbing), a positive zoom and a planet radius of at most
    1000 (a surface whose smaller side is at most 3333 pixels), the glow is
    painted, centred on the centre of the view, its gradient starting at 0.9
    and ending at 1.3 times the visual radius of the planet, and every dot
    of the planet is painted within the outer radius of the glow. *)
Theorem planet_inside_glow (W H : R) (rnd : nat -> R) (c : Camera)
    (p : PlanetPoint)
    (HW : 0 < W) (HH : 0 < H) (Hsize : Rmin W H * 0.30 <= 1000)
    (Hzoom : 0 < zoom c) (Hox : offsetX c = 0) (Hoy : offsetY c = 0)
    (Hin : In p (initPlanet W H rnd)) :
  exists inner outer,
    drawGlow c (Rmin W H) = Some (cx c, cy c, inner, outer)
    /\ 0 < inner < outer
    /\ outer = Rmin W H * 0.30 * (zoom c / planetZ) * 1.3
    /\ forall hover,
         (dotX (drawPoint c hover p) - cx c)
         * (dotX (drawPoint c hover p) - cx c)
         + (dotY (drawPoint c hover p) - cy c)
           * (dotY (drawPoint c hover p) - cy c)
         <= outer * outer.
Proof.
  destruct (rotated_depth W H rnd (rotation c) p) as (Hs & Hr & Ht & _);
    [lra | lra | exact Hin |].
  cbv zeta in *.
  set (r := Rmin W H * 0.30) in *.
  assert (Hrpos : 0 < r)
    by (unfold r; apply Rmult_lt_0_compat; [apply Rmin_glb_lt; lra | lra]).
  assert (Hvis : 0 < r * (zoom c / planetZ)).
  { apply Rmult_lt_0_compat; [exact Hrpos |].
    apply Rdiv_lt_0_compat; [exact Hzoom | unfold planetZ; lra]. }
  exists (r * (zoom c / planetZ) * 0.9), (r * (zoom c / planetZ) * 1.3).
  split.
  - unfold drawGlow. fold r.
    destruct (Rlt_dec 0 (r * (zoom c / planetZ))) as [_ | Hn]; [| contradiction].
    rewrite Hox, Hoy.
    replace (cx c + 0 * (zoom c / planetZ)) with (cx c) by ring.
    replace (cy c + 0 * (zoom c / planetZ)) with (cy c) by ring.
    reflexivity.
  - split; [split; lra |]. split; [reflexivity |].
    intros hover.
    destruct (drawPoint_position c hover p) as [-> ->].
    rewrite Hox, Hoy.
    set (a := fst (fst (rotate (rotation c) p))) in *.
    set (b := snd (fst (rotate (rotation c) p))) in *.
    set (t := snd (rotate (rotation c) p)) in *.
    unfold scaleAt, planetZ in *.
    assert (HD : 0 < 1.6 + t * 0.001) by lra.
    set (D := 1.6 + t * 0.001) in *.
    set (sc := zoom c / D).
    assert (Ezoom : zoom c = sc * D) by (unfold sc; field; lra).
    pose proof (limb_inequality r t Hr Hsize Ht) as Hlimb. fold D in Hlimb.
    replace (r * (zoom c / 1.6) * 1.3) with (r * sc * D * (1.3 / 1.6))
      by (rewrite Ezoom; nra).
    assert (Hab : a * a + b * b = r * r - t * t) by lra.
    replace ((cx c + (a + 0) * sc - cx c) * (cx c + (a + 0) * sc - cx c)
             + (cy c + (b + 0) * sc - cy c) * (cy c + (b + 0) * sc - cy c))
      with ((r * r - t * t) * (sc * sc)) by (rewrite <- Hab; ring).
    replace (r * sc * D * (1.3 / 1.6) * (r * sc * D * (1.3 / 1.6)))
      with ((1.69 * (r * r) * (D * D) / 2.56) * (sc * sc)) by nra.
    apply Rmult_le_compat_r; [nra | lra].
Qed.

End PlanetDrawFacts.

(** ** The resize *)

Section ResizeFacts.

Variable Math_sin : Q -> Q.
Variable Math_cos : Q -> Q.
Variable Math_hypot : Q -> Q -> Q.


End ResizeFacts.

(** * The further properties at sample inputs *)

Lemma sample_world_unit : unit_interval sample_world.
Proof. intros [|[|n]]; cbn; split; lra. Qed.

Lemma initStars_contract_witness :
  unit_interval sample_world
  /\ exists s' w',
       initStars 1000 800 (initialScene None None) sample_world = Ok s' w'
       /\ s' = set_stars (initialScene None None) (starsRef s')
       /\ only_drawn sample_world w'
       /\ Z.of_nat (length (starsRef s')) = spec_starCount 1000 800
       /\ Forall (generated 1000 800) (starsRef s').
Proof.
  split; [exact sample_world_unit |].
  apply (initStars_contract 1000 800 (initialScene None None) sample_world).
  exact sample_world_unit.
Defined.

Lemma stars_fill_the_frustum_witness :
  exists s' w',
    initStars 1000 800 (initialScene None None) sample_world = Ok s' w'
    /\ Forall (in_frustum 1000 800 rest_view) (starsRef s').
Proof.
  apply (proj1 (stars_fill_the_frustum 1000 800 rest_view sample_world
                  sample_world_unit ltac:(lra) ltac:(lra)
                  ltac:(cbn; lra) ltac:(reflexivity) ltac:(reflexivity))).
Defined.

Lemma stars_stay_well_formed_witness :
  exists s w',
    (s0 <- mount (Some sample_canvas) (Some sample_container) ;;
     run sample_sin sample_cos sample_hypot sample_events s0) sample_world
    = Ok s w'
    /\ Forall star_ok (starsRef s)
    /\ Forall (fun star => -0.012 <= Star.opacity star
                           /\ Star.opacity star <= 1.012) (starsRef s).
Proof.
  apply (stars_stay_well_formed sample_sin sample_cos sample_hypot).
  exact sample_world_unit.
Defined.


Lemma cleanup_leaves_no_frame_witness :
  frames sample_world = []
  /\ exists s w1 w2,
       (s0 <- mount (Some sample_canvas) (Some sample_container) ;;
        run sample_sin sample_cos sample_hypot sample_events s0) sample_world
       = Ok s w1
       /\ (frames w1 = [] \/ frames w1 = [requestRef s])
       /\ cleanup s w1 = Ok tt w2
       /\ frames w2 = [].
Proof.
  split; [reflexivity |].
  apply (cleanup_leaves_no_frame sample_sin sample_cos sample_hypot).
  reflexivity.
Defined.

Lemma frame_loop_keeps_running_witness :
  exists s w',
    (s0 <- mount (Some sample_canvas) (Some sample_container) ;;
     run sample_sin sample_cos sample_hypot sample_events s0) sample_world
    = Ok s w'
    /\ surface_available s = true
    /\ frames w' = [requestRef s].
Proof.
  apply (frame_loop_keeps_running sample_sin sample_cos sample_hypot
           sample_canvas (Some sample_container) sample_events sample_world);
    reflexivity.
Defined.

Lemma star_count_changes_only_on_resize_witness :
  exists s' w',
    run sample_sin sample_cos sample_hypot quiet_events pinching_scene
      running_world = Ok s' w'
    /\ length (starsRef s') = 2%nat
    /\ canvasRef s' = Some sample_canvas.
Proof.
  apply (star_count_changes_only_on_resize sample_sin sample_cos sample_hypot
           quiet_events).
  repeat constructor.
Defined.

Lemma connection_duration_witness :
  (forall k, (1 <= k <= 70)%nat ->
     0 < Connection.life (iter k stepLife sample_connection))
  /\ exists n, (71 <= n <= 129)%nat
       /\ Connection.life (iter n stepLife sample_connection) <= 0.
Proof.
  apply (connection_duration sample_connection);
    [reflexivity | reflexivity | cbn; lra | cbn; lra].
Defined.

Lemma connections_bounded_witness :
  exists s w',
    (s0 <- mount (Some sample_canvas) (Some sample_container) ;;
     run sample_sin sample_cos sample_hypot sample_events s0) sample_world
    = Ok s w'
    /\ (length (connectionsRef s) <= 128)%nat.
Proof.
  apply (connections_bounded sample_sin sample_cos sample_hypot).
  exact sample_world_unit.
Defined.

Lemma held_connections_alive_witness :
  exists s w',
    (s0 <- mount (Some sample_canvas) (Some sample_container) ;;
     run sample_sin sample_cos sample_hypot sample_events s0) sample_world
    = Ok s w'
    /\ Forall (fun c =>
                 Connection.endIdx c <> Connection.startIdx c
                 /\ 0 < Connection.life c
                 /\ Connection.life c < Connection.maxLife c + 0.04
                 /\ 0.6 <= Connection.maxLife c
                 /\ Connection.maxLife c <= 1
                 /\ Connection.life c * 0.6 < 0.624
                 /\ 0.5 + Connection.life c * 1.5 < 2.06)
         (connectionsRef s).
Proof.
  apply (held_connections_alive sample_sin sample_cos sample_hypot).
  exact sample_world_unit.
Defined.

Lemma star_discs_well_formed_witness :
  Forall (fun d => 0.3 <= discRadius d
                   /\ 0 <= paintAlpha (discPaint d)
                   /\ paintAlpha (discPaint d) <= 1
                   /\ (is_halo d = true -> 2.25 < discRadius d))
    (drawStar zoomed_view (sample_star 0 0 1 0.5 0.01)).
Proof.
  apply (proj1 (star_discs_well_formed zoomed_view
                  (sample_star 0 0 1 0.5 0.01) ltac:(cbn; lra))).
Defined.

Lemma halo_depth_band_witness :
  existsb is_halo (drawStar zoomed_view (sample_star 0 0 1 0.5 0.01)) = true.
Proof.
  apply (proj2 (halo_depth_band zoomed_view (sample_star 0 0 1 0.5 0.01)
                  ltac:(cbn; lra))).
  unfold on_screen, project. cbn. repeat split; lra.
Defined.

Lemma sample_star_ok : star_ok (sample_star 0 0 1 0.5 0.01).
Proof.
  unfold star_ok, sample_star. cbn.
  replace (Qabs 0.01) with 0.01 by reflexivity.
  repeat split; try lra; exact I.
Qed.

Lemma near_plane_fade_witness :
  Forall (fun d => paintAlpha (discPaint d) <= 0.81
                   /\ paintAlpha (discPaint d) <= 4.05 * (1 - 0.2))
    (drawStar zoomed_view (sample_star 0 0 1 0.5 0.01)).
Proof.
  exact (proj1 (near_plane_fade zoomed_view (sample_star 0 0 1 0.5 0.01)
                  sample_star_ok)).
Defined.



Lemma stats_stay_in_range_witness :
  exists stats w',
    HeroContent.ticks 3 HeroContent.initialStats sample_world = Ok stats w'
    /\ (8000 <= HeroContent.nodes stats /\ HeroContent.nodes stats <= 9000)
    /\ (30 <= HeroContent.load stats /\ HeroContent.load stats <= 65).
Proof.
  destruct (stats_stay_in_range 3 sample_world sample_world_unit)
    as (stats & w' & E & Hn & Hl & _).
  exists stats, w'. auto.
Defined.

Lemma stats_change_slowly_witness :
  exists stats w',
    HeroContent.updateStats HeroContent.initialStats sample_world
    = Ok stats w'
    /\ Qabs (HeroContent.nodes stats - 8492) <= 10
    /\ Qabs (HeroContent.load stats - 42) <= 2.
Proof.
  destruct (stats_change_slowly HeroContent.initialStats sample_world
              sample_world_unit ltac:(cbn; lra) ltac:(cbn; lra)
              ltac:(cbn; lra) ltac:(cbn; lra))
    as (stats & w' & E & Hn & Hl & _).
  exists stats, w'. auto.
Defined.

Section PlanetDrawSamples.

Import Planet PlanetDraw.
Local Open Scope R_scope.

Lemma first_point_in : In first_point (initPlanet 1000 800 (fun _ => 0)).
Proof.
  unfold initPlanet, first_point. apply in_map_iff. exists 0%nat.
  split; [reflexivity | apply in_seq; unfold numPoints; lia].
Qed.

Lemma Rmin_1000_800 : Rmin 1000 800 = 800.
Proof. apply Rmin_right. lra. Qed.

Lemma planet_dots_well_formed_witness :
  0 < scaleAt rest_camera (snd (rotate (rotation rest_camera) first_point))
  /\ 0.5 <= dotRadius (drawPoint rest_camera (hoverRadius (Rmin 1000 800))
                         first_point).
Proof.
  destruct (planet_dots_well_formed 1000 800 (fun _ => 0) rest_camera
              first_point ltac:(lra) ltac:(lra)
              ltac:(rewrite Rmin_1000_800; lra) ltac:(cbn; lra)
              ltac:(intros; lra) first_point_in)
    as (_ & _ & Hs & Hr & _).
  split; assumption.
Defined.

Lemma planet_inside_glow_witness :
  exists inner outer,
    drawGlow rest_camera (Rmin 1000 800)
    = Some (cx rest_camera, cy rest_camera, inner, outer)
    /\ (dotX (drawPoint rest_camera 100 first_point) - cx rest_camera)
       * (dotX (drawPoint rest_camera 100 first_point) - cx rest_camera)
       + (dotY (drawPoint rest_camera 100 first_point) - cy rest_camera)
         * (dotY (drawPoint rest_camera 100 first_point) - cy rest_camera)
       <= outer * outer.
Proof.
  destruct (planet_inside_glow 1000 800 (fun _ => 0) rest_camera
              first_point ltac:(lra) ltac:(lra)
              ltac:(rewrite Rmin_1000_800; lra) ltac:(cbn; lra)
              eq_refl eq_refl first_point_in)
    as (inner & outer & E & _ & _ & Hin).
  exists inner, outer. split; [exact E | apply Hin].
Defined.

End PlanetDrawSamples.
